(** * Personal knowledge graph: keyword index over a key-value store

    Shallow embedding of [src/lib/actions.ts] (the server actions of the
    knowledge store) together with the fragment of the Redis data model the
    actions talk to through [src/lib/db.ts], and of the reducer of the
    optimistic list in [src/app/page.tsx].

    Conventions of the embedding.

    - JavaScript strings are sequences of UTF-16 code units.  The embedding
      works on the Latin-1 fragment: a [string] is a sequence of code units
      below 256, one [ascii] per code unit.  On that fragment
      [String.prototype.toLowerCase] acts unit by unit.
    - [uuidv4()] and [new Date().toISOString()] are inputs of [addNodeAction].
    - [revalidatePath] touches the page cache only and is left out.
    - Every [await] on the client is one round trip to the backend.  A round
      trip either resolves or rejects; the schedule of rejections is part of
      the state of the world, so that every [catch] branch of the source is
      reachable. *)

From Stdlib Require Import Ascii String NArith ZArith Lia List.
From stdpp Require Import gmap strings list fin_maps sorting.

(** ** JavaScript built-ins used by the actions *)

Module JS.

Definition code (c : ascii) : N := N_of_ascii c.

(** [\s] of a JavaScript regular expression (and the characters removed by
    [trim]), below code unit 256: TAB, LF, VT, FF, CR, SP and NBSP. *)
Definition is_space (c : ascii) : bool :=
  match code c with
  | 9 | 10 | 11 | 12 | 13 | 32 | 160 => true
  | _ => false
  end%N.

(** [\d]. *)
Definition is_digit (c : ascii) : bool :=
  ((48 <=? code c) && (code c <=? 57))%N.

(** The character class [[.,!?]]. *)
Definition is_punct (c : ascii) : bool :=
  match code c with
  | 46 | 44 | 33 | 63 => true
  | _ => false
  end%N.

(** Lower-casing of one Latin-1 code unit: A-Z, and the upper-case letters
    of U+00C0..U+00DE (U+00D7, the multiplication sign, is not a letter). *)
Definition lower (c : ascii) : ascii :=
  let n := code c in
  if ((65 <=? n) && (n <=? 90)
      || (192 <=? n) && (n <=? 222) && negb (n =? 215))%N
  then ascii_of_N (n + 32) else c.

Fixpoint smap (f : ascii → ascii) (s : string) : string :=
  match s with
  | EmptyString => EmptyString
  | String c r => String (f c) (smap f r)
  end.

Fixpoint sfilter (p : ascii → bool) (s : string) : string :=
  match s with
  | EmptyString => EmptyString
  | String c r => if p c then String c (sfilter p r) else sfilter p r
  end.

Fixpoint sall (p : ascii → bool) (s : string) : bool :=
  match s with
  | EmptyString => true
  | String c r => p c && sall p r
  end.

(** The code units that lower-casing leaves as they are. *)
Definition lower_case (c : ascii) : bool := Ascii.eqb (lower c) c.

(** [s.toLowerCase()] *)
Definition toLowerCase (s : string) : string := smap lower s.

(** [s.split(/\s+/)]: the pieces between maximal runs of white space.  The
    result is never empty; a leading or trailing run yields an empty piece,
    and the empty string yields one empty piece. *)
Fixpoint split_ws (s : string) : list string :=
  match s with
  | EmptyString => [EmptyString]
  | String c r =>
      if is_space c then
        match r with
        | String c' _ => if is_space c' then split_ws r
                         else EmptyString :: split_ws r
        | EmptyString => EmptyString :: split_ws r
        end
      else
        match split_ws r with
        | piece :: pieces => String c piece :: pieces
        | [] => [String c EmptyString]
        end
  end.

(** [/^\d+$/.test(s)] *)
Definition test_digits (s : string) : bool :=
  match s with
  | EmptyString => false
  | _ => sall is_digit s
  end.

(** [s.replace(/[.,!?]/g, '')]: every occurrence is removed. *)
Definition replace_punct (s : string) : string :=
  sfilter (λ c, negb (is_punct c)) s.

Fixpoint trimStart (s : string) : string :=
  match s with
  | String c r => if is_space c then trimStart r else s
  | EmptyString => EmptyString
  end.

(** [s.trim()] *)
Definition trim (s : string) : string :=
  String.rev (trimStart (String.rev (trimStart s))).

(** [s.startsWith(p)] *)
Definition startsWith (p s : string) : bool := String.prefix p s.

(** A [Set] of strings keeps its elements in insertion order; adding an
    element that is already there changes nothing.  [Set_of a] is
    [new Set(a)], and the list itself is what [[...set]] spreads to. *)
Definition Set_has (x : string) (s : list string) : bool :=
  bool_decide (x ∈ s).

Definition Set_add (s : list string) (x : string) : list string :=
  if Set_has x s then s else s ++ [x].

Definition Set_of (a : list string) : list string :=
  fold_left Set_add a [].

End JS.

(** ** The tokenizer *)

(** [extractKeywords], lines 57-68. *)
Definition extractKeywords (content : string) : list string :=
  JS.Set_of
    (take 10
       (map JS.replace_punct
          (List.filter
             (λ word, (2 <? String.length word)%nat && negb (JS.test_digits word))
             (JS.split_ws (JS.toLowerCase content))))).

(** ** JSON

    [JSON.stringify] on arrays of strings, and [JSON.parse] on every text.
    A parsed string is a list of code units: a [\uXXXX] escape can name a
    unit outside Latin-1.  A number is kept as its literal. *)

Module JSON.

#[warnings="-register-all"] Inductive value :=
| Null
| Bool (b : bool)
| Num (literal : string)
| Str (units : list N)
| Arr (items : list value)
| Obj (members : list (list N * value)).

Definition dquote : ascii := "034"%char.
Definition backslash : ascii := "092"%char.

(** *** Writing *)

Definition hex_digit (n : N) : ascii :=
  if (n <? 10)%N then ascii_of_N (48 + n) else ascii_of_N (87 + n).

(** QuoteJSONString, one code unit at a time. *)
Definition quote_unit (c : ascii) : string :=
  match JS.code c with
  | 34 => String backslash (String dquote EmptyString)
  | 92 => String backslash (String backslash EmptyString)
  | 8 => String backslash "b"
  | 12 => String backslash "f"
  | 10 => String backslash "n"
  | 13 => String backslash "r"
  | 9 => String backslash "t"
  | n => if (n <? 32)%N
         then String backslash
                (String "u" (String "0" (String "0"
                  (String (hex_digit (n / 16)) (String (hex_digit (n mod 16))
                     EmptyString)))))
         else String c EmptyString
  end%N.

Fixpoint quote_units (s : string) : string :=
  match s with
  | EmptyString => EmptyString
  | String c r => quote_unit c +:+ quote_units r
  end.

Definition quote (s : string) : string :=
  String dquote (quote_units s +:+ String dquote EmptyString).

Fixpoint join_quoted (ks : list string) : string :=
  match ks with
  | [] => EmptyString
  | [k] => quote k
  | k :: ks => quote k +:+ String "," (join_quoted ks)
  end.

(** [JSON.stringify(a)] for [a : string[]]. *)
Definition stringify (a : list string) : string :=
  String "[" (join_quoted a +:+ "]").

(** *** Reading *)

Definition is_ws (c : ascii) : bool :=
  match JS.code c with
  | 9 | 10 | 13 | 32 => true
  | _ => false
  end%N.

Fixpoint skip_ws (s : string) : string :=
  match s with
  | String c r => if is_ws c then skip_ws r else s
  | EmptyString => EmptyString
  end.

Definition hex_val (c : ascii) : option N :=
  let n := JS.code c in
  if ((48 <=? n) && (n <=? 57))%N then Some (n - 48)%N
  else if ((97 <=? n) && (n <=? 102))%N then Some (n - 87)%N
  else if ((65 <=? n) && (n <=? 70))%N then Some (n - 55)%N
  else None.

Definition push (n : N) (r : option (list N * string))
  : option (list N * string) :=
  match r with
  | Some (us, rest) => Some (n :: us, rest)
  | None => None
  end.

(** The characters of a string literal after its opening quote, up to and
    including the closing quote. *)
Fixpoint string_body (s : string) : option (list N * string) :=
  match s with
  | EmptyString => None
  | String c r =>
      match JS.code c with
      | 34 => Some ([], r)
      | 92 =>
          match r with
          | String e r1 =>
              match JS.code e with
              | 34 => push 34 (string_body r1)
              | 92 => push 92 (string_body r1)
              | 47 => push 47 (string_body r1)
              | 98 => push 8 (string_body r1)
              | 102 => push 12 (string_body r1)
              | 110 => push 10 (string_body r1)
              | 114 => push 13 (string_body r1)
              | 116 => push 9 (string_body r1)
              | 117 =>
                  match r1 with
                  | String h1 (String h2 (String h3 (String h4 r2))) =>
                      match hex_val h1, hex_val h2, hex_val h3, hex_val h4 with
                      | Some a, Some b, Some c, Some d =>
                          push (4096 * a + 256 * b + 16 * c + d)
                               (string_body r2)
                      | _, _, _, _ => None
                      end
                  | _ => None
                  end
              | _ => None
              end
          | EmptyString => None
          end
      | n => if (n <? 32)%N then None else push n (string_body r)
      end%N
  end.

(** The longest prefix of digits, and what follows it. *)
Fixpoint digits (s : string) : string * string :=
  match s with
  | String c r =>
      if JS.is_digit c
      then let '(ds, rest) := digits r in (String c ds, rest)
      else (EmptyString, s)
  | EmptyString => (EmptyString, EmptyString)
  end.

Definition number_int (s : string) : option (string * string) :=
  match s with
  | String c r =>
      if (JS.code c =? 48)%N then Some ("0", r)
      else if JS.is_digit c
      then let '(ds, rest) := digits r in Some (String c ds, rest)
      else None
  | EmptyString => None
  end.

Definition number_frac (s : string) : option (string * string) :=
  match s with
  | String c r =>
      if (JS.code c =? 46)%N then
        match digits r with
        | (EmptyString, _) => None
        | (ds, rest) => Some (String c ds, rest)
        end
      else Some (EmptyString, s)
  | EmptyString => Some (EmptyString, s)
  end.

Definition number_exp (s : string) : option (string * string) :=
  match s with
  | String e r =>
      if ((JS.code e =? 101) || (JS.code e =? 69))%N then
        let '(sign, r1) :=
          match r with
          | String g r1 =>
              if ((JS.code g =? 43) || (JS.code g =? 45))%N
              then (String g EmptyString, r1) else (EmptyString, r)
          | EmptyString => (EmptyString, r)
          end in
        match digits r1 with
        | (EmptyString, _) => None
        | (ds, rest) => Some (String e (sign +:+ ds), rest)
        end
      else Some (EmptyString, s)
  | EmptyString => Some (EmptyString, s)
  end.

(** A number literal: sign, integer part, fraction, exponent. *)
Definition number (s : string) : option (string * string) :=
  let '(sign, s0) :=
    match s with
    | String c r =>
        if (JS.code c =? 45)%N then (String c EmptyString, r)
        else (EmptyString, s)
    | EmptyString => (EmptyString, s)
    end in
  '(i, s1) ← number_int s0;
  '(f, s2) ← number_frac s1;
  '(e, s3) ← number_exp s2;
  Some (sign +:+ i +:+ f +:+ e, s3).

Fixpoint strip_prefix (p s : string) : option string :=
  match p, s with
  | EmptyString, _ => Some s
  | String a p', String b s' =>
      if Ascii.eqb a b then strip_prefix p' s' else None
  | String _ _, EmptyString => None
  end.

(** Recursive descent.  [fuel] bounds the depth of the calls; [parse]
    supplies more than a text of that length can use. *)
Fixpoint element (fuel : nat) (s : string) {struct fuel}
  : option (value * string) :=
  match fuel with
  | O => None
  | S fuel =>
      match s with
      | EmptyString => None
      | String c r =>
          match JS.code c with
          | 34 => '(us, rest) ← string_body r; Some (Str us, rest)
          | 91 =>
              match skip_ws r with
              | String c' r' =>
                  if (JS.code c' =? 93)%N then Some (Arr [], r')
                  else '(vs, rest) ← elements fuel (skip_ws r);
                       Some (Arr vs, rest)
              | EmptyString => None
              end
          | 123 =>
              match skip_ws r with
              | String c' r' =>
                  if (JS.code c' =? 125)%N then Some (Obj [], r')
                  else '(ms, rest) ← members fuel (skip_ws r);
                       Some (Obj ms, rest)
              | EmptyString => None
              end
          | 110 => rest ← strip_prefix "null" s; Some (Null, rest)
          | 116 => rest ← strip_prefix "true" s; Some (Bool true, rest)
          | 102 => rest ← strip_prefix "false" s; Some (Bool false, rest)
          | _ => '(lit, rest) ← number s; Some (Num lit, rest)
          end%N
      end
  end
with elements (fuel : nat) (s : string) {struct fuel}
  : option (list value * string) :=
  match fuel with
  | O => None
  | S fuel =>
      '(v, r) ← element fuel s;
      match skip_ws r with
      | String c r' =>
          if (JS.code c =? 44)%N then
            '(vs, rest) ← elements fuel (skip_ws r'); Some (v :: vs, rest)
          else if (JS.code c =? 93)%N then Some ([v], r')
          else None
      | EmptyString => None
      end
  end
with members (fuel : nat) (s : string) {struct fuel}
  : option (list (list N * value) * string) :=
  match fuel with
  | O => None
  | S fuel =>
      match s with
      | String q r =>
          if (JS.code q =? 34)%N then
            '(key, r1) ← string_body r;
            match skip_ws r1 with
            | String colon r2 =>
                if (JS.code colon =? 58)%N then
                  '(v, r3) ← element fuel (skip_ws r2);
                  match skip_ws r3 with
                  | String c r4 =>
                      if (JS.code c =? 44)%N then
                        '(ms, rest) ← members fuel (skip_ws r4);
                        Some ((key, v) :: ms, rest)
                      else if (JS.code c =? 125)%N then Some ([(key, v)], r4)
                      else None
                  | EmptyString => None
                  end
                else None
            | EmptyString => None
            end
          else None
      | EmptyString => None
      end
  end.

(** [JSON.parse(text)]; [None] is the [SyntaxError]. *)
Definition parse (text : string) : option value :=
  '(v, rest) ← element (2 * String.length text + 2) (skip_ws text);
  match skip_ws rest with
  | EmptyString => Some v
  | String _ _ => None
  end.

(** A parsed string as a Latin-1 string, when all its units fit. *)
Fixpoint latin1 (us : list N) : option string :=
  match us with
  | [] => Some EmptyString
  | u :: us =>
      if (u <? 256)%N then String (ascii_of_N u) <$> latin1 us else None
  end.

Definition as_string (v : value) : option string :=
  match v with
  | Str us => latin1 us
  | _ => None
  end.

(** A parsed value as a [string[]]. *)
Definition as_strings (v : value) : option (list string) :=
  match v with
  | Arr items => mapM as_string items
  | _ => None
  end.

Definition units (s : string) : list N :=
  map N_of_ascii (list_ascii_of_string s).

(** The value that an array of strings denotes. *)
Definition of_strings (ks : list string) : value :=
  Arr (map (λ k, Str (units k)) ks).

End JSON.


(** ** The storage backend

    The fragment of Redis reached through the client of [src/lib/db.ts]:
    one key space whose values are hashes or sets, and the seven commands the
    actions send. *)

Module Redis.

Inductive Value :=
| Hash (fields : gmap string string)
| Members (set : gset string).

Inductive Command :=
| HSET (key : string) (fields : gmap string string)
| HGETALL (key : string)
| DEL (key : string)
| SADD (key member : string)
| SREM (key member : string)
| SMEMBERS (key : string)
| SUNION (keys : list string).

Inductive Reply :=
| Error
| Integer (n : nat)
| Fields (fields : gmap string string)
| Elements (members : list string).

(** The hash held at [key] for a reading command: a key that is not there
    reads as the empty hash; [None] is WRONGTYPE. *)
Definition hash_at (st : gmap string Value) (key : string)
  : option (gmap string string) :=
  match st !! key with
  | None => Some ∅
  | Some (Hash h) => Some h
  | Some (Members _) => None
  end.

(** The set held at [key] for a reading command; [None] is WRONGTYPE. *)
Definition set_at (st : gmap string Value) (key : string)
  : option (gset string) :=
  match st !! key with
  | None => Some ∅
  | Some (Members s) => Some s
  | Some (Hash _) => None
  end.

Definition run (c : Command) (st : gmap string Value)
  : Reply * gmap string Value :=
  match c with
  | HSET key fields =>
      if decide (fields = ∅) then (Error, st)
      else
        match st !! key with
        | None => (Integer (size fields), <[key := Hash fields]> st)
        | Some (Hash h) =>
            (Integer (size (fields ∖ h)), <[key := Hash (fields ∪ h)]> st)
        | Some (Members _) => (Error, st)
        end
  | HGETALL key =>
      match hash_at st key with
      | Some h => (Fields h, st)
      | None => (Error, st)
      end
  | DEL key =>
      (Integer (match st !! key with Some _ => 1 | None => 0 end), delete key st)
  | SADD key member =>
      match st !! key with
      | None => (Integer 1, <[key := Members {[member]}]> st)
      | Some (Members s) =>
          (Integer (if decide (member ∈ s) then 0 else 1),
           <[key := Members ({[member]} ∪ s)]> st)
      | Some (Hash _) => (Error, st)
      end
  | SREM key member =>
      match st !! key with
      | None => (Integer 0, st)
      | Some (Members s) =>
          if decide (member ∈ s) then
            (Integer 1,
             if decide (s ∖ {[member]} = ∅) then delete key st
             else <[key := Members (s ∖ {[member]})]> st)
          else (Integer 0, st)
      | Some (Hash _) => (Error, st)
      end
  | SMEMBERS key =>
      match set_at st key with
      | Some s => (Elements (elements s), st)
      | None => (Error, st)
      end
  | SUNION keys =>
      match keys with
      | [] => (Error, st)
      | _ =>
          match mapM (set_at st) keys with
          | Some sets => (Elements (elements (⋃ sets)), st)
          | None => (Error, st)
          end
      end
  end.

(** A batch: the commands run in order, each with its own reply. *)
Fixpoint run_all (cs : list Command) (st : gmap string Value)
  : list Reply * gmap string Value :=
  match cs with
  | [] => ([], st)
  | c :: cs =>
      let '(r, st1) := run c st in
      let '(rs, st2) := run_all cs st1 in
      (r :: rs, st2)
  end.

End Redis.

(** ** The world of an action

    The store, the commands sent so far, and the fate of the round trips to
    come: [None] lets a round trip through; [Some n] makes it reject after
    the first [n] of its commands took effect.  An exhausted schedule lets
    every round trip through. *)

Record World := {
  store : gmap string Redis.Value;
  sent : list Redis.Command;
  faults : list (option nat)
}.

Definition round_trip (cs : list Redis.Command) (w : World)
  : option (list Redis.Reply) * World :=
  match head (faults w) with
  | Some (Some n) =>
      (None,
       {| store := (Redis.run_all (take n cs) (store w)).2;
          sent := sent w ++ cs;
          faults := tail (faults w) |})
  | _ =>
      let '(rs, st) := Redis.run_all cs (store w) in
      (Some rs, {| store := st; sent := sent w ++ cs; faults := tail (faults w) |})
  end.

(** [await db.command(...)]: the promise rejects when the round trip fails
    and when the reply is an error. *)
Definition call (c : Redis.Command) (w : World) : option Redis.Reply * World :=
  match round_trip [c] w with
  | (Some [r], w') =>
      (match r with Redis.Error => None | _ => Some r end, w')
  | (_, w') => (None, w')
  end.

(** [await pipeline.exec()]: the promise rejects only when the round trip
    fails; the error of one command is reported in its own reply. *)
Definition exec (pipeline : list Redis.Command) (w : World)
  : option (list Redis.Reply) * World :=
  round_trip pipeline w.

(** The commands that maintain the keyword index. *)
Definition index_command (c : Redis.Command) : Prop :=
  match c with
  | Redis.SADD key _ | Redis.SREM key _ => ∃ keyword, key = "keyword:" +:+ keyword
  | _ => False
  end.

(** ** Interfaces and schemas *)

Inductive NodeType := note | url.

(** [KnowledgeNode], lines 10-16. *)
Record KnowledgeNode := {
  id : string;
  content : string;
  type : NodeType;
  createdAt : string;
  keywords : list string
}.

Definition type_name (t : NodeType) : string :=
  match t with note => "note" | url => "url" end.

(** [StorableNode], lines 18-20 and 102-105: the node with its keywords
    written as JSON, as the fields of a hash. *)
Definition storable (node : KnowledgeNode) : gmap string string :=
  {[ "id" := id node;
     "content" := content node;
     "type" := type_name (type node);
     "createdAt" := createdAt node;
     "keywords" := JSON.stringify (keywords node) ]}.

(** The object that [parseNode] builds on lines 47-50: the fields of the hash
    as they are, and [keywords] replaced by the parsed value.  The cast to
    [KnowledgeNode] checks nothing. *)
Record NodeObject := {
  own : gmap string string;
  keywords_value : JSON.value
}.

(** A [KnowledgeNode] as such an object. *)
Definition object_of (node : KnowledgeNode) : NodeObject :=
  {| own := {[ "id" := id node;
               "content" := content node;
               "type" := type_name (type node);
               "createdAt" := createdAt node ]};
     keywords_value := JSON.of_strings (keywords node) |}.

(** The object read back at the type the cast claims for it. *)
Definition as_node (o : NodeObject) : option KnowledgeNode :=
  i ← own o !! "id";
  c ← own o !! "content";
  t ← own o !! "type";
  ty ← (if decide (t = "note") then Some note
        else if decide (t = "url") then Some url else None);
  d ← own o !! "createdAt";
  ks ← JSON.as_strings (keywords_value o);
  Some {| id := i; content := c; type := ty; createdAt := d; keywords := ks |}.

Module Status.
Inductive t := error | success | idle.
End Status.

(** [AddNodeFormState], lines 35-38. *)
Record AddNodeFormState := { status : Status.t; message : string }.

(** The result of [deleteNodeAction] and [editNodeAction]. *)
Record ActionResult := { success : bool; message' : string }.

(** [FormData] with text entries; [get] returns the first entry of a name. *)
Definition FormData_get (name : string) (formData : list (string * string))
  : option string :=
  snd <$> List.find (λ e, bool_decide (e.1 = name)) formData.

(** ** Helper functions *)

(** [parseNode], lines 42-55. *)
Definition parseNode (redisResult : option (gmap string string))
  : option NodeObject :=
  match redisResult with
  | None => None
  | Some fields =>
      if decide (size fields = 0) then None
      else
        let text :=
          match fields !! "keywords" with
          | Some EmptyString | None => "[]"
          | Some k => k
          end in
        match JSON.parse text with
        | Some v => Some {| own := delete "keywords" fields; keywords_value := v |}
        | None => None
        end
  end.

(** The data of a reply to HGETALL. *)
Definition reply_data (r : Redis.Reply) : option (gmap string string) :=
  match r with
  | Redis.Fields fields => Some fields
  | _ => None
  end.

(** The members of a reply to SMEMBERS or SUNION. *)
Definition reply_members (r : Redis.Reply) : list string :=
  match r with
  | Redis.Elements l => l
  | _ => []
  end.

(** The keyword diff of [editNodeAction], lines 173-179. *)
Definition keywordDiff (old new : list string) : list string * list string :=
  let oldKeywords := JS.Set_of old in
  let newKeywords := JS.Set_of new in
  let keywordsToAdd :=
    List.filter (λ kw, negb (JS.Set_has kw oldKeywords)) newKeywords in
  let keywordsToRemove :=
    List.filter (λ kw, negb (JS.Set_has kw newKeywords)) oldKeywords in
  (keywordsToAdd, keywordsToRemove).

(** The query terms of [searchNodes], lines 230-237. *)
Definition searchTerms (query : string) : list string :=
  JS.Set_of
    (List.filter (λ term, (2 <? String.length term)%nat)
       (JS.split_ws (JS.toLowerCase query))).

(** ** Server actions *)

Section Actions.

(** [z.string().uuid()]: the regular expression belongs to the zod release. *)
Variable uuid : string → bool.

(** The message zod gives for a field that is not a string. *)
Variable not_a_string : string.

(** [new Date(s).getTime()]; [None] is [NaN]. *)
Variable getTime : string → option Z.

(** [addNodeSchema], lines 22-24: the content, or the first error of the
    field. *)
Definition addNodeSchema (content : option string) : string + string :=
  match content with
  | None => inl not_a_string
  | Some c =>
      if (3 <=? String.length c)%nat then inr c
      else inl "Content must be at least 3 characters."
  end.

(** [editNodeSchema], lines 26-29. *)
Definition editNodeSchema (nodeId content : option string)
  : option (string * string) :=
  match nodeId, content with
  | Some i, Some c =>
      if uuid i && (3 <=? String.length c)%nat then Some (i, c) else None
  | _, _ => None
  end.

(** [deleteNodeSchema], lines 31-33. *)
Definition deleteNodeSchema (nodeId : option string) : option string :=
  match nodeId with
  | Some i => if uuid i then Some i else None
  | None => None
  end.

(** The comparison function of the two [sort] calls. *)
Definition time_of (o : NodeObject) : option Z :=
  own o !! "createdAt" ≫= getTime.

Definition newest_first (a b : NodeObject) : Z :=
  match time_of b, time_of a with
  | Some tb, Some ta => (tb - ta)%Z
  | _, _ => 0%Z
  end.

(** [Array.prototype.sort] is stable: an element moves behind another only
    when the comparison function is positive on the pair.  With an invalid
    date the comparison function is not an order, and the language leaves
    the result to the implementation; the embedding inserts in the same way
    there. *)
Fixpoint sort_insert (a : NodeObject) (l : list NodeObject) : list NodeObject :=
  match l with
  | [] => [a]
  | b :: l' => if (0 <? newest_first a b)%Z then b :: sort_insert a l'
               else a :: l
  end.

Definition sort (l : list NodeObject) : list NodeObject :=
  foldr sort_insert [] l.

(** The tail shared by [getAllNodes] and [searchNodes]: parse every reply of
    the batch, drop the failures, sort. *)
Definition parse_results (results : list Redis.Reply) : list NodeObject :=
  sort
    (omap (λ r, match r with
                | Redis.Error => None
                | data => parseNode (reply_data data)
                end) results).

(** [addNodeAction], lines 72-118. *)
Definition addNodeAction (nodeId now : string) (prevState : AddNodeFormState)
  (formData : list (string * string)) (w : World) : AddNodeFormState * World :=
  match addNodeSchema (FormData_get "content" formData) with
  | inl first_error =>
      ({| status := Status.error;
          message := match first_error with
                     | EmptyString => "Invalid input."
                     | m => m
                     end |}, w)
  | inr content =>
      let keywords := extractKeywords content in
      let node :=
        {| id := nodeId;
           content := content;
           type := if JS.startsWith "http" content then url else note;
           createdAt := now;
           keywords := keywords |} in
      let pipeline :=
        [Redis.HSET ("node:" +:+ nodeId) (storable node);
         Redis.SADD "nodes" nodeId]
        ++ map (λ keyword, Redis.SADD ("keyword:" +:+ keyword) nodeId) keywords in
      match exec pipeline w with
      | (Some _, w') => ({| status := Status.success; message := "Node added!" |}, w')
      | (None, w') => ({| status := Status.error; message := "Database error." |}, w')
      end
  end.

(** [deleteNodeAction], lines 120-154.  [None]: the record read has keywords
    that are not an array of strings, which the embedding does not follow. *)
Definition deleteNodeAction (formData : list (string * string)) (w : World)
  : option (ActionResult * World) :=
  match deleteNodeSchema (FormData_get "nodeId" formData) with
  | None => Some ({| success := false; message' := "Invalid Node ID." |}, w)
  | Some nodeId =>
      match call (Redis.HGETALL ("node:" +:+ nodeId)) w with
      | (None, w1) =>
          Some ({| success := false; message' := "Database error." |}, w1)
      | (Some nodeData, w1) =>
          match parseNode (reply_data nodeData) with
          | None =>
              Some ({| success := false; message' := "Node not found." |}, w1)
          | Some node =>
              keywords ← JSON.as_strings (keywords_value node);
              let pipeline :=
                [Redis.SREM "nodes" nodeId]
                ++ map (λ keyword, Redis.SREM ("keyword:" +:+ keyword) nodeId)
                     keywords
                ++ [Redis.DEL ("node:" +:+ nodeId)] in
              match exec pipeline w1 with
              | (Some _, w2) =>
                  Some ({| success := true; message' := "Node deleted." |}, w2)
              | (None, w2) =>
                  Some ({| success := false; message' := "Database error." |}, w2)
              end
          end
      end
  end.

(** The batch of [editNodeAction], lines 181-195. *)
Definition edit_pipeline (nodeId content : string) (old : list string)
  : list Redis.Command :=
  let newKeywords := JS.Set_of (extractKeywords content) in
  let '(keywordsToAdd, keywordsToRemove) :=
    keywordDiff old (extractKeywords content) in
  [Redis.HSET ("node:" +:+ nodeId)
     {[ "content" := content; "keywords" := JSON.stringify newKeywords ]}]
  ++ map (λ keyword, Redis.SADD ("keyword:" +:+ keyword) nodeId) keywordsToAdd
  ++ map (λ keyword, Redis.SREM ("keyword:" +:+ keyword) nodeId) keywordsToRemove.

(** [editNodeAction], lines 156-204.  [None] as for [deleteNodeAction]. *)
Definition editNodeAction (formData : list (string * string)) (w : World)
  : option (ActionResult * World) :=
  match editNodeSchema (FormData_get "nodeId" formData)
                       (FormData_get "content" formData) with
  | None => Some ({| success := false; message' := "Invalid data." |}, w)
  | Some (nodeId, content) =>
      match call (Redis.HGETALL ("node:" +:+ nodeId)) w with
      | (None, w1) =>
          Some ({| success := false; message' := "Database error." |}, w1)
      | (Some oldNodeData, w1) =>
          match parseNode (reply_data oldNodeData) with
          | None =>
              Some ({| success := false; message' := "Node not found." |}, w1)
          | Some oldNode =>
              old ← JSON.as_strings (keywords_value oldNode);
              match exec (edit_pipeline nodeId content old) w1 with
              | (Some _, w2) =>
                  Some ({| success := true; message' := "Node updated." |}, w2)
              | (None, w2) =>
                  Some ({| success := false; message' := "Database error." |}, w2)
              end
          end
      end
  end.

(** [getAllNodes], lines 206-226. *)
Definition getAllNodes (w : World) : list NodeObject * World :=
  match call (Redis.SMEMBERS "nodes") w with
  | (None, w1) => ([], w1)
  | (Some reply, w1) =>
      match reply_members reply with
      | [] => ([], w1)
      | nodeIds =>
          match exec (map (λ i, Redis.HGETALL ("node:" +:+ i)) nodeIds) w1 with
          | (Some results, w2) => (parse_results results, w2)
          | (None, w2) => ([], w2)
          end
      end
  end.

(** [searchNodes], lines 228-259. *)
Definition searchNodes (query : string) (w : World) : list NodeObject * World :=
  match JS.trim query with
  | EmptyString => ([], w)
  | _ =>
      match searchTerms query with
      | [] => ([], w)
      | terms =>
          let keywordKeys := map (λ term, "keyword:" +:+ term) terms in
          match call (Redis.SUNION keywordKeys) w with
          | (None, w1) => ([], w1)
          | (Some reply, w1) =>
              match reply_members reply with
              | [] => ([], w1)
              | matchingNodeIds =>
                  match exec (map (λ i, Redis.HGETALL ("node:" +:+ i))
                                matchingNodeIds) w1 with
                  | (Some results, w2) => (parse_results results, w2)
                  | (None, w2) => ([], w2)
                  end
              end
          end
      end
  end.

End Actions.

(** A check of the 8-4-4-4-12 hexadecimal shape, to run the actions with. *)
Definition hex_uuid (s : string) : bool :=
  let is_hex c := bool_decide (is_Some (JSON.hex_val c)) in
  let fix group (n : nat) (s : string) : option string :=
    match n, s with
    | O, _ => Some s
    | S n, String c r => if is_hex c then group n r else None
    | S _, EmptyString => None
    end in
  let dash (s : option string) : option string :=
    match s with
    | Some (String "-"%char r) => Some r
    | _ => None
    end in
  match dash (dash (dash (dash (group 8 s) ≫= group 4) ≫= group 4) ≫= group 4)
        ≫= group 12 with
  | Some EmptyString => true
  | _ => false
  end.

(** Milliseconds of a time stamp made of decimal digits only; anything else
    is an invalid date. *)
Definition digits_time (s : string) : option Z :=
  if JS.test_digits s
  then Some (fold_left (λ acc c, (10 * acc + Z.of_N (JS.code c) - 48)%Z)
                       (list_ascii_of_string s) 0%Z)
  else None.

Definition empty_world : World := {| store := ∅; sent := []; faults := [] |}.

(** ** The tokenizer as the specification words it

    Section 4.1: lower-case the text; split on runs of whitespace; discard
    tokens of length at most 2; discard tokens that are purely numeric; strip
    trailing and leading punctuation characters from each surviving token;
    deduplicate while preserving first-occurrence order; truncate to the
    first 10. *)

Module Spec.

Definition short (token : string) : bool := (String.length token <=? 2)%nat.

Definition numeric (token : string) : bool :=
  match list_ascii_of_string token with
  | [] => false
  | cs => forallb JS.is_digit cs
  end.

Definition punctuation : list ascii := [".";  ","; "!"; "?"]%char.

Fixpoint strip_leading (s : string) : string :=
  match s with
  | String c r => if bool_decide (c ∈ punctuation) then strip_leading r else s
  | EmptyString => EmptyString
  end.

(** Punctuation at the two ends goes, punctuation inside stays. *)
Definition strip_ends (s : string) : string :=
  String.rev (strip_leading (String.rev (strip_leading s))).

(** Every punctuation character goes. *)
Definition strip_all (s : string) : string :=
  string_of_list_ascii
    (List.filter (λ c, negb (bool_decide (c ∈ punctuation)))
       (list_ascii_of_string s)).

(** Deduplication that keeps the first occurrence of every token. *)
Fixpoint dedupe_from (seen tokens : list string) : list string :=
  match tokens with
  | [] => []
  | t :: ts =>
      if bool_decide (t ∈ seen) then dedupe_from seen ts
      else t :: dedupe_from (t :: seen) ts
  end.

Definition dedupe : list string → list string := dedupe_from [].

(** The tokens that survive the two discards, in text order. *)
Definition qualifying (text : string) : list string :=
  List.filter (λ t, negb (numeric t))
    (List.filter (λ t, negb (short t))
       (JS.split_ws (JS.toLowerCase text))).

(** Section 4.1 as stated. *)
Definition tokenize (text : string) : list string :=
  take 10 (dedupe (map strip_ends (qualifying text))).

(** The rule of 4.1 without the cap, as section 4.4 states it for queries. *)
Definition tokenize_uncapped (query : string) : list string :=
  dedupe (map strip_ends (qualifying query)).

(** Section 4.1 with the two steps that the source does otherwise: every
    punctuation character is removed, and the cap comes before the
    deduplication. *)
Definition tokenize_as_built (text : string) : list string :=
  dedupe (take 10 (map strip_all (qualifying text))).

End Spec.

(** ** Data to run the actions on *)

Definition demo_id : string := "123e4567-e89b-12d3-a456-426614174000".

Definition content_form (content : string) : list (string * string) :=
  [("content", content)].

Definition edit_form (nodeId content : string) : list (string * string) :=
  [("nodeId", nodeId); ("content", content)].

Definition idle_state : AddNodeFormState :=
  {| status := Status.idle; message := EmptyString |}.

Definition demo_node : KnowledgeNode :=
  {| id := demo_id; content := "ok. then"; type := note; createdAt := "100";
     keywords := ["ok"; "then"] |}.

(** The world after [addNodeAction] stored the note "ok. then" in an empty
    store. *)
Definition demo_world : World :=
  (addNodeAction "Required" demo_id "100" idle_state
     (content_form "ok. then") empty_world).2.

(** The same world after an update of the note to a text that starts with
    [http]. *)
Definition demo_updated : World :=
  match editNodeAction hex_uuid
          (edit_form demo_id "https://rocq-prover.org then more")
          demo_world with
  | Some (_, w) => w
  | None => demo_world
  end.

(** The same world when the second round trip to come is rejected. *)
Definition demo_outage : World :=
  {| store := store demo_world; sent := []; faults := [None; Some 0] |}.

(** A store that holds a record under a key whose id is not a UUID. *)
Definition stale_world : World :=
  {| store := {[ "node:abc" := Redis.Hash (storable demo_node) ]};
     sent := [];
     faults := [] |}.

(** A store whose record under [demo_id] has keywords that are not JSON. *)
Definition corrupt_world : World :=
  {| store :=
       {[ "node:" +:+ demo_id
            := Redis.Hash {[ "id" := demo_id; "keywords" := "[ok" ]};
          "nodes" := Redis.Members {[ demo_id ]} ]};
     sent := [];
     faults := [] |}.

(** ** The optimistic list of the page

    The reducer given to [useOptimistic] in [src/app/page.tsx], lines
    228-242, on the objects that [getAllNodes] returns.  A node without an
    [id] field has the id [undefined], which differs from every string. *)

Module Optimistic.

Inductive update :=
| add (payload : NodeObject)
| delete (nodeId : string).

Definition reducer (currentState : list NodeObject) (u : update)
  : list NodeObject :=
  match u with
  | add payload => payload :: currentState
  | delete nodeId =>
      List.filter (λ node, bool_decide (own node !! "id" ≠ Some nodeId))
        currentState
  end.

End Optimistic.

(** ** The store as the actions see it *)

(** What a command writes, and where: the value at its key after the command,
    from the value at that key before it. *)
Definition target (c : Redis.Command) : option string :=
  match c with
  | Redis.HSET key _ | Redis.DEL key
  | Redis.SADD key _ | Redis.SREM key _ => Some key
  | Redis.HGETALL _ | Redis.SMEMBERS _ | Redis.SUNION _ => None
  end.

Definition effect (c : Redis.Command) (v : option Redis.Value)
  : option Redis.Value :=
  match c with
  | Redis.HSET _ fields =>
      if decide (fields = ∅) then v
      else
        match v with
        | None => Some (Redis.Hash fields)
        | Some (Redis.Hash h) => Some (Redis.Hash (fields ∪ h))
        | Some (Redis.Members _) => v
        end
  | Redis.DEL _ => None
  | Redis.SADD _ member =>
      match v with
      | None => Some (Redis.Members {[member]})
      | Some (Redis.Members s) => Some (Redis.Members ({[member]} ∪ s))
      | Some (Redis.Hash _) => v
      end
  | Redis.SREM _ member =>
      match v with
      | Some (Redis.Members s) =>
          if decide (member ∈ s) then
            if decide (s ∖ {[member]} = ∅) then None
            else Some (Redis.Members (s ∖ {[member]}))
          else v
      | _ => v
      end
  | _ => v
  end.

(** A value read as a set: nothing is the empty set, a hash is no set. *)
Definition as_set (v : option Redis.Value) : option (gset string) :=
  match v with
  | None => Some ∅
  | Some (Redis.Members s) => Some s
  | Some (Redis.Hash _) => None
  end.

(** The ids of the registry, and those indexed under a keyword. *)
Definition registry (st : gmap string Redis.Value) : gset string :=
  default ∅ (Redis.set_at st "nodes").

Definition index (st : gmap string Redis.Value) (keyword : string)
  : gset string :=
  default ∅ (Redis.set_at st ("keyword:" +:+ keyword)).

(** The node is stored: its record is its hash, under its id. *)
Definition stored (st : gmap string Redis.Value) (node : KnowledgeNode) : Prop :=
  st !! ("node:" +:+ id node) = Some (Redis.Hash (storable node)).

(** The state that the batches of the three writing actions keep: the
    registry and the keyword sets are sets, every record is the hash of a
    node under its own id, the registry holds the ids of the records, and
    the set of a keyword holds the ids of the records with that keyword. *)
Record consistent (st : gmap string Redis.Value) : Prop := {
  registry_is_set : is_Some (Redis.set_at st "nodes");
  index_is_set : ∀ keyword, is_Some (Redis.set_at st ("keyword:" +:+ keyword));
  record_is_node : ∀ i v,
    st !! ("node:" +:+ i) = Some v →
    ∃ node, v = Redis.Hash (storable node) ∧ id node = i;
  registry_records : ∀ i,
    i ∈ registry st ↔ is_Some (st !! ("node:" +:+ i));
  index_records : ∀ keyword i,
    i ∈ index st keyword
    ↔ ∃ node, id node = i ∧ stored st node ∧ keyword ∈ keywords node
}.

(** No key holds an empty set: Redis removes a set with its last member. *)
Definition no_empty_set (st : gmap string Redis.Value) : Prop :=
  ∀ key, st !! key ≠ Some (Redis.Members ∅).

(** The node that [addNodeAction] builds, lines 92-98. *)
Definition new_node (nodeId now content : string) : KnowledgeNode :=
  {| id := nodeId;
     content := content;
     type := if JS.startsWith "http" content then url else note;
     createdAt := now;
     keywords := extractKeywords content |}.

(** The node after an update: content and keywords change, lines 184-187. *)
Definition updated (node : KnowledgeNode) (content' : string) : KnowledgeNode :=
  {| id := id node;
     content := content';
     type := type node;
     createdAt := createdAt node;
     keywords := extractKeywords content' |}.

(** The effect of a command on the value at one key. *)
Definition effect_at (key : string) (v : option Redis.Value) (c : Redis.Command)
  : option Redis.Value :=
  if decide (target c = Some key) then effect c v else v.

(** The batch of [addNodeAction], lines 101-110. *)
Definition add_pipeline (node : KnowledgeNode) : list Redis.Command :=
  [Redis.HSET ("node:" +:+ id node) (storable node);
   Redis.SADD "nodes" (id node)]
  ++ map (λ keyword, Redis.SADD ("keyword:" +:+ keyword) (id node))
       (keywords node).

(** The batch of [deleteNodeAction], lines 137-145. *)
Definition delete_pipeline (nodeId : string) (keywords : list string)
  : list Redis.Command :=
  [Redis.SREM "nodes" nodeId]
  ++ map (λ keyword, Redis.SREM ("keyword:" +:+ keyword) nodeId) keywords
  ++ [Redis.DEL ("node:" +:+ nodeId)].

(** The reply of the batch read for one id, parsed. *)
Definition read_node (st : gmap string Redis.Value) (i : string)
  : option NodeObject :=
  match Redis.hash_at st ("node:" +:+ i) with
  | Some h => parseNode (Some h)
  | None => None
  end.


(** The order of the two [sort] calls, lines 218-221 and 251-254, on nodes
    whose dates are valid: [a] is not older than [b]. *)
Definition not_older (getTime : string → option Z) (a b : NodeObject) : Prop :=
  ∃ ta tb, time_of getTime a = Some ta ∧ time_of getTime b = Some tb
           ∧ (tb ≤ ta)%Z.

(** A second id, and the world after a second note was stored, later than
    the first. *)
Definition second_id : string := "223e4567-e89b-12d3-a456-426614174000".

Definition demo_pair : World :=
  (addNodeAction "Required" second_id "200" idle_state
     (content_form "and then more") demo_world).2.

Definition delete_form (nodeId : string) : list (string * string) :=
  [("nodeId", nodeId)].

(** The worlds that the five actions reach from the empty store, with the
    backend answering; [uuidv4] is taken to give an id that has no record
    yet. *)
Inductive reachable (uuid : string → bool) (not_a_string : string)
  (getTime : string → option Z) : World → Prop :=
| reach_empty : reachable uuid not_a_string getTime empty_world
| reach_add w nodeId now prevState formData :
    reachable uuid not_a_string getTime w →
    store w !! ("node:" +:+ nodeId) = None →
    reachable uuid not_a_string getTime
      (addNodeAction not_a_string nodeId now prevState formData w).2
| reach_delete w formData r w' :
    reachable uuid not_a_string getTime w →
    deleteNodeAction uuid formData w = Some (r, w') →
    reachable uuid not_a_string getTime w'
| reach_edit w formData r w' :
    reachable uuid not_a_string getTime w →
    editNodeAction uuid formData w = Some (r, w') →
    reachable uuid not_a_string getTime w'
| reach_list w :
    reachable uuid not_a_string getTime w →
    reachable uuid not_a_string getTime (getAllNodes getTime w).2
| reach_search w query :
    reachable uuid not_a_string getTime w →
    reachable uuid not_a_string getTime (searchNodes getTime query w).2.

(** What holds of every such world: the store is consistent and holds no
    empty set, the keywords of every stored node are those of its content,
    and no failure is scheduled. *)
Record invariant (w : World) : Prop := {
  inv_consistent : consistent (store w);
  inv_no_empty_set : no_empty_set (store w);
  inv_keywords : ∀ node, stored (store w) node →
    keywords node = extractKeywords (content node);
  inv_faults : faults w = []
}.

(** * Properties *)

(** ** Sets as ordered lists *)

Section SetFacts.

Implicit Types (a acc : list string) (x : string).

Lemma Set_has_true x acc : JS.Set_has x acc = true ↔ x ∈ acc.
Proof. unfold JS.Set_has. apply bool_decide_eq_true. Qed.

Lemma Set_add_elem x y acc : x ∈ JS.Set_add acc y ↔ x ∈ acc ∨ x = y.
Proof.
  unfold JS.Set_add, JS.Set_has. case_bool_decide.
  - split; [auto | intros [?| ->]; auto].
  - rewrite elem_of_app, list_elem_of_singleton. tauto.
Qed.

Lemma Set_add_NoDup y acc : NoDup acc → NoDup (JS.Set_add acc y).
Proof.
  intros Hnd. unfold JS.Set_add, JS.Set_has. case_bool_decide; [done|].
  apply NoDup_app. split_and!; [done| |apply NoDup_singleton].
  intros x Hx ->%list_elem_of_singleton. done.
Qed.

Lemma fold_Set_add_elem x a acc :
  x ∈ fold_left JS.Set_add a acc ↔ x ∈ acc ∨ x ∈ a.
Proof.
  revert acc. induction a as [|y a IH]; intros acc; simpl.
  - rewrite elem_of_nil. tauto.
  - rewrite IH, Set_add_elem, elem_of_cons. tauto.
Qed.

Lemma fold_Set_add_NoDup a acc :
  NoDup acc → NoDup (fold_left JS.Set_add a acc).
Proof.
  revert acc. induction a as [|y a IH]; intros acc Hnd; simpl; [done|].
  apply IH, Set_add_NoDup, Hnd.
Qed.

Lemma Set_of_elem x a : x ∈ JS.Set_of a ↔ x ∈ a.
Proof.
  unfold JS.Set_of. rewrite fold_Set_add_elem, elem_of_nil. tauto.
Qed.

Lemma Set_of_NoDup a : NoDup (JS.Set_of a).
Proof. apply fold_Set_add_NoDup, NoDup_nil_2. Qed.

(** A set built from an array is the array with every repetition of an
    earlier element dropped. *)
Lemma fold_Set_add_dedupe a acc seen :
  (∀ x, x ∈ seen ↔ x ∈ acc) →
  fold_left JS.Set_add a acc = acc ++ Spec.dedupe_from seen a.
Proof.
  revert acc seen. induction a as [|y a IH]; intros acc seen Hs; simpl.
  - by rewrite app_nil_r.
  - unfold JS.Set_add at 2. unfold JS.Set_has.
    destruct (decide (y ∈ acc)) as [Hy|Hy].
    + rewrite bool_decide_eq_true_2 by done.
      rewrite bool_decide_eq_true_2 by (by apply Hs). by apply IH.
    + rewrite bool_decide_eq_false_2 by done.
      rewrite bool_decide_eq_false_2 by (by rewrite Hs).
      rewrite (IH (acc ++ [y]) (y :: seen)).
      * by rewrite <- app_assoc.
      * intros x. rewrite elem_of_cons, elem_of_app, list_elem_of_singleton, Hs.
        tauto.
Qed.

Lemma Set_of_dedupe a : JS.Set_of a = Spec.dedupe a.
Proof. unfold JS.Set_of, Spec.dedupe. by rewrite (fold_Set_add_dedupe a [] []). Qed.

Lemma dedupe_from_sublist seen a : Spec.dedupe_from seen a `sublist_of` a.
Proof.
  revert seen. induction a as [|y a IH]; intros seen; simpl; [done|].
  case_bool_decide; [apply sublist_cons | apply sublist_skip]; apply IH.
Qed.

Lemma Set_of_sublist a : JS.Set_of a `sublist_of` a.
Proof. rewrite Set_of_dedupe. apply dedupe_from_sublist. Qed.

Lemma dedupe_from_NoDup_id seen a :
  NoDup a → (∀ x, x ∈ a → x ∉ seen) → Spec.dedupe_from seen a = a.
Proof.
  revert seen. induction a as [|y a IH]; intros seen Hnd Hs; simpl; [done|].
  apply NoDup_cons in Hnd as [Hy Hnd].
  rewrite bool_decide_eq_false_2 by (apply Hs; left).
  f_equal. apply IH; [done|].
  intros x Hx [->|Hin]%elem_of_cons; [done|].
  by apply (Hs x); [right|].
Qed.

(** [new Set] leaves an array without repetitions as it is. *)
Lemma Set_of_NoDup_id a : NoDup a → JS.Set_of a = a.
Proof.
  intros Hnd. rewrite Set_of_dedupe. apply dedupe_from_NoDup_id; [done|].
  intros x _. apply not_elem_of_nil.
Qed.

End SetFacts.

(** ** The tokenizer *)

Lemma sall_forallb p s : JS.sall p s = forallb p (list_ascii_of_string s).
Proof. induction s as [|c s IH]; simpl; [done|]. by rewrite IH. Qed.

Lemma test_digits_numeric s : JS.test_digits s = Spec.numeric s.
Proof. destruct s as [|c s]; [done|]. unfold JS.test_digits. apply sall_forallb. Qed.

Lemma is_punct_punctuation c :
  JS.is_punct c = bool_decide (c ∈ Spec.punctuation).
Proof. by destruct c as [[] [] [] [] [] [] [] []]. Qed.

Lemma replace_punct_strip_all s : JS.replace_punct s = Spec.strip_all s.
Proof.
  unfold JS.replace_punct, Spec.strip_all.
  induction s as [|c s IH]; simpl; [done|].
  rewrite is_punct_punctuation, IH. by case_bool_decide.
Qed.

Lemma filter_and {A} (p q : A → bool) l :
  List.filter (λ x, p x && q x) l = List.filter q (List.filter p l).
Proof.
  induction l as [|x l IH]; simpl; [done|].
  destruct (p x); simpl; [destruct (q x)|]; by rewrite IH.
Qed.

(** The words the source keeps are the qualifying tokens of section 4.1. *)
Lemma kept_words_qualifying text :
  List.filter
    (λ word, (2 <? String.length word)%nat && negb (JS.test_digits word))
    (JS.split_ws (JS.toLowerCase text)) = Spec.qualifying text.
Proof.
  unfold Spec.qualifying. rewrite <- filter_and.
  apply List.filter_ext. intros w. rewrite test_digits_numeric. f_equal.
  unfold Spec.short. destruct (Nat.ltb_spec 2 (String.length w));
    destruct (Nat.leb_spec (String.length w) 2); simpl; lia || done.
Qed.

(** [extractKeywords] is the set made of the first 10 qualifying tokens,
    each with all its punctuation removed. *)
Lemma extractKeywords_Set_of text :
  extractKeywords text
  = JS.Set_of (take 10 (map Spec.strip_all (Spec.qualifying text))).
Proof.
  unfold extractKeywords. rewrite kept_words_qualifying.
  do 2 f_equal. apply map_ext. intros t. apply replace_punct_strip_all.
Qed.

(** C3, as amended: [extractKeywords] is the algorithm of section 4.1 with
    every punctuation character removed from each surviving token (not only
    at its ends) and with the cut to 10 tokens made before the
    deduplication: its result is the distinct tokens among the first 10
    qualifying ones, in first-occurrence order. *)
Theorem extractKeywords_as_built text :
  extractKeywords text = Spec.tokenize_as_built text.
Proof.
  rewrite extractKeywords_Set_of. unfold Spec.tokenize_as_built.
  apply Set_of_dedupe.
Qed.

(** C3, as stated, fails twice: punctuation inside a token is removed too,
    and a repetition among the first 10 tokens costs a later token its
    place. *)
Lemma extractKeywords_not_section_4_1 :
  extractKeywords "example.com" ≠ Spec.tokenize "example.com"
  ∧ extractKeywords "aaa aaa bbb ccc ddd eee fff ggg hhh iii jjj kkk"
    ≠ Spec.tokenize "aaa aaa bbb ccc ddd eee fff ggg hhh iii jjj kkk".
Proof. split; vm_compute; discriminate. Qed.

Example extractKeywords_inner_punctuation :
  extractKeywords "example.com" = ["examplecom"]
  ∧ Spec.tokenize "example.com" = ["example.com"].
Proof. split; reflexivity. Qed.

Example extractKeywords_cut_then_dedupe :
  let text := "aaa aaa bbb ccc ddd eee fff ggg hhh iii jjj kkk" in
  extractKeywords text
    = ["aaa"; "bbb"; "ccc"; "ddd"; "eee"; "fff"; "ggg"; "hhh"; "iii"]
  ∧ Spec.tokenize text
    = ["aaa"; "bbb"; "ccc"; "ddd"; "eee"; "fff"; "ggg"; "hhh"; "iii"; "jjj"].
Proof. split; reflexivity. Qed.

(** C2: the words are tested for length and for digits before their
    punctuation is removed, so a keyword can come out with at most two
    characters, empty, or purely numeric. *)
Theorem extractKeywords_short_and_numeric :
  extractKeywords "ok. 2024. ..." = ["ok"; "2024"; EmptyString]
  ∧ String.length "ok" = 2
  ∧ JS.test_digits "2024" = true.
Proof. repeat split; reflexivity. Qed.

(** The parts of C2 that hold for every text: no repetition, at most 10
    entries, and the order of first occurrence in the text. *)
Lemma extractKeywords_set_of_first_ten text :
  NoDup (extractKeywords text)
  ∧ length (extractKeywords text) ≤ 10
  ∧ extractKeywords text `sublist_of` map Spec.strip_all (Spec.qualifying text)
  ∧ ∀ k, k ∈ extractKeywords text
         ↔ k ∈ take 10 (map Spec.strip_all (Spec.qualifying text)).
Proof.
  rewrite extractKeywords_Set_of. split_and!.
  - apply Set_of_NoDup.
  - etrans; [apply sublist_length, Set_of_sublist|]. rewrite length_take. lia.
  - etrans; [apply Set_of_sublist|]. apply sublist_take.
  - intros k. apply Set_of_elem.
Qed.

(** C4: the query terms of [searchNodes] keep punctuation and purely numeric
    tokens, which the tokenizer rule (and [extractKeywords]) does not; a note
    indexed under "databases" is not found by the query "databases!". *)
Theorem searchTerms_not_tokenizer_rule :
  searchTerms "databases!" = ["databases!"]
  ∧ Spec.tokenize_uncapped "databases!" = ["databases"]
  ∧ extractKeywords "databases!" = ["databases"]
  ∧ searchTerms "2024" = ["2024"]
  ∧ Spec.tokenize_uncapped "2024" = []
  ∧ let w := (addNodeAction "Required" demo_id "100" idle_state
                (content_form "fast databases!") empty_world).2 in
    (searchNodes digits_time "databases!" w).1 = []
    ∧ length (searchNodes digits_time "databases" w).1 = 1.
Proof. repeat split; vm_compute; reflexivity. Qed.

(** ** The keyword diff *)

(** C7: [keywordsToAdd] is the new set minus the old one, [keywordsToRemove]
    the old set minus the new one, both without repetition; a set diffed
    against itself gives two empty lists, and the batch of an update that
    leaves the keywords as they are holds the HSET alone. *)
Theorem keywordDiff_set_difference (old new S : list string)
  (nodeId content : string) :
  list_to_set (keywordDiff old new).1
    =@{gset string} list_to_set new ∖ list_to_set old
  ∧ list_to_set (keywordDiff old new).2
    =@{gset string} list_to_set old ∖ list_to_set new
  ∧ NoDup (keywordDiff old new).1
  ∧ NoDup (keywordDiff old new).2
  ∧ keywordDiff S S = ([], [])
  ∧ edit_pipeline nodeId content (extractKeywords content)
    = [Redis.HSET ("node:" +:+ nodeId)
         {[ "content" := content;
            "keywords" := JSON.stringify (extractKeywords content) ]}].
Proof.
  assert (Hdiff : ∀ a b x,
    x ∈ List.filter (λ kw, negb (JS.Set_has kw (JS.Set_of a))) (JS.Set_of b)
    ↔ x ∈ b ∧ x ∉ a).
  { intros a b x. rewrite list_elem_of_In, filter_In, <- list_elem_of_In.
    rewrite Set_of_elem, negb_true_iff, <- not_true_iff_false, Set_has_true.
    by rewrite Set_of_elem. }
  assert (Hself : ∀ a,
    List.filter (λ kw, negb (JS.Set_has kw (JS.Set_of a))) (JS.Set_of a) = []).
  { intros a. apply elem_of_nil_inv. intros x [? ?]%Hdiff. done. }
  unfold keywordDiff, edit_pipeline, keywordDiff; simpl. split_and!.
  - apply set_eq. intros x.
    rewrite elem_of_list_to_set, Hdiff, elem_of_difference.
    by rewrite !elem_of_list_to_set.
  - apply set_eq. intros x.
    rewrite elem_of_list_to_set, Hdiff, elem_of_difference.
    by rewrite !elem_of_list_to_set.
  - apply NoDup_ListNoDup, List.NoDup_filter, NoDup_ListNoDup, Set_of_NoDup.
  - apply NoDup_ListNoDup, List.NoDup_filter, NoDup_ListNoDup, Set_of_NoDup.
  - by rewrite Hself.
  - rewrite Hself. simpl.
    by rewrite Set_of_NoDup_id by apply extractKeywords_set_of_first_ten.
Qed.

(** ** JSON: what is written is read back *)

Section JSONFacts.

Local Arguments String.append : simpl nomatch.

Lemma append_assoc (a b c : string) : (a +:+ b) +:+ c = a +:+ (b +:+ c).
Proof. induction a as [|x a IH]; simpl; [done|]. by rewrite IH. Qed.

Lemma length_append (a b : string) :
  String.length (a +:+ b) = String.length a + String.length b.
Proof. induction a as [|x a IH]; simpl; [done|]. by rewrite IH. Qed.

Lemma string_body_quote_unit c rest :
  JSON.string_body (JSON.quote_unit c +:+ rest)
  = JSON.push (N_of_ascii c) (JSON.string_body rest).
Proof. by destruct c as [[] [] [] [] [] [] [] []]. Qed.

Lemma string_body_quote_units k rest :
  JSON.string_body (JSON.quote_units k +:+ String JSON.dquote rest)
  = Some (JSON.units k, rest).
Proof.
  induction k as [|c k IH]; [done|].
  cbn [JSON.quote_units]. rewrite append_assoc, string_body_quote_unit, IH.
  done.
Qed.

Lemma element_S fuel r :
  JSON.element (S fuel) (String JSON.dquote r)
  = '(us, rest) ← JSON.string_body r; Some (JSON.Str us, rest).
Proof. done. Qed.

Lemma element_quote fuel k rest :
  JSON.element (S fuel) (JSON.quote k +:+ rest)
  = Some (JSON.Str (JSON.units k), rest).
Proof.
  unfold JSON.quote. cbn [String.append]. rewrite element_S.
  rewrite append_assoc. cbn [String.append].
  by rewrite string_body_quote_units.
Qed.

Lemma join_quoted_cons k ks :
  ∃ r, JSON.join_quoted (k :: ks) = String JSON.dquote r.
Proof. destruct ks; simpl; eauto. Qed.

Lemma skip_ws_join_quoted k ks rest :
  JSON.skip_ws (JSON.join_quoted (k :: ks) +:+ rest)
  = JSON.join_quoted (k :: ks) +:+ rest.
Proof. destruct (join_quoted_cons k ks) as [r ->]. done. Qed.

Lemma elements_S fuel s :
  JSON.elements (S fuel) s
  = '(v, r) ← JSON.element fuel s;
    match JSON.skip_ws r with
    | String c r' =>
        if (JS.code c =? 44)%N then
          '(vs, rest) ← JSON.elements fuel (JSON.skip_ws r'); Some (v :: vs, rest)
        else if (JS.code c =? 93)%N then Some ([v], r')
        else None
    | EmptyString => None
    end.
Proof. done. Qed.

Lemma elements_join_quoted ks : ∀ k fuel rest,
  length ks + 2 ≤ fuel →
  JSON.elements fuel (JSON.join_quoted (k :: ks) +:+ String "]" rest)
  = Some (map (λ k, JSON.Str (JSON.units k)) (k :: ks), rest).
Proof.
  induction ks as [|k' ks IH]; intros k fuel rest Hfuel.
  - destruct fuel as [|[|fuel]]; [simpl in Hfuel; lia..|].
    rewrite elements_S. cbn [JSON.join_quoted]. by rewrite element_quote.
  - destruct fuel as [|[|fuel]]; [simpl in Hfuel; lia..|].
    rewrite elements_S.
    change (JSON.join_quoted (k :: k' :: ks))
      with (JSON.quote k +:+ String "," (JSON.join_quoted (k' :: ks))).
    rewrite append_assoc, element_quote. cbn [mbind option_bind String.append].
    change (JSON.skip_ws (String "," ?r)) with (String "," r).
    cbn [JSON.skip_ws]. change (JS.code "," =? 44)%N with true. cbv iota.
    rewrite skip_ws_join_quoted, IH by (simpl in Hfuel |- *; lia). done.
Qed.

Lemma length_join_quoted ks : length ks ≤ String.length (JSON.join_quoted ks).
Proof.
  induction ks as [|k [|k' ks] IH]; [done|simpl; lia|].
  change (JSON.join_quoted (k :: k' :: ks))
    with (JSON.quote k +:+ String "," (JSON.join_quoted (k' :: ks))).
  rewrite length_append. simpl in IH |- *. lia.
Qed.

(** [JSON.parse(JSON.stringify(a))] is [a], for every array of strings. *)
Lemma parse_stringify ks : JSON.parse (JSON.stringify ks) = Some (JSON.of_strings ks).
Proof.
  unfold JSON.parse, JSON.stringify.
  change (JSON.skip_ws (String "[" ?r)) with (String "[" r).
  set (fuel := 2 * _ + 2).
  assert (length ks + 3 ≤ fuel) as Hfuel.
  { subst fuel. cbn [String.length]. rewrite length_append.
    pose proof (length_join_quoted ks). lia. }
  destruct fuel as [|fuel]; [lia|]. destruct ks as [|k ks]; [done|].
  cbn [JSON.element]. change (JS.code "[") with 91%N. cbv iota.
  rewrite skip_ws_join_quoted.
  destruct (join_quoted_cons k ks) as [r Hr]. rewrite Hr at 1.
  cbn [String.append]. change (JS.code JSON.dquote =? 93)%N with false.
  cbv iota.
  rewrite elements_join_quoted by (simpl in Hfuel |- *; lia). done.
Qed.

Lemma latin1_units k : JSON.latin1 (JSON.units k) = Some k.
Proof.
  induction k as [|c k IH]; [done|].
  unfold JSON.units in *. cbn [list_ascii_of_string map JSON.latin1].
  destruct (N.ltb_spec (N_of_ascii c) 256) as [_|Hge].
  - by rewrite IH, ascii_N_embedding.
  - pose proof (N_ascii_bounded c). lia.
Qed.

Lemma as_strings_of_strings ks : JSON.as_strings (JSON.of_strings ks) = Some ks.
Proof.
  unfold JSON.as_strings, JSON.of_strings.
  induction ks as [|k ks IH]; [done|].
  cbn [map mapM]. rewrite IH. cbn [JSON.as_string]. by rewrite latin1_units.
Qed.

End JSONFacts.

(** ** JSON: the fuel of the parser *)

Section Fuel.

Implicit Types (s r rest : string) (c : ascii).

Lemma skip_ws_length s : String.length (JSON.skip_ws s) ≤ String.length s.
Proof.
  induction s as [|c s IH]; [done|]. cbn [JSON.skip_ws].
  destruct (JSON.is_ws c); simpl; lia.
Qed.

Lemma digits_length s ds rest :
  JSON.digits s = (ds, rest) → String.length rest ≤ String.length s.
Proof.
  revert ds rest. induction s as [|c s IH]; intros ds rest; cbn [JSON.digits].
  - by intros [= <- <-].
  - destruct (JS.is_digit c); [|intros [= <- <-]; simpl; lia].
    destruct (JSON.digits s) as [ds' rest'] eqn:Hd. intros [= <- <-].
    specialize (IH _ _ eq_refl). simpl. lia.
Qed.

Lemma number_shorter s lit rest :
  JSON.number s = Some (lit, rest) → String.length rest < String.length s.
Proof.
  unfold JSON.number.
  set (signed := match s with String c r => _ | EmptyString => _ end).
  assert (String.length signed.2 ≤ String.length s) as Hsign.
  { subst signed. destruct s as [|c r]; [done|].
    destruct (JS.code c =? 45)%N; simpl; lia. }
  destruct signed as [sign s0]. cbn [snd] in Hsign.
  destruct (JSON.number_int s0) as [[i s1]|] eqn:Hint; [|done].
  assert (String.length s1 < String.length s0) as H1.
  { unfold JSON.number_int in Hint. destruct s0 as [|c r]; [done|].
    destruct (JS.code c =? 48)%N; [simplify_eq/=; lia|].
    destruct (JS.is_digit c); [|done].
    destruct (JSON.digits r) as [ds r'] eqn:Hd. apply digits_length in Hd.
    simplify_eq/=. lia. }
  cbn [mbind option_bind].
  destruct (JSON.number_frac s1) as [[f s2]|] eqn:Hfrac; [|done].
  assert (String.length s2 ≤ String.length s1) as H2.
  { unfold JSON.number_frac in Hfrac. destruct s1 as [|c r]; [by simplify_eq/=|].
    destruct (JS.code c =? 46)%N; [|by simplify_eq/=].
    destruct (JSON.digits r) as [ds r'] eqn:Hd. apply digits_length in Hd.
    destruct ds; simplify_eq/=. lia. }
  cbn [mbind option_bind].
  destruct (JSON.number_exp s2) as [[e s3]|] eqn:Hexp; [|done].
  assert (String.length s3 ≤ String.length s2) as H3.
  { unfold JSON.number_exp in Hexp. destruct s2 as [|c r]; [by simplify_eq/=|].
    destruct (_ || _); [|by simplify_eq/=].
    set (sg := match r with String g r1 => _ | EmptyString => _ end) in Hexp.
    assert (String.length sg.2 ≤ String.length r) as Hsg.
    { subst sg. destruct r as [|g r1]; [done|].
      destruct (_ || _); simpl; lia. }
    destruct sg as [sg0 r1]. cbn [snd] in Hsg.
    destruct (JSON.digits r1) as [ds r'] eqn:Hd. apply digits_length in Hd.
    destruct ds; simplify_eq/=. lia. }
  cbn [mbind option_bind]. intros [= <- <-]. lia.
Qed.

Lemma strip_prefix_length p s rest :
  JSON.strip_prefix p s = Some rest →
  String.length s = String.length p + String.length rest.
Proof.
  revert s. induction p as [|a p IH]; intros s; cbn [JSON.strip_prefix].
  - by intros [= ->].
  - destruct s as [|b s]; [done|]. destruct (Ascii.eqb a b); [|done].
    intros H%IH. simpl. lia.
Qed.

Lemma push_shorter n x us rest k :
  JSON.push n x = Some (us, rest) →
  (∀ us' rest', x = Some (us', rest') → String.length rest' < k) →
  String.length rest < k.
Proof. destruct x as [[us' rest']|]; [|done]. intros [= <- <-] H. eauto. Qed.

Lemma string_body_unfold c r :
  JSON.string_body (String c r)
  = let n := JS.code c in
    if (n =? 34)%N then Some ([], r)
    else if (n =? 92)%N then
      match r with
      | String e r1 =>
          let m := JS.code e in
          if (m =? 34)%N then JSON.push 34 (JSON.string_body r1)
          else if (m =? 92)%N then JSON.push 92 (JSON.string_body r1)
          else if (m =? 47)%N then JSON.push 47 (JSON.string_body r1)
          else if (m =? 98)%N then JSON.push 8 (JSON.string_body r1)
          else if (m =? 102)%N then JSON.push 12 (JSON.string_body r1)
          else if (m =? 110)%N then JSON.push 10 (JSON.string_body r1)
          else if (m =? 114)%N then JSON.push 13 (JSON.string_body r1)
          else if (m =? 116)%N then JSON.push 9 (JSON.string_body r1)
          else if (m =? 117)%N then
            match r1 with
            | String h1 (String h2 (String h3 (String h4 r2))) =>
                match JSON.hex_val h1, JSON.hex_val h2,
                      JSON.hex_val h3, JSON.hex_val h4 with
                | Some a, Some b, Some c, Some d =>
                    JSON.push (4096 * a + 256 * b + 16 * c + d)
                      (JSON.string_body r2)
                | _, _, _, _ => None
                end
            | _ => None
            end
          else None
      | EmptyString => None
      end
    else if (n <? 32)%N then None
    else JSON.push n (JSON.string_body r).
Proof.
  destruct c as [[] [] [] [] [] [] [] []]; try reflexivity.
  destruct r as [|e r1]; [reflexivity|].
  destruct e as [[] [] [] [] [] [] [] []]; reflexivity.
Qed.

Lemma string_body_shorter_below n : ∀ s us rest,
  String.length s ≤ n →
  JSON.string_body s = Some (us, rest) → String.length rest < String.length s.
Proof.
  induction n as [|n IH]; intros s us rest Hn; destruct s as [|c r]; try done.
  { simpl in Hn. lia. }
  simpl in Hn. rewrite string_body_unfold. cbv zeta.
  assert (Hpush : ∀ m r', String.length r' ≤ String.length r →
            JSON.push m (JSON.string_body r') = Some (us, rest) →
            String.length rest < String.length (String c r)).
  { intros m r' Hr' Hm. eapply push_shorter; [exact Hm|].
    intros us' rest' H'. apply IH in H'; simpl; lia. }
  repeat case_match; try done; try (apply Hpush; simpl; lia).
  intros [= <- <-]. simpl. lia.
Qed.

Lemma string_body_shorter s us rest :
  JSON.string_body s = Some (us, rest) → String.length rest < String.length s.
Proof. by apply (string_body_shorter_below (String.length s)). Qed.

Lemma element_unfold fuel c r :
  JSON.element (S fuel) (String c r)
  = let n := JS.code c in
    if (n =? 34)%N then
      '(us, rest) ← JSON.string_body r; Some (JSON.Str us, rest)
    else if (n =? 91)%N then
      match JSON.skip_ws r with
      | String c' r' =>
          if (JS.code c' =? 93)%N then Some (JSON.Arr [], r')
          else '(vs, rest) ← JSON.elements fuel (JSON.skip_ws r);
               Some (JSON.Arr vs, rest)
      | EmptyString => None
      end
    else if (n =? 123)%N then
      match JSON.skip_ws r with
      | String c' r' =>
          if (JS.code c' =? 125)%N then Some (JSON.Obj [], r')
          else '(ms, rest) ← JSON.members fuel (JSON.skip_ws r);
               Some (JSON.Obj ms, rest)
      | EmptyString => None
      end
    else if (n =? 110)%N then
      rest ← JSON.strip_prefix "null" (String c r); Some (JSON.Null, rest)
    else if (n =? 116)%N then
      rest ← JSON.strip_prefix "true" (String c r); Some (JSON.Bool true, rest)
    else if (n =? 102)%N then
      rest ← JSON.strip_prefix "false" (String c r); Some (JSON.Bool false, rest)
    else '(lit, rest) ← JSON.number (String c r); Some (JSON.Num lit, rest).
Proof. by destruct c as [[] [] [] [] [] [] [] []]. Qed.

Lemma members_S fuel s :
  JSON.members (S fuel) s
  = match s with
    | String q r =>
        if (JS.code q =? 34)%N then
          '(key, r1) ← JSON.string_body r;
          match JSON.skip_ws r1 with
          | String colon r2 =>
              if (JS.code colon =? 58)%N then
                '(v, r3) ← JSON.element fuel (JSON.skip_ws r2);
                match JSON.skip_ws r3 with
                | String c r4 =>
                    if (JS.code c =? 44)%N then
                      '(ms, rest) ← JSON.members fuel (JSON.skip_ws r4);
                      Some ((key, v) :: ms, rest)
                    else if (JS.code c =? 125)%N then Some ([(key, v)], r4)
                    else None
                | EmptyString => None
                end
              else None
          | EmptyString => None
          end
        else None
    | EmptyString => None
    end.
Proof. done. Qed.

Local Ltac bind_case H :=
  match type of H with
  | context [mbind _ ?x] =>
      let E := fresh "E" in
      destruct x as [[? ?]|] eqn:E; cbn [mbind option_bind] in H;
      [|discriminate H]
  | context [mbind _ ?x] =>
      let E := fresh "E" in
      destruct x as [?|] eqn:E; cbn [mbind option_bind] in H;
      [|discriminate H]
  end.

Local Ltac if_case H :=
  match type of H with
  | (if ?b then _ else _) = _ => destruct b
  end.

Local Ltac skip_case H r :=
  let c := fresh "c" in let r' := fresh "r" in let E := fresh "E" in
  pose proof (skip_ws_length r);
  destruct (JSON.skip_ws r) as [|c r'] eqn:E; [discriminate H|].

(** Every parser consumes input. *)
Lemma parsers_shorter fuel :
  (∀ s v rest, JSON.element fuel s = Some (v, rest) →
               String.length rest < String.length s)
  ∧ (∀ s vs rest, JSON.elements fuel s = Some (vs, rest) →
                  String.length rest < String.length s)
  ∧ (∀ s ms rest, JSON.members fuel s = Some (ms, rest) →
                  String.length rest < String.length s).
Proof.
  induction fuel as [|fuel (IHe & IHes & IHms)]; [done|]. split_and!.
  - intros [|c r] v rest H; [done|]. rewrite element_unfold in H. cbv zeta in H.
    if_case H; [|if_case H; [|if_case H; [|if_case H; [|if_case H; [|if_case H]]]]].
    + bind_case H. apply string_body_shorter in E. simplify_eq/=. lia.
    + skip_case H r. simpl in *. if_case H; [simplify_eq/=; lia|].
      bind_case H. apply IHes in E0. simplify_eq/=. lia.
    + skip_case H r. simpl in *. if_case H; [simplify_eq/=; lia|].
      bind_case H. apply IHms in E0. simplify_eq/=. lia.
    + bind_case H. apply strip_prefix_length in E. simplify_eq/=. lia.
    + bind_case H. apply strip_prefix_length in E. simplify_eq/=. lia.
    + bind_case H. apply strip_prefix_length in E. simplify_eq/=. lia.
    + bind_case H. apply number_shorter in E. simplify_eq/=. lia.
  - intros s vs rest H. rewrite elements_S in H.
    bind_case H. apply IHe in E. skip_case H s0. simpl in *.
    if_case H; [|if_case H; [|done]].
    + bind_case H. apply IHes in E1. pose proof (skip_ws_length r).
      simplify_eq/=. lia.
    + simplify_eq/=. lia.
  - intros s ms rest H. rewrite members_S in H.
    destruct s as [|q r]; [done|]. if_case H; [|done].
    bind_case H. apply string_body_shorter in E. skip_case H s.
    if_case H; [|done]. bind_case H. apply IHe in E1.
    pose proof (skip_ws_length r0). skip_case H s0. simpl in *.
    if_case H; [|if_case H; [|done]].
    + bind_case H. apply IHms in E3. pose proof (skip_ws_length r1).
      simplify_eq/=. lia.
    + simplify_eq/=. lia.
Qed.

(** Past twice the length of the input, fuel makes no difference. *)
Lemma parsers_fuel fuel :
  (∀ fuel' s, 2 * String.length s + 1 ≤ fuel → 2 * String.length s + 1 ≤ fuel' →
              JSON.element fuel s = JSON.element fuel' s)
  ∧ (∀ fuel' s, 2 * String.length s + 2 ≤ fuel → 2 * String.length s + 2 ≤ fuel' →
                JSON.elements fuel s = JSON.elements fuel' s)
  ∧ (∀ fuel' s, 2 * String.length s + 2 ≤ fuel → 2 * String.length s + 2 ≤ fuel' →
                JSON.members fuel s = JSON.members fuel' s).
Proof.
  induction fuel as [|fuel (IHe & IHes & IHms)]; [split_and!; intros; lia|].
  split_and!; intros [|fuel'] s Hfuel Hfuel'; try lia.
  - destruct s as [|c r]; [done|]. rewrite !element_unfold. cbv zeta.
    pose proof (skip_ws_length r). simpl in Hfuel, Hfuel'.
    rewrite (IHes fuel' (JSON.skip_ws r)) by lia.
    by rewrite (IHms fuel' (JSON.skip_ws r)) by lia.
  - rewrite !elements_S. rewrite (IHe fuel' s) by lia.
    destruct (JSON.element fuel' s) as [[v r]|] eqn:E; [|done].
    cbn [mbind option_bind]. apply (parsers_shorter fuel') in E.
    pose proof (skip_ws_length r).
    destruct (JSON.skip_ws r) as [|c r']; [done|]. simpl in *.
    pose proof (skip_ws_length r').
    by rewrite (IHes fuel' (JSON.skip_ws r')) by lia.
  - rewrite !members_S. destruct s as [|q r]; [done|].
    destruct (JS.code q =? 34)%N; [|done].
    destruct (JSON.string_body r) as [[key r1]|] eqn:E; [|done].
    cbn [mbind option_bind]. apply string_body_shorter in E.
    pose proof (skip_ws_length r1).
    destruct (JSON.skip_ws r1) as [|colon r2]; [done|].
    destruct (JS.code colon =? 58)%N; [|done]. simpl in *.
    pose proof (skip_ws_length r2).
    rewrite (IHe fuel' (JSON.skip_ws r2)) by lia.
    destruct (JSON.element fuel' _) as [[v r3]|] eqn:E3; [|done].
    cbn [mbind option_bind]. apply (parsers_shorter fuel') in E3.
    pose proof (skip_ws_length r3).
    destruct (JSON.skip_ws r3) as [|c r4]; [done|]. simpl in *.
    pose proof (skip_ws_length r4).
    by rewrite (IHms fuel' (JSON.skip_ws r4)) by lia.
Qed.

(** The fuel of [JSON.parse] is enough for every text: more of it gives
    the same result, so [None] is a syntax error. *)
Lemma parse_fuel text fuel :
  2 * String.length text + 2 ≤ fuel →
  JSON.element fuel (JSON.skip_ws text)
  = JSON.element (2 * String.length text + 2) (JSON.skip_ws text).
Proof.
  intros Hfuel. pose proof (skip_ws_length text).
  apply (parsers_fuel fuel); lia.
Qed.

End Fuel.


(** ** The node repository *)

Lemma parseNode_storable_object (n : KnowledgeNode) :
  parseNode (Some (storable n)) = Some (object_of n).
Proof.
  unfold parseNode, storable, object_of.
  destruct (decide _) as [Hsize|_].
  { apply map_size_empty_iff in Hsize. by apply insert_non_empty in Hsize. }
  rewrite !lookup_insert_ne, lookup_singleton_eq by done.
  change (match JSON.stringify (keywords n) with
          | EmptyString => _
          | String _ _ => ?k
          end) with k.
  rewrite parse_stringify.
  rewrite !delete_insert_ne, delete_singleton_eq by done.
  by rewrite insert_empty.
Qed.

Lemma as_node_object_of (n : KnowledgeNode) : as_node (object_of n) = Some n.
Proof.
  unfold as_node, object_of; cbn [own keywords_value].
  set (m := insert _ _ _).
  assert (m !! "id" = Some (id n)) as -> by (subst m; by simplify_map_eq).
  assert (m !! "content" = Some (content n)) as ->
    by (subst m; by simplify_map_eq).
  assert (m !! "type" = Some (type_name (type n))) as ->
    by (subst m; by simplify_map_eq).
  assert (m !! "createdAt" = Some (createdAt n)) as ->
    by (subst m; by simplify_map_eq).
  rewrite as_strings_of_strings. by destruct n as [i c [] d ks].
Qed.

(** C8: a node written as the fields of a hash and read back by
    [parseNode] is the same node in its five fields. *)
Theorem parseNode_storable (n : KnowledgeNode) :
  parseNode (Some (storable n)) = Some (object_of n)
  ∧ as_node (object_of n) = Some n
  ∧ parseNode (Some (storable n)) ≫= as_node = Some n.
Proof.
  split_and!.
  - apply parseNode_storable_object.
  - apply as_node_object_of.
  - rewrite parseNode_storable_object. apply as_node_object_of.
Qed.

(** ** Round trips *)

Section RoundTrips.

Implicit Types (w : World) (c : Redis.Command) (st : gmap string Redis.Value).

Lemma round_trip_sent cs w : sent (round_trip cs w).2 = sent w ++ cs.
Proof.
  unfold round_trip. destruct (head (faults w)) as [[n|]|];
    [done|by destruct (Redis.run_all cs (store w))..].
Qed.

Lemma round_trip_faults cs w : faults (round_trip cs w).2 = tail (faults w).
Proof.
  unfold round_trip. destruct (head (faults w)) as [[n|]|];
    [done|by destruct (Redis.run_all cs (store w))..].
Qed.

Lemma round_trip_rejects cs w n :
  head (faults w) = Some (Some n) → (round_trip cs w).1 = None.
Proof. unfold round_trip. by intros ->. Qed.

(** A round trip that resolves ran the whole batch. *)
Lemma round_trip_resolves cs w rs w' :
  round_trip cs w = (Some rs, w') →
  Redis.run_all cs (store w) = (rs, store w').
Proof.
  unfold round_trip. destruct (head (faults w)) as [[n|]|]; [done| |];
    destruct (Redis.run_all cs (store w)) as [rs' st]; by intros [= <- <-].
Qed.

Lemma call_faults c w : faults (call c w).2 = tail (faults w).
Proof.
  unfold call. pose proof (round_trip_faults [c] w) as H.
  destruct (round_trip [c] w) as [[[|r [|? ?]]|] w']; done.
Qed.

Lemma call_rejects c w n : head (faults w) = Some (Some n) → (call c w).1 = None.
Proof.
  intros H. unfold call. pose proof (round_trip_rejects [c] w n H) as Hr.
  destruct (round_trip [c] w) as [[rs|] w']; done.
Qed.

Lemma take_one {A} n (x : A) : take n [x] = [] ∨ take n [x] = [x].
Proof. destruct n as [|[|n]]; auto. Qed.

(** The read of a record: the reply is the hash at the key, the store is as
    it was, and the read is the one command sent. *)
Lemma call_HGETALL key w :
  call (Redis.HGETALL key) w
  = (match head (faults w) with
     | Some (Some _) => None
     | _ => Redis.Fields <$> Redis.hash_at (store w) key
     end,
     {| store := store w;
        sent := sent w ++ [Redis.HGETALL key];
        faults := tail (faults w) |}).
Proof.
  unfold call, round_trip.
  destruct (head (faults w)) as [[n|]|]; cbn [Redis.run_all Redis.run].
  - destruct (take_one n (Redis.HGETALL key)) as [-> | ->];
      cbn [Redis.run_all Redis.run]; [done|].
    by destruct (Redis.hash_at (store w) key).
  - by destruct (Redis.hash_at (store w) key).
  - by destruct (Redis.hash_at (store w) key).
Qed.

Lemma parseNode_empty : parseNode (Some ∅) = None.
Proof. done. Qed.

(** A record that parses is a hash with at least one field. *)
Lemma parseNode_Some_hash st key fields o :
  Redis.hash_at st key = Some fields →
  parseNode (Some fields) = Some o →
  st !! key = Some (Redis.Hash fields).
Proof.
  unfold Redis.hash_at. destruct (st !! key) as [[h|s]|]; intros [= <-]; [done|].
  by rewrite parseNode_empty.
Qed.

Lemma node_key_not_keyword nodeId keyword :
  "node:" +:+ nodeId ≠ "keyword:" +:+ keyword.
Proof. intros H. discriminate H. Qed.

Lemma run_index_command c st key :
  index_command c → (∀ keyword, key ≠ "keyword:" +:+ keyword) →
  (Redis.run c st).2 !! key = st !! key.
Proof.
  intros Hc Hkey. destruct c as [| | |k m|k m| |]; try done;
    destruct Hc as [kw ->]; cbn [Redis.run];
    destruct (st !! _) as [[h|s]|]; try done; cbn [snd].
  - by rewrite lookup_insert_ne.
  - by rewrite lookup_insert_ne.
  - repeat case_decide; cbn [snd]; try done.
    + by rewrite lookup_delete_ne.
    + by rewrite lookup_insert_ne.
Qed.

Lemma run_all_index_commands cs st key :
  Forall index_command cs → (∀ keyword, key ≠ "keyword:" +:+ keyword) →
  (Redis.run_all cs st).2 !! key = st !! key.
Proof.
  intros Hcs Hkey. revert st. induction Hcs as [|c cs Hc _ IH]; intros st; [done|].
  cbn [Redis.run_all]. pose proof (run_index_command c st key Hc Hkey) as H1.
  destruct (Redis.run c st) as [r st1]. specialize (IH st1).
  destruct (Redis.run_all cs st1) as [rs st2]. cbn [snd] in *. congruence.
Qed.

Lemma run_all_cons c cs st :
  (Redis.run_all (c :: cs) st).2 = (Redis.run_all cs (Redis.run c st).2).2.
Proof.
  cbn [Redis.run_all]. destruct (Redis.run c st) as [r st1]. cbn [snd].
  by destruct (Redis.run_all cs st1).
Qed.

End RoundTrips.

(** ** The server actions *)

Lemma call_let_through c w :
  (∀ n, head (faults w) ≠ Some (Some n)) →
  call c w
  = (match (Redis.run c (store w)).1 with
     | Redis.Error => None
     | r => Some r
     end,
     {| store := (Redis.run c (store w)).2;
        sent := sent w ++ [c];
        faults := tail (faults w) |}).
Proof.
  intros Hok. unfold call, round_trip.
  destruct (head (faults w)) as [[n|]|]; [by destruct (Hok n)| |];
    cbn [Redis.run_all]; by destruct (Redis.run c (store w)) as [[] st].
Qed.

Lemma mapM_set_at_empty keys :
  mapM (Redis.set_at ∅) keys = Some (map (λ _, ∅) keys).
Proof.
  induction keys as [|k l IH]; [done|]. cbn [mapM map]. rewrite IH. reflexivity.
Qed.

Lemma union_list_empty (keys : list string) :
  ⋃ map (λ _, ∅) keys =@{gset string} ∅.
Proof.
  induction keys as [|k l IH]; [done|].
  cbn [map union_list foldr]. fold (union_list (map (λ _ : string, ∅ : gset string) l)).
  rewrite IH. apply (left_id_L ∅ (∪)).
Qed.

Lemma SUNION_empty_store key keys :
  Redis.run (Redis.SUNION (key :: keys)) ∅ = (Redis.Elements [], ∅).
Proof.
  cbn [Redis.run].
  by rewrite mapM_set_at_empty, union_list_empty, elements_empty.
Qed.

Section ActionFacts.

Variable uuid : string → bool.
Variable getTime : string → option Z.

Implicit Types (w : World) (formData : list (string * string)).

(** C10: an id that is missing or is not a UUID stops [deleteNodeAction] and
    [editNodeAction] at validation: the failure is returned and the world is
    as it was, with no command sent, whatever the store holds under that
    id. *)
Theorem invalid_id_sends_nothing formData w :
  (∀ nodeId, FormData_get "nodeId" formData = Some nodeId → uuid nodeId = false) →
  deleteNodeAction uuid formData w
    = Some ({| success := false; message' := "Invalid Node ID." |}, w)
  ∧ editNodeAction uuid formData w
    = Some ({| success := false; message' := "Invalid data." |}, w).
Proof.
  intros Hid. unfold deleteNodeAction, editNodeAction.
  unfold deleteNodeSchema, editNodeSchema.
  destruct (FormData_get "nodeId" formData) as [nodeId|]; [|done].
  rewrite (Hid nodeId eq_refl).
  by destruct (FormData_get "content" formData).
Qed.

(** C6: when the record of a valid id is missing or does not parse,
    [deleteNodeAction] fails, the read is the only command sent and the
    store is as it was; when the read came through, the failure is
    "Node not found.". *)
Theorem deleteNodeAction_not_found formData w nodeId :
  FormData_get "nodeId" formData = Some nodeId →
  uuid nodeId = true →
  (store w !! ("node:" +:+ nodeId) = None
   ∨ ∃ fields, store w !! ("node:" +:+ nodeId) = Some (Redis.Hash fields)
               ∧ parseNode (Some fields) = None) →
  ∃ r, deleteNodeAction uuid formData w
       = Some (r, {| store := store w;
                     sent := sent w ++ [Redis.HGETALL ("node:" +:+ nodeId)];
                     faults := tail (faults w) |})
       ∧ success r = false
       ∧ ((∀ n, head (faults w) ≠ Some (Some n)) →
          message' r = "Node not found.").
Proof.
  intros Hget Hid Hrecord. unfold deleteNodeAction, deleteNodeSchema.
  rewrite Hget, Hid, call_HGETALL.
  assert (∃ fields, Redis.hash_at (store w) ("node:" +:+ nodeId) = Some fields
                    ∧ parseNode (Some fields) = None) as (fields & -> & Hparse).
  { unfold Redis.hash_at. destruct Hrecord as [-> | (fields & -> & Hparse)]; eauto. }
  destruct (head (faults w)) as [[n|]|] eqn:Hfault; cbn [fmap option_fmap option_map reply_data].
  - eexists. split_and!; [done..|]. intros Hn. by destruct (Hn n).
  - rewrite Hparse. eexists. split_and!; done.
  - rewrite Hparse. eexists. split_and!; done.
Qed.

(** C9: when a round trip of [getAllNodes] or [searchNodes] is rejected, be
    it the first (the registry read, the union) or the second (the batch
    read), the action returns the empty list, which is also what it returns
    on an empty store. *)
Theorem reads_swallow_failures query w i n :
  i < 2 → faults w !! i = Some (Some n) →
  (getAllNodes getTime w).1 = []
  ∧ (searchNodes getTime query w).1 = []
  ∧ (getAllNodes getTime empty_world).1 = []
  ∧ (searchNodes getTime query empty_world).1 = [].
Proof.
  intros Hi Hfault.
  assert (Hsecond : ∀ c cs, (call c w).1 ≠ None →
            (exec cs (call c w).2).1 = None).
  { intros c cs Hfirst. unfold exec. destruct i as [|[|i]]; [| |lia].
    - destruct Hfirst. apply (call_rejects c w n).
      by destruct (faults w).
    - apply (round_trip_rejects _ _ n). rewrite call_faults.
      by destruct (faults w) as [|f [|f' fs]]; simplify_eq/=. }
  split_and!.
  - unfold getAllNodes.
    pose proof (Hsecond (Redis.SMEMBERS "nodes")) as H2.
    destruct (call _ w) as [[reply|] w1]; [|done].
    destruct (reply_members reply) as [|i0 ids]; [done|].
    specialize (H2 (map (λ i, Redis.HGETALL ("node:" +:+ i)) (i0 :: ids))).
    cbn [fst snd] in H2.
    destruct (exec _ w1) as [[results|] w2]; [|done].
    by discriminate H2.
  - unfold searchNodes. destruct (JS.trim query); [done|].
    destruct (searchTerms query) as [|t ts]; [done|].
    pose proof (Hsecond
      (Redis.SUNION (map (λ term, "keyword:" +:+ term) (t :: ts)))) as H2.
    destruct (call _ w) as [[reply|] w1]; [|done].
    destruct (reply_members reply) as [|i0 ids]; [done|].
    specialize (H2 (map (λ i, Redis.HGETALL ("node:" +:+ i)) (i0 :: ids))).
    cbn [fst snd] in H2.
    destruct (exec _ w1) as [[results|] w2]; [|done].
    by discriminate H2.
  - done.
  - unfold searchNodes. destruct (JS.trim query); [done|].
    destruct (searchTerms query) as [|t ts]; [done|].
    cbn [map]. rewrite call_let_through by done.
    cbn [store empty_world]. by rewrite SUNION_empty_store.
Qed.

(** The same holds when the registry key holds a hash: the read is refused
    with a type error and [getAllNodes] returns the empty list. *)
Lemma getAllNodes_wrong_type w fields :
  store w !! "nodes" = Some (Redis.Hash fields) →
  (getAllNodes getTime w).1 = [].
Proof.
  intros Hnodes. unfold getAllNodes.
  assert ((call (Redis.SMEMBERS "nodes") w).1 = None) as Hcall.
  { unfold call, round_trip.
    destruct (head (faults w)) as [[n|]|]; [done|..];
      cbn [Redis.run_all Redis.run]; unfold Redis.set_at; by rewrite Hnodes. }
  by destruct (call _ w) as [[reply|] w1]; simplify_eq/=.
Qed.

Lemma edit_pipeline_shape nodeId content old :
  ∃ cs, edit_pipeline nodeId content old
        = Redis.HSET ("node:" +:+ nodeId)
            {[ "content" := content;
               "keywords" := JSON.stringify (extractKeywords content) ]} :: cs
        ∧ Forall index_command cs.
Proof.
  unfold edit_pipeline. destruct (keywordDiff _ _) as [toAdd toRemove].
  rewrite Set_of_NoDup_id by apply extractKeywords_set_of_first_ten.
  eexists. split; [done|].
  apply Forall_app. split; apply Forall_forall; intros c;
    rewrite list_elem_of_fmap; intros (k & -> & _); by exists k.
Qed.

(** What a successful update did: it read a record that parses, and ran its
    whole batch on the store. *)
Lemma editNodeAction_success formData w r w' :
  editNodeAction uuid formData w = Some (r, w') →
  success r = true →
  ∃ nodeId content before old,
    FormData_get "nodeId" formData = Some nodeId
    ∧ FormData_get "content" formData = Some content
    ∧ store w !! ("node:" +:+ nodeId) = Some (Redis.Hash before)
    ∧ store w' = (Redis.run_all (edit_pipeline nodeId content old) (store w)).2.
Proof.
  unfold editNodeAction, editNodeSchema. intros Hrun Hok.
  destruct (FormData_get "nodeId" formData) as [nodeId|]; [|by simplify_eq/=].
  destruct (FormData_get "content" formData) as [content|]; [|by simplify_eq/=].
  destruct (uuid nodeId && _); [|by simplify_eq/=].
  rewrite call_HGETALL in Hrun.
  set (w1 := {| store := store w; sent := _; faults := _ |}) in Hrun.
  assert (∃ before o old,
    Redis.hash_at (store w) ("node:" +:+ nodeId) = Some before
    ∧ parseNode (Some before) = Some o
    ∧ exec (edit_pipeline nodeId content old) w1
      = (Some (Redis.run_all (edit_pipeline nodeId content old) (store w)).1, w'))
    as (before & o & old & Hat & Hparse & Hexec).
  { destruct (head (faults w)) as [[n|]|]; [by simplify_eq/=|..];
      (destruct (Redis.hash_at (store w) _) as [before|];
         cbn [fmap option_fmap option_map reply_data] in Hrun;
         [|by simplify_eq/=];
       destruct (parseNode (Some before)) as [o|] eqn:Hparse;
         [|by simplify_eq/=];
       destruct (JSON.as_strings _) as [old|]; [|done];
       cbn [mbind option_bind] in Hrun;
       destruct (exec _ w1) as [[rs|] w2] eqn:Hexec; [|by simplify_eq/=];
       exists before, o, old; split_and!; [done..|];
       apply round_trip_resolves in Hexec as Hall; cbn [store w1] in Hall;
       rewrite Hall; by simplify_eq/=). }
  exists nodeId, content, before, old. split_and!; [done..| |].
  - by eapply parseNode_Some_hash.
  - apply round_trip_resolves in Hexec. cbn [store w1] in Hexec.
    by rewrite Hexec.
Qed.

(** C5: an update that succeeds writes the new content and the keywords of
    the new content into the hash of the node and leaves every other field
    of that hash, [id], [createdAt] and [type] among them, as it was; outside
    the keyword index no other key of the store changes. *)
Theorem editNodeAction_frame formData w r w' :
  editNodeAction uuid formData w = Some (r, w') →
  success r = true →
  ∃ nodeId content before after,
    FormData_get "nodeId" formData = Some nodeId
    ∧ FormData_get "content" formData = Some content
    ∧ store w !! ("node:" +:+ nodeId) = Some (Redis.Hash before)
    ∧ store w' !! ("node:" +:+ nodeId) = Some (Redis.Hash after)
    ∧ after !! "content" = Some content
    ∧ after !! "keywords" = Some (JSON.stringify (extractKeywords content))
    ∧ after !! "id" = before !! "id"
    ∧ after !! "createdAt" = before !! "createdAt"
    ∧ after !! "type" = before !! "type"
    ∧ (∀ field, field ≠ "content" → field ≠ "keywords" →
                after !! field = before !! field)
    ∧ ∀ key, key ≠ "node:" +:+ nodeId →
             (∀ keyword, key ≠ "keyword:" +:+ keyword) →
             store w' !! key = store w !! key.
Proof.
  intros Hrun Hok.
  destruct (editNodeAction_success _ _ _ _ Hrun Hok)
    as (nodeId & content & before & old & Hid & Hcontent & Hbefore & ->).
  destruct (edit_pipeline_shape nodeId content old) as (cs & -> & Hcs).
  set (written := {[ "content" := content;
                     "keywords" := JSON.stringify (extractKeywords content) ]}).
  exists nodeId, content, before, (written ∪ before).
  assert (Hother : ∀ field, field ≠ "content" → field ≠ "keywords" →
            (written ∪ before) !! field = before !! field).
  { intros field H1 H2. apply lookup_union_r. subst written.
    by rewrite lookup_insert_ne, lookup_singleton_ne. }
  assert (Hset : (Redis.run (Redis.HSET ("node:" +:+ nodeId) written) (store w)).2
                 = <["node:" +:+ nodeId := Redis.Hash (written ∪ before)]> (store w)).
  { cbn [Redis.run]. rewrite Hbefore.
    destruct (decide (written = ∅)) as [Hempty|_]; [|done].
    subst written. by apply insert_non_empty in Hempty. }
  split_and!;
    [done..| | | |by apply Hother|by apply Hother|by apply Hother|done|].
  - rewrite run_all_cons, run_all_index_commands;
      [|done|apply node_key_not_keyword].
    by rewrite Hset, lookup_insert_eq.
  - apply lookup_union_Some_l. subst written. by rewrite lookup_insert_eq.
  - apply lookup_union_Some_l. subst written.
    by rewrite lookup_insert_ne, lookup_singleton_eq.
  - intros key Hnode Hkeyword.
    rewrite run_all_cons, run_all_index_commands by done.
    by rewrite Hset, lookup_insert_ne.
Qed.

End ActionFacts.

(** ** Keywords as query terms *)

Section KeywordFacts.

Implicit Types (s k : string) (p : ascii → bool).

Lemma sall_split_ws p s :
  JS.sall p s = true → Forall (λ piece, JS.sall p piece = true) (JS.split_ws s).
Proof.
  induction s as [|c r IH]; cbn [JS.split_ws JS.sall].
  - by constructor.
  - intros [Hc Hr]%andb_true_iff. specialize (IH Hr).
    destruct (JS.is_space c).
    + destruct r as [|c' r']; [by repeat constructor|].
      destruct (JS.is_space c'); [done|by constructor].
    + destruct (JS.split_ws r) as [|piece pieces].
      { repeat constructor. cbn [JS.sall]. by rewrite Hc. }
      apply Forall_cons in IH as [Hp Hps]. constructor; [|done].
      cbn [JS.sall]. by rewrite Hc, Hp.
Qed.

(** No piece of a split holds white space. *)
Lemma split_ws_no_space s :
  Forall (λ piece, JS.sall (λ c, negb (JS.is_space c)) piece = true)
         (JS.split_ws s).
Proof.
  induction s as [|c r IH]; cbn [JS.split_ws].
  - by constructor.
  - destruct (JS.is_space c) eqn:Hc.
    + destruct r as [|c' r']; [by repeat constructor|].
      destruct (JS.is_space c'); [done|by constructor].
    + destruct (JS.split_ws r) as [|piece pieces]; [|].
      { repeat constructor. cbn [JS.sall]. by rewrite Hc. }
      apply Forall_cons in IH as [Hp Hps]. constructor; [|done].
      cbn [JS.sall]. by rewrite Hc, Hp.
Qed.

Lemma sall_sfilter p q s : JS.sall p s = true → JS.sall p (JS.sfilter q s) = true.
Proof.
  induction s as [|c r IH]; [done|]. cbn [JS.sall JS.sfilter].
  intros [Hc Hr]%andb_true_iff. destruct (q c); [|by apply IH].
  cbn [JS.sall]. by rewrite Hc, IH.
Qed.

Lemma lower_lower_case c : JS.lower_case (JS.lower c) = true.
Proof. by destruct c as [[] [] [] [] [] [] [] []]. Qed.

Lemma toLowerCase_lower_case s : JS.sall JS.lower_case (JS.toLowerCase s) = true.
Proof.
  induction s as [|c r IH]; [done|].
  cbn [JS.toLowerCase JS.smap JS.sall]. fold (JS.toLowerCase r).
  by rewrite lower_lower_case, IH.
Qed.

Lemma toLowerCase_fixed s : JS.sall JS.lower_case s = true → JS.toLowerCase s = s.
Proof.
  induction s as [|c r IH]; [done|]. cbn [JS.sall JS.toLowerCase JS.smap].
  intros [Hc Hr]%andb_true_iff. apply Ascii.eqb_eq in Hc.
  fold (JS.toLowerCase r). by rewrite Hc, IH.
Qed.

Lemma split_ws_one s :
  JS.sall (λ c, negb (JS.is_space c)) s = true → JS.split_ws s = [s].
Proof.
  induction s as [|c r IH]; [done|]. cbn [JS.sall JS.split_ws].
  intros [Hc Hr]%andb_true_iff. apply negb_true_iff in Hc.
  by rewrite Hc, IH.
Qed.

Lemma trimStart_no_space c r :
  JS.is_space c = false → JS.trimStart (String c r) = String c r.
Proof. intros H. cbn [JS.trimStart]. by rewrite H. Qed.

Lemma length_rev_app a b :
  String.length (String.rev_app a b) = String.length a + String.length b.
Proof.
  revert b. induction a as [|c a IH]; intros b; [done|].
  cbn [String.rev_app]. rewrite IH. simpl. lia.
Qed.

Lemma sall_rev_app p a b :
  JS.sall p a = true → JS.sall p b = true → JS.sall p (String.rev_app a b) = true.
Proof.
  revert b. induction a as [|c a IH]; intros b; [done|]. cbn [JS.sall String.rev_app].
  intros [Hc Ha]%andb_true_iff Hb. apply IH; [done|].
  cbn [JS.sall]. by rewrite Hc, Hb.
Qed.

Lemma trimStart_all_no_space s :
  JS.sall (λ c, negb (JS.is_space c)) s = true → JS.trimStart s = s.
Proof.
  destruct s as [|c r]; [done|]. cbn [JS.sall].
  intros [Hc _]%andb_true_iff. apply negb_true_iff in Hc.
  by apply trimStart_no_space.
Qed.

(** A text without white space is its own trimmed form up to two reversals;
    in particular it stays as long as it was. *)
Lemma length_trim_no_space s :
  JS.sall (λ c, negb (JS.is_space c)) s = true →
  String.length (JS.trim s) = String.length s.
Proof.
  intros Hs. unfold JS.trim, String.rev.
  rewrite (trimStart_all_no_space s Hs).
  rewrite (trimStart_all_no_space (String.rev_app s EmptyString))
    by (by apply sall_rev_app).
  rewrite !length_rev_app. simpl. lia.
Qed.

(** What [extractKeywords] returns is lower-case and free of white space. *)
Lemma extractKeywords_term content k :
  k ∈ extractKeywords content →
  JS.sall (λ c, negb (JS.is_space c)) k = true ∧ JS.sall JS.lower_case k = true.
Proof.
  unfold extractKeywords. rewrite Set_of_elem.
  intros Hk%(subseteq_take 10). apply list_elem_of_fmap in Hk as (word & -> & Hword).
  apply list_elem_of_In, filter_In in Hword as [Hword%list_elem_of_In _].
  unfold JS.replace_punct. split; apply sall_sfilter.
  - pose proof (split_ws_no_space (JS.toLowerCase content)) as H.
    by eapply Forall_forall in H.
  - pose proof (sall_split_ws JS.lower_case _ (toLowerCase_lower_case content)) as H.
    by eapply Forall_forall in H.
Qed.

(** A keyword of more than two characters is the one term of the query made
    of it. *)
Lemma searchTerms_keyword content k :
  k ∈ extractKeywords content → 2 < String.length k →
  searchTerms k = [k] ∧ JS.trim k ≠ EmptyString.
Proof.
  intros [Hspace Hlower]%extractKeywords_term Hlen. split.
  - unfold searchTerms. rewrite toLowerCase_fixed, split_ws_one by done.
    cbn [List.filter]. by destruct (Nat.ltb_spec 2 (String.length k)); [|lia].
  - intros Htrim. pose proof (length_trim_no_space k Hspace) as H.
    rewrite Htrim in H. simpl in H. lia.
Qed.

End KeywordFacts.

(** ** A created node is found under its keywords *)

Section CreateThenSearch.

Variable not_a_string : string.
Variable getTime : string → option Z.

Implicit Types (w : World) (st : gmap string Redis.Value) (k nodeId key : string).

Lemma round_trip_let_through cs w :
  (∀ n, head (faults w) ≠ Some (Some n)) →
  round_trip cs w
  = (Some (Redis.run_all cs (store w)).1,
     {| store := (Redis.run_all cs (store w)).2;
        sent := sent w ++ cs;
        faults := tail (faults w) |}).
Proof.
  intros Hok. unfold round_trip.
  destruct (head (faults w)) as [[n|]|]; [by destruct (Hok n)| |];
    by destruct (Redis.run_all cs (store w)).
Qed.

Lemma run_SADD_other st key member key' :
  key ≠ key' → (Redis.run (Redis.SADD key member) st).2 !! key' = st !! key'.
Proof.
  intros Hne. cbn [Redis.run]. destruct (st !! key) as [[h|s]|]; cbn [snd];
    by rewrite ?lookup_insert_ne.
Qed.

(** Adding [member] anywhere keeps it where it is. *)
Lemma run_SADD_keeps st key member key' :
  (∃ s, st !! key' = Some (Redis.Members s) ∧ member ∈ s) →
  ∃ s, (Redis.run (Redis.SADD key member) st).2 !! key' = Some (Redis.Members s)
       ∧ member ∈ s.
Proof.
  intros (s & Hs & Hin). destruct (decide (key = key')) as [->|Hne].
  - cbn [Redis.run]. rewrite Hs. cbn [snd]. rewrite lookup_insert_eq.
    eexists. split; [done|]. set_solver.
  - rewrite run_SADD_other by done. eauto.
Qed.

Lemma run_SADD_no_hash st key member key' :
  Redis.set_at st key' ≠ None →
  Redis.set_at (Redis.run (Redis.SADD key member) st).2 key' ≠ None.
Proof.
  unfold Redis.set_at. destruct (decide (key = key')) as [->|Hne].
  - cbn [Redis.run]. destruct (st !! key') as [[h|s]|]; [done|..]; cbn [snd];
      by rewrite lookup_insert_eq.
  - by rewrite run_SADD_other.
Qed.

Lemma run_SADD_adds st key member :
  Redis.set_at st key ≠ None →
  ∃ s, (Redis.run (Redis.SADD key member) st).2 !! key = Some (Redis.Members s)
       ∧ member ∈ s.
Proof.
  unfold Redis.set_at. cbn [Redis.run].
  destruct (st !! key) as [[h|s]|]; [done|..]; intros _; cbn [snd];
    rewrite lookup_insert_eq; eexists; (split; [done|set_solver]).
Qed.

Lemma run_all_SADD_keeps (keys : list string) member key' : ∀ st,
  (∃ s, st !! key' = Some (Redis.Members s) ∧ member ∈ s) →
  ∃ s, (Redis.run_all (map (λ key, Redis.SADD key member) keys) st).2 !! key'
       = Some (Redis.Members s) ∧ member ∈ s.
Proof.
  induction keys as [|key keys IH]; intros st H; [done|].
  cbn [map]. rewrite run_all_cons. by apply IH, run_SADD_keeps.
Qed.

(** The index commands of a create batch leave the node id in the set of
    every keyword. *)
Lemma run_all_SADD_adds (keys : list string) member key' : ∀ st,
  key' ∈ keys → Redis.set_at st key' ≠ None →
  ∃ s, (Redis.run_all (map (λ key, Redis.SADD key member) keys) st).2 !! key'
       = Some (Redis.Members s) ∧ member ∈ s.
Proof.
  induction keys as [|key keys IH]; intros st Hin Hst.
  { by apply elem_of_nil in Hin. }
  cbn [map]. rewrite run_all_cons.
  apply elem_of_cons in Hin as [->|Hin].
  - by apply run_all_SADD_keeps, run_SADD_adds.
  - by apply IH, run_SADD_no_hash.
Qed.

Lemma run_all_HGETALL (f : string → string) ids st :
  Redis.run_all (map (λ i, Redis.HGETALL (f i)) ids) st
  = (map (λ i, match Redis.hash_at st (f i) with
               | Some h => Redis.Fields h
               | None => Redis.Error
               end) ids, st).
Proof.
  induction ids as [|i ids IH]; [done|]. cbn [map Redis.run_all Redis.run].
  destruct (Redis.hash_at st (f i)); by rewrite IH.
Qed.

Lemma sort_insert_elem (x a : NodeObject) l :
  x ∈ sort_insert getTime a l ↔ x = a ∨ x ∈ l.
Proof.
  induction l as [|b l IH]; cbn [sort_insert].
  - rewrite list_elem_of_singleton, elem_of_nil. tauto.
  - destruct (0 <? _)%Z; rewrite !elem_of_cons, ?IH, ?elem_of_cons; tauto.
Qed.

(** Sorting moves the nodes and neither drops nor adds one. *)
Lemma sort_elem (x : NodeObject) l : x ∈ sort getTime l ↔ x ∈ l.
Proof.
  unfold sort. induction l as [|a l IH]; [done|].
  cbn [foldr]. rewrite sort_insert_elem, IH, elem_of_cons. tauto.
Qed.

Lemma nodes_key_not_keyword keyword : "nodes" ≠ "keyword:" +:+ keyword.
Proof. intros H. discriminate H. Qed.

Lemma nodes_key_not_node nodeId : "nodes" ≠ "node:" +:+ nodeId.
Proof. intros H. discriminate H. Qed.

(** The store after a create batch that ran in full: the record of the node
    is its hash, and every keyword set holds its id. *)
Lemma create_batch_store (node : KnowledgeNode) st k :
  st !! ("node:" +:+ id node) = None →
  Redis.set_at st ("keyword:" +:+ k) ≠ None →
  k ∈ keywords node →
  let st' :=
    (Redis.run_all
       ([Redis.HSET ("node:" +:+ id node) (storable node);
         Redis.SADD "nodes" (id node)]
        ++ map (λ keyword, Redis.SADD ("keyword:" +:+ keyword) (id node))
             (keywords node)) st).2 in
  st' !! ("node:" +:+ id node) = Some (Redis.Hash (storable node))
  ∧ ∃ s, st' !! ("keyword:" +:+ k) = Some (Redis.Members s) ∧ id node ∈ s.
Proof.
  intros Hfresh Hindex Hk. cbn [app]. rewrite !run_all_cons.
  set (st1 := (Redis.run (Redis.HSET _ _) st).2).
  assert (st1 = <["node:" +:+ id node := Redis.Hash (storable node)]> st) as Hst1.
  { subst st1. cbn [Redis.run]. rewrite Hfresh.
    destruct (decide (storable node = ∅)) as [Hempty|_]; [|done].
    unfold storable in Hempty. by apply insert_non_empty in Hempty. }
  set (st2 := (Redis.run (Redis.SADD "nodes" (id node)) st1).2).
  assert (st2 !! ("node:" +:+ id node) = Some (Redis.Hash (storable node))) as Hnode.
  { subst st2. rewrite run_SADD_other by apply nodes_key_not_node.
    by rewrite Hst1, lookup_insert_eq. }
  assert (Redis.set_at st2 ("keyword:" +:+ k) ≠ None) as Hindex2.
  { subst st2. apply run_SADD_no_hash. unfold Redis.set_at in *.
    by rewrite Hst1, lookup_insert_ne by apply node_key_not_keyword. }
  split.
  - rewrite run_all_index_commands; [done| |apply node_key_not_keyword].
    apply Forall_forall. intros c (kw & -> & _)%list_elem_of_fmap. by exists kw.
  - rewrite <- (map_map (λ keyword, "keyword:" +:+ keyword)
                        (λ key, Redis.SADD key (id node))).
    apply run_all_SADD_adds; [|done]. by apply list_elem_of_fmap_2.
Qed.

Lemma SUNION_one st key s :
  st !! key = Some (Redis.Members s) →
  Redis.run (Redis.SUNION [key]) st = (Redis.Elements (elements (s ∪ ∅)), st).
Proof. intros H. cbn [Redis.run mapM]. unfold Redis.set_at. by rewrite H. Qed.

(** Supplement to C1: after a create that went through on a store where the
    id is new, a query made of one keyword of more than two characters
    returns the created node, as long as its round trips are let through. *)
Theorem search_finds_keyword_over_two_characters
    nodeId now prevState content w k :
  3 ≤ String.length content →
  (∀ i n, i < 3 → faults w !! i ≠ Some (Some n)) →
  store w !! ("node:" +:+ nodeId) = None →
  Redis.set_at (store w) ("keyword:" +:+ k) ≠ None →
  k ∈ extractKeywords content →
  2 < String.length k →
  let created :=
    addNodeAction not_a_string nodeId now prevState (content_form content) w in
  created.1 = {| status := Status.success; message := "Node added!" |}
  ∧ object_of {| id := nodeId;
                 content := content;
                 type := if JS.startsWith "http" content then url else note;
                 createdAt := now;
                 keywords := extractKeywords content |}
    ∈ (searchNodes getTime k created.2).1.
Proof.
  intros Hlen Hfaults Hfresh Hindex Hk Hklen.
  assert (H0 : ∀ n, head (faults w) ≠ Some (Some n)).
  { intros n. rewrite head_lookup. apply Hfaults. lia. }
  assert (H1 : ∀ n, head (tail (faults w)) ≠ Some (Some n)).
  { intros n. rewrite head_lookup, lookup_tail. apply Hfaults. lia. }
  assert (H2 : ∀ n, head (tail (tail (faults w))) ≠ Some (Some n)).
  { intros n. rewrite head_lookup, !lookup_tail. apply Hfaults. lia. }
  unfold addNodeAction.
  change (FormData_get "content" (content_form content)) with (Some content).
  unfold addNodeSchema.
  destruct (Nat.leb_spec 3 (String.length content)) as [_|?]; [|lia].
  set (node := {| id := nodeId; content := content; type := _;
                  createdAt := now; keywords := _ |}).
  unfold exec. rewrite round_trip_let_through by done. cbn [fst snd].
  split; [done|].
  destruct (create_batch_store node (store w) k Hfresh Hindex Hk)
    as (Hnode & s & Hs & Hin).
  cbn [id keywords node] in Hnode, Hs, Hin. fold node in Hnode, Hs, Hin.
  set (st' := (Redis.run_all _ (store w)).2) in *.
  destruct (searchTerms_keyword content k Hk Hklen) as [Hterms Htrim].
  unfold searchNodes. destruct (JS.trim k) as [|c t]; [done|].
  rewrite Hterms. cbn [map]. rewrite call_let_through by done.
  cbn [store]. rewrite (SUNION_one st' _ s Hs). cbn [fst snd reply_members].
  assert (nodeId ∈ elements (s ∪ ∅)) as Hid by set_solver.
  destruct (elements (s ∪ ∅)) as [|i0 ids] eqn:Hids;
    [by apply elem_of_nil in Hid|].
  unfold exec. rewrite round_trip_let_through by done. cbn [fst snd store].
  change (Redis.HGETALL ("node:" +:+ i0) :: map ?f ids) with (map f (i0 :: ids)).
  rewrite (run_all_HGETALL (λ i, "node:" +:+ i)). cbn [fst]. unfold parse_results.
  apply sort_elem, list_elem_of_omap. eexists. split.
  - apply list_elem_of_fmap_2, Hid.
  - cbn beta. unfold Redis.hash_at. rewrite Hnode. cbn [reply_data].
    apply parseNode_storable_object.
Qed.

End CreateThenSearch.

(** ** The actions on the demonstration worlds *)

(** C1: [addNodeAction] indexes the note "ok. then" under the keyword "ok",
    and [searchNodes], which drops the terms of at most two characters, does
    not find the note under that keyword; it finds it under "then". *)
Theorem short_keyword_is_not_found :
  (addNodeAction "Required" demo_id "100" idle_state
     (content_form "ok. then") empty_world).1
    = {| status := Status.success; message := "Node added!" |}
  ∧ extractKeywords "ok. then" = ["ok"; "then"]
  ∧ store demo_world !! "keyword:ok" = Some (Redis.Members {[ demo_id ]})
  ∧ (searchNodes digits_time "ok" demo_world).1 = []
  ∧ (searchNodes digits_time "then" demo_world).1 = [object_of demo_node].
Proof. repeat split; vm_compute; reflexivity. Qed.

(** The frame of an update, on the update of the stored note. *)
Lemma editNodeAction_frame_witness :
  editNodeAction hex_uuid (edit_form demo_id "https://rocq-prover.org then more")
    demo_world
    = Some ({| success := true; message' := "Node updated." |}, demo_updated)
  ∧ ∃ nodeId content before after,
      FormData_get "nodeId"
        (edit_form demo_id "https://rocq-prover.org then more") = Some nodeId
      ∧ FormData_get "content"
          (edit_form demo_id "https://rocq-prover.org then more") = Some content
      ∧ store demo_world !! ("node:" +:+ nodeId) = Some (Redis.Hash before)
      ∧ store demo_updated !! ("node:" +:+ nodeId) = Some (Redis.Hash after)
      ∧ after !! "content" = Some content
      ∧ after !! "keywords" = Some (JSON.stringify (extractKeywords content))
      ∧ after !! "id" = before !! "id"
      ∧ after !! "createdAt" = before !! "createdAt"
      ∧ after !! "type" = before !! "type"
      ∧ (∀ field, field ≠ "content" → field ≠ "keywords" →
                  after !! field = before !! field)
      ∧ ∀ key, key ≠ "node:" +:+ nodeId →
               (∀ keyword, key ≠ "keyword:" +:+ keyword) →
               store demo_updated !! key = store demo_world !! key.
Proof.
  assert (editNodeAction hex_uuid
            (edit_form demo_id "https://rocq-prover.org then more") demo_world
          = Some ({| success := true; message' := "Node updated." |},
                  demo_updated)) as Hrun by (vm_compute; reflexivity).
  split; [exact Hrun|].
  exact (editNodeAction_frame hex_uuid _ _ _ _ Hrun eq_refl).
Defined.

(** A delete of the record whose keywords are not JSON. *)
Lemma deleteNodeAction_not_found_witness :
  ∃ r, deleteNodeAction hex_uuid [("nodeId", demo_id)] corrupt_world
       = Some (r, {| store := store corrupt_world;
                     sent := sent corrupt_world
                             ++ [Redis.HGETALL ("node:" +:+ demo_id)];
                     faults := tail (faults corrupt_world) |})
       ∧ success r = false
       ∧ ((∀ n, head (faults corrupt_world) ≠ Some (Some n)) →
          message' r = "Node not found.").
Proof.
  apply (deleteNodeAction_not_found hex_uuid [("nodeId", demo_id)]
           corrupt_world demo_id).
  - reflexivity.
  - vm_compute; reflexivity.
  - right. exists {[ "id" := demo_id; "keywords" := "[ok" ]}.
    split; vm_compute; reflexivity.
Defined.

(** The two reads when the batch read is rejected. *)
Lemma reads_swallow_failures_witness :
  (getAllNodes digits_time demo_outage).1 = []
  ∧ (searchNodes digits_time "then" demo_outage).1 = []
  ∧ (getAllNodes digits_time empty_world).1 = []
  ∧ (searchNodes digits_time "then" empty_world).1 = [].
Proof.
  apply (reads_swallow_failures digits_time "then" demo_outage 1 0).
  - lia.
  - reflexivity.
Defined.

(** The id [abc] is refused although a record is stored under it. *)
Lemma invalid_id_sends_nothing_witness :
  deleteNodeAction hex_uuid (edit_form "abc" "a new text") stale_world
    = Some ({| success := false; message' := "Invalid Node ID." |}, stale_world)
  ∧ editNodeAction hex_uuid (edit_form "abc" "a new text") stale_world
    = Some ({| success := false; message' := "Invalid data." |}, stale_world).
Proof.
  apply (invalid_id_sends_nothing hex_uuid (edit_form "abc" "a new text")
           stale_world).
  intros nodeId H. vm_compute in H. injection H as <-. reflexivity.
Defined.

(** The same reads without the outage: the note is there. *)
Example reads_without_outage :
  (getAllNodes digits_time demo_world).1 = [object_of demo_node]
  ∧ (searchNodes digits_time "then" demo_world).1 = [object_of demo_node].
Proof. split; vm_compute; reflexivity. Qed.

(** An update does not reclassify: the note keeps the type [note] under a
    content that starts with [http]. *)
Example update_keeps_type :
  (getAllNodes digits_time demo_updated).1
  = [object_of {| id := demo_id;
                  content := "https://rocq-prover.org then more";
                  type := note;
                  createdAt := "100";
                  keywords := ["https://rocq-proverorg"; "then"; "more"] |}].
Proof. vm_compute; reflexivity. Qed.

(** A delete of a record that is not there, on the empty store. *)
Example delete_missing :
  deleteNodeAction hex_uuid [("nodeId", demo_id)] empty_world
  = Some ({| success := false; message' := "Node not found." |},
          {| store := ∅;
             sent := [Redis.HGETALL ("node:" +:+ demo_id)];
             faults := [] |}).
Proof. vm_compute; reflexivity. Qed.

(** * Further properties *)

(** ** What a batch does to one key *)

Section Effects.

Implicit Types (st : gmap string Redis.Value) (c : Redis.Command)
  (v : option Redis.Value) (key member : string).

Lemma run_lookup c st key :
  (Redis.run c st).2 !! key = effect_at key (st !! key) c.
Proof.
  unfold effect_at.
  destruct c as [k f|k|k|k m|k m|k|ks]; cbn [Redis.run target effect].
  - destruct (decide (f = ∅)); [cbn [snd]; by case_decide|].
    destruct (decide (Some k = Some key)) as [[= ->]|Hne].
    + destruct (st !! key) as [[h|s]|] eqn:Hv; cbn [snd];
        by rewrite ?lookup_insert_eq, ?Hv.
    + assert (k ≠ key) by congruence.
      destruct (st !! k) as [[h|s]|]; cbn [snd]; by rewrite ?lookup_insert_ne.
  - case_decide; by destruct (Redis.hash_at st k).
  - cbn [snd]. destruct (decide (Some k = Some key)) as [[= ->]|Hne].
    + by rewrite lookup_delete_eq.
    + rewrite lookup_delete_ne; [done|congruence].
  - destruct (decide (Some k = Some key)) as [[= ->]|Hne].
    + destruct (st !! key) as [[h|s]|] eqn:Hv; cbn [snd];
        by rewrite ?lookup_insert_eq, ?Hv.
    + assert (k ≠ key) by congruence.
      destruct (st !! k) as [[h|s]|]; cbn [snd]; by rewrite ?lookup_insert_ne.
  - destruct (decide (Some k = Some key)) as [[= ->]|Hne].
    + destruct (st !! key) as [[h|s]|] eqn:Hv; cbn [snd]; rewrite ?Hv; try done.
      repeat case_decide; cbn [snd];
        by rewrite ?lookup_delete_eq, ?lookup_insert_eq.
    + assert (k ≠ key) by congruence.
      destruct (st !! k) as [[h|s]|]; cbn [snd]; try done.
      repeat case_decide; cbn [snd];
        by rewrite ?lookup_delete_ne, ?lookup_insert_ne.
  - case_decide; by destruct (Redis.set_at st k).
  - case_decide; (destruct ks; [done|]); by destruct (mapM _ _).
Qed.

(** The value at a key after a batch comes from the value at that key before
    it and from the commands of the batch on that key, in their order. *)
Lemma run_all_lookup cs st key :
  (Redis.run_all cs st).2 !! key = foldl (effect_at key) (st !! key) cs.
Proof.
  revert st. induction cs as [|c cs IH]; intros st; [done|].
  rewrite run_all_cons, IH, run_lookup. done.
Qed.

Lemma foldl_effect_at_other key v cs :
  Forall (λ c, target c ≠ Some key) cs → foldl (effect_at key) v cs = v.
Proof.
  induction 1 as [|c cs Hc _ IH]; [done|]. cbn [foldl].
  unfold effect_at at 2. by rewrite decide_False.
Qed.

Lemma set_at_as_set st key : Redis.set_at st key = as_set (st !! key).
Proof. done. Qed.

Lemma as_set_SADD key member v :
  as_set (effect (Redis.SADD key member) v) = (λ s, {[member]} ∪ s) <$> as_set v.
Proof.
  destruct v as [[h|s]|]; cbn; try done. f_equal. set_solver.
Qed.

Lemma as_set_SREM key member v :
  as_set (effect (Redis.SREM key member) v) = (λ s, s ∖ {[member]}) <$> as_set v.
Proof.
  destruct v as [[h|s]|]; cbn [effect as_set fmap option_fmap option_map];
    [done| |f_equal; set_solver].
  repeat case_decide; cbn [as_set]; f_equal; set_solver.
Qed.

(** Adding a member under a list of keys: the set at a key of the list gains
    the member, the set at any other key stays. *)
Lemma as_set_foldl_SADD {A} (f : A → string) member (l : list A) key : ∀ v,
  as_set (foldl (effect_at key) v (map (λ a, Redis.SADD (f a) member) l))
  = (λ s, if decide (key ∈ map f l) then {[member]} ∪ s else s) <$> as_set v.
Proof.
  induction l as [|a l IH]; intros v.
  - cbn. by destruct (as_set v).
  - cbn [map foldl]. rewrite IH. unfold effect_at. cbn [target].
    destruct (decide (Some (f a) = Some key)) as [[= Ha]|Hne].
    + rewrite as_set_SADD. destruct (as_set v) as [s|]; [|done]. cbn.
      f_equal. rewrite (decide_True (P := key ∈ f a :: map f l)) by (rewrite Ha; left).
      case_decide; set_solver.
    + destruct (as_set v) as [s|]; [|done]. cbn. f_equal.
      assert (key ∈ f a :: map f l ↔ key ∈ map f l) as Hiff.
      { rewrite elem_of_cons. split; [intros [->|?]; [congruence|done]|auto]. }
      by rewrite (decide_ext _ _ _ _ Hiff).
Qed.

Lemma as_set_foldl_SREM {A} (f : A → string) member (l : list A) key : ∀ v,
  as_set (foldl (effect_at key) v (map (λ a, Redis.SREM (f a) member) l))
  = (λ s, if decide (key ∈ map f l) then s ∖ {[member]} else s) <$> as_set v.
Proof.
  induction l as [|a l IH]; intros v.
  - cbn. by destruct (as_set v).
  - cbn [map foldl]. rewrite IH. unfold effect_at. cbn [target].
    destruct (decide (Some (f a) = Some key)) as [[= Ha]|Hne].
    + rewrite as_set_SREM. destruct (as_set v) as [s|]; [|done]. cbn.
      f_equal. rewrite (decide_True (P := key ∈ f a :: map f l)) by (rewrite Ha; left).
      case_decide; set_solver.
    + destruct (as_set v) as [s|]; [|done]. cbn. f_equal.
      assert (key ∈ f a :: map f l ↔ key ∈ map f l) as Hiff.
      { rewrite elem_of_cons. split; [intros [->|?]; [congruence|done]|auto]. }
      by rewrite (decide_ext _ _ _ _ Hiff).
Qed.

Lemma keyword_key_elem k (l : list string) :
  "keyword:" +:+ k ∈ map (λ keyword, "keyword:" +:+ keyword) l ↔ k ∈ l.
Proof.
  rewrite list_elem_of_fmap. split.
  - by intros (k' & ->%(inj (String.app _)) & ?).
  - intros ?. by exists k.
Qed.

End Effects.

Section Records.

Implicit Types (st : gmap string Redis.Value) (node : KnowledgeNode).

Lemma of_strings_inj ks ks' : JSON.of_strings ks = JSON.of_strings ks' → ks = ks'.
Proof.
  intros H. apply (f_equal JSON.as_strings) in H.
  rewrite !as_strings_of_strings in H. by injection H.
Qed.

Lemma stringify_inj ks ks' : JSON.stringify ks = JSON.stringify ks' → ks = ks'.
Proof.
  intros H. apply (f_equal JSON.parse) in H. rewrite !parse_stringify in H.
  apply of_strings_inj. congruence.
Qed.

(** Two nodes with the same hash are the same node. *)
Lemma storable_inj node node' : storable node = storable node' → node = node'.
Proof.
  intros H.
  assert (Hf : ∀ field, storable node !! field = storable node' !! field)
    by (by rewrite H).
  pose proof (Hf "id") as Hid. pose proof (Hf "content") as Hcontent.
  pose proof (Hf "type") as Htype. pose proof (Hf "createdAt") as Hdate.
  pose proof (Hf "keywords") as Hkeywords. clear H Hf.
  unfold storable in *.
  rewrite !lookup_insert_eq in Hid.
  rewrite !(lookup_insert_ne _ "id"), !lookup_insert_eq in Hcontent by done.
  rewrite !(lookup_insert_ne _ "id"), !(lookup_insert_ne _ "content"),
    !lookup_insert_eq in Htype by done.
  rewrite !(lookup_insert_ne _ "id"), !(lookup_insert_ne _ "content"),
    !(lookup_insert_ne _ "type"), !lookup_insert_eq in Hdate by done.
  rewrite !(lookup_insert_ne _ "id"), !(lookup_insert_ne _ "content"),
    !(lookup_insert_ne _ "type"), !(lookup_insert_ne _ "createdAt"),
    !lookup_singleton_eq in Hkeywords by done.
  destruct node as [i c t d ks], node' as [i' c' t' d' ks']. cbn in *.
  assert (ks = ks') as -> by (apply stringify_inj; congruence).
  assert (t = t') as -> by (destruct t, t'; done).
  congruence.
Qed.

Lemma record_inj node node' :
  Some (Redis.Hash (storable node)) = Some (Redis.Hash (storable node')) →
  node = node'.
Proof. intros H. apply storable_inj. congruence. Qed.

Lemma stored_unique st node node' :
  stored st node → stored st node' → id node = id node' → node = node'.
Proof.
  unfold stored. intros H H' Hid. rewrite Hid in H.
  apply storable_inj. congruence.
Qed.

(** The two fields that an update writes, over the hash of a node, are the
    hash of the updated node. *)
Lemma written_over_storable node content' :
  {[ "content" := content';
     "keywords" := JSON.stringify (extractKeywords content') ]} ∪ storable node
  = storable (updated node content').
Proof.
  apply map_eq. intros field. unfold storable, updated. cbn [id content type createdAt keywords].
  destruct (decide (field = "content")) as [->|Hc].
  { erewrite lookup_union_Some_l; [|by rewrite lookup_insert_eq].
    by rewrite lookup_insert_ne, lookup_insert_eq. }
  destruct (decide (field = "keywords")) as [->|Hk].
  { erewrite lookup_union_Some_l;
      [|by rewrite lookup_insert_ne, lookup_singleton_eq].
    by rewrite !lookup_insert_ne, lookup_singleton_eq. }
  rewrite lookup_union_r by (by rewrite lookup_insert_ne, lookup_singleton_ne).
  destruct (decide (field = "id")) as [->|Hi]; [by rewrite !lookup_insert_eq|].
  rewrite !(lookup_insert_ne _ "id") by done.
  rewrite !(lookup_insert_ne _ "content") by done.
  destruct (decide (field = "type")) as [->|Ht]; [by rewrite !lookup_insert_eq|].
  rewrite !(lookup_insert_ne _ "type") by done.
  destruct (decide (field = "createdAt")) as [->|Hd];
    [by rewrite !lookup_insert_eq|].
  rewrite !(lookup_insert_ne _ "createdAt") by done.
  by rewrite !lookup_singleton_ne.
Qed.

Lemma storable_not_empty node : storable node ≠ ∅.
Proof. unfold storable. apply insert_non_empty. Qed.

End Records.

(** ** What the three batches do to the store *)

Section Batches.

Implicit Types (st : gmap string Redis.Value) (node : KnowledgeNode)
  (nodeId k : string).

Lemma node_key_inj i j : "node:" +:+ i = "node:" +:+ j → i = j.
Proof. apply (inj (String.app _)). Qed.

Lemma not_target_SADD_keywords key member (l : list string) :
  (∀ keyword, key ≠ "keyword:" +:+ keyword) →
  Forall (λ c, target c ≠ Some key)
    (map (λ keyword, Redis.SADD ("keyword:" +:+ keyword) member) l).
Proof.
  intros Hkey. apply Forall_forall. intros c (kw & -> & _)%list_elem_of_fmap.
  cbn [target]. intros H%(inj Some). by apply (Hkey kw).
Qed.

Lemma not_target_SREM_keywords key member (l : list string) :
  (∀ keyword, key ≠ "keyword:" +:+ keyword) →
  Forall (λ c, target c ≠ Some key)
    (map (λ keyword, Redis.SREM ("keyword:" +:+ keyword) member) l).
Proof.
  intros Hkey. apply Forall_forall. intros c (kw & -> & _)%list_elem_of_fmap.
  cbn [target]. intros H%(inj Some). by apply (Hkey kw).
Qed.

Lemma effect_at_other key v c : target c ≠ Some key → effect_at key v c = v.
Proof. intros H. unfold effect_at. by rewrite decide_False. Qed.

Lemma effect_at_target key v c : target c = Some key → effect_at key v c = effect c v.
Proof. intros H. unfold effect_at. by rewrite decide_True. Qed.

Lemma nodes_not_keyword keyword : "nodes" ≠ "keyword:" +:+ keyword.
Proof. intros H. discriminate H. Qed.

Lemma nodes_not_node i : "nodes" ≠ "node:" +:+ i.
Proof. intros H. discriminate H. Qed.

Lemma node_not_keyword i keyword : "node:" +:+ i ≠ "keyword:" +:+ keyword.
Proof. intros H. discriminate H. Qed.

(** The create batch: the record of the node appears, its id joins the
    registry and the set of each of its keywords, and nothing else moves. *)
Lemma add_pipeline_effect node st :
  st !! ("node:" +:+ id node) = None →
  let st' := (Redis.run_all (add_pipeline node) st).2 in
  (∀ j, st' !! ("node:" +:+ j)
        = if decide (j = id node) then Some (Redis.Hash (storable node))
          else st !! ("node:" +:+ j))
  ∧ Redis.set_at st' "nodes" = (λ s, {[id node]} ∪ s) <$> Redis.set_at st "nodes"
  ∧ (∀ k, Redis.set_at st' ("keyword:" +:+ k)
          = (λ s, if decide (k ∈ keywords node) then {[id node]} ∪ s else s)
            <$> Redis.set_at st ("keyword:" +:+ k)).
Proof.
  intros Hfresh st'. subst st'. unfold add_pipeline. split_and!.
  - intros j. rewrite run_all_lookup. cbn [app foldl].
    rewrite foldl_effect_at_other
      by (apply not_target_SADD_keywords; intros kw; apply node_not_keyword).
    rewrite (effect_at_other _ _ (Redis.SADD _ _))
      by (cbn [target]; intros H%(inj Some); discriminate H).
    destruct (decide (j = id node)) as [->|Hj].
    + rewrite effect_at_target by done. rewrite Hfresh. cbn [effect].
      by rewrite decide_False by apply storable_not_empty.
    + apply effect_at_other. cbn [target]. intros H%(inj Some)%node_key_inj. done.
  - rewrite !set_at_as_set, run_all_lookup. cbn [app foldl].
    rewrite foldl_effect_at_other
      by (apply not_target_SADD_keywords; intros kw; apply nodes_not_keyword).
    rewrite (effect_at_other _ _ (Redis.HSET _ _))
      by (cbn [target]; intros H%(inj Some); discriminate H).
    rewrite effect_at_target by done. apply as_set_SADD.
  - intros k. rewrite !set_at_as_set, run_all_lookup. cbn [app foldl].
    rewrite as_set_foldl_SADD.
    rewrite (effect_at_other _ _ (Redis.HSET _ _))
      by (cbn [target]; intros H%(inj Some); discriminate H).
    rewrite (effect_at_other _ _ (Redis.SADD _ _))
      by (cbn [target]; intros H%(inj Some); discriminate H).
    destruct (as_set _) as [s|]; [|done]. cbn. f_equal.
    apply decide_ext, keyword_key_elem.
Qed.

(** The delete batch: the record goes, its id leaves the registry and the
    set of each keyword of the list, and nothing else moves. *)
Lemma delete_pipeline_effect nodeId (ks : list string) st :
  let st' := (Redis.run_all (delete_pipeline nodeId ks) st).2 in
  (∀ j, st' !! ("node:" +:+ j)
        = if decide (j = nodeId) then None else st !! ("node:" +:+ j))
  ∧ Redis.set_at st' "nodes" = (λ s, s ∖ {[nodeId]}) <$> Redis.set_at st "nodes"
  ∧ (∀ k, Redis.set_at st' ("keyword:" +:+ k)
          = (λ s, if decide (k ∈ ks) then s ∖ {[nodeId]} else s)
            <$> Redis.set_at st ("keyword:" +:+ k)).
Proof.
  intros st'. subst st'. unfold delete_pipeline. split_and!.
  - intros j. rewrite run_all_lookup. cbn [app foldl]. rewrite foldl_app.
    rewrite (foldl_effect_at_other _ _ (map _ _))
      by (apply not_target_SREM_keywords; intros kw; apply node_not_keyword).
    rewrite (effect_at_other _ _ (Redis.SREM _ _))
      by (cbn [target]; intros H%(inj Some); discriminate H).
    cbn [foldl]. destruct (decide (j = nodeId)) as [->|Hj].
    + by rewrite effect_at_target.
    + apply effect_at_other. cbn [target]. intros H%(inj Some)%node_key_inj. done.
  - rewrite !set_at_as_set, run_all_lookup. cbn [app foldl]. rewrite foldl_app.
    rewrite (foldl_effect_at_other _ _ (map _ _))
      by (apply not_target_SREM_keywords; intros kw; apply nodes_not_keyword).
    cbn [foldl]. rewrite (effect_at_other _ _ (Redis.DEL _))
      by (cbn [target]; intros H%(inj Some); discriminate H).
    rewrite effect_at_target by done. apply as_set_SREM.
  - intros k. rewrite !set_at_as_set, run_all_lookup. cbn [app foldl].
    rewrite foldl_app. cbn [foldl].
    rewrite (effect_at_other _ _ (Redis.DEL _))
      by (cbn [target]; intros H%(inj Some); discriminate H).
    rewrite as_set_foldl_SREM.
    rewrite (effect_at_other _ _ (Redis.SREM _ _))
      by (cbn [target]; intros H%(inj Some); discriminate H).
    destruct (as_set _) as [s|]; [|done]. cbn. f_equal.
    apply decide_ext, keyword_key_elem.
Qed.

Lemma keywordDiff_elem old new k :
  (k ∈ (keywordDiff old new).1 ↔ k ∈ new ∧ k ∉ old)
  ∧ (k ∈ (keywordDiff old new).2 ↔ k ∈ old ∧ k ∉ new).
Proof.
  unfold keywordDiff. cbn [fst snd].
  rewrite !list_elem_of_In, !filter_In, <- !list_elem_of_In.
  rewrite !Set_of_elem, !negb_true_iff, <- !not_true_iff_false, !Set_has_true.
  by rewrite !Set_of_elem.
Qed.

(** The update batch: the two fields are written over the record, the id
    joins the sets of the keywords gained and leaves the sets of the keywords
    lost; the registry and every other set stay. *)
Lemma edit_pipeline_effect nodeId content' (old : list string) st h :
  st !! ("node:" +:+ nodeId) = Some (Redis.Hash h) →
  let st' := (Redis.run_all (edit_pipeline nodeId content' old) st).2 in
  (∀ j, st' !! ("node:" +:+ j)
        = if decide (j = nodeId)
          then Some (Redis.Hash
                 ({[ "content" := content';
                     "keywords" := JSON.stringify (extractKeywords content') ]}
                  ∪ h))
          else st !! ("node:" +:+ j))
  ∧ Redis.set_at st' "nodes" = Redis.set_at st "nodes"
  ∧ (∀ k, Redis.set_at st' ("keyword:" +:+ k)
          = (λ s, if decide (k ∈ extractKeywords content' ∧ k ∉ old)
                  then {[nodeId]} ∪ s
                  else if decide (k ∈ old ∧ k ∉ extractKeywords content')
                       then s ∖ {[nodeId]} else s)
            <$> Redis.set_at st ("keyword:" +:+ k)).
Proof.
  intros Hrecord st'. subst st'. unfold edit_pipeline.
  pose proof (keywordDiff_elem old (extractKeywords content')) as Hdiff.
  destruct (keywordDiff old (extractKeywords content')) as [toAdd toRemove].
  cbn [fst snd] in Hdiff.
  rewrite Set_of_NoDup_id by apply extractKeywords_set_of_first_ten.
  split_and!.
  - intros j. rewrite run_all_lookup. cbn [app foldl]. rewrite foldl_app.
    rewrite !foldl_effect_at_other
      by (first [apply not_target_SADD_keywords | apply not_target_SREM_keywords];
          intros kw; apply node_not_keyword).
    destruct (decide (j = nodeId)) as [->|Hj].
    + rewrite effect_at_target by done. rewrite Hrecord. cbn [effect].
      rewrite decide_False; [done|]. apply insert_non_empty.
    + apply effect_at_other. cbn [target]. intros H%(inj Some)%node_key_inj. done.
  - rewrite !set_at_as_set, run_all_lookup. cbn [app foldl]. rewrite foldl_app.
    rewrite !foldl_effect_at_other
      by (first [apply not_target_SADD_keywords | apply not_target_SREM_keywords];
          intros kw; apply nodes_not_keyword).
    rewrite effect_at_other; [done|].
    cbn [target]. intros H%(inj Some). discriminate H.
  - intros k. rewrite !set_at_as_set, run_all_lookup. cbn [app foldl].
    rewrite foldl_app, as_set_foldl_SREM, as_set_foldl_SADD.
    rewrite (effect_at_other _ _ (Redis.HSET _ _))
      by (cbn [target]; intros H%(inj Some); discriminate H).
    destruct (as_set _) as [s|]; [|done]. cbn. f_equal.
    destruct (Hdiff k) as [Hadd Hremove].
    rewrite (decide_ext _ _ _ _ (keyword_key_elem k toRemove)).
    rewrite (decide_ext _ _ _ _ (keyword_key_elem k toAdd)).
    rewrite (decide_ext _ _ _ _ Hadd), (decide_ext _ _ _ _ Hremove).
    repeat case_decide; try done; set_solver.
Qed.

End Batches.

(** ** The consistency of records, registry and index *)

Section Consistency.

Implicit Types (st : gmap string Redis.Value) (node : KnowledgeNode)
  (nodeId k : string).

Lemma consistent_empty : consistent ∅.
Proof.
  split.
  - by eexists.
  - intros k. by eexists.
  - intros i v H. by rewrite lookup_empty in H.
  - intros i. unfold registry, Redis.set_at. rewrite !lookup_empty. cbn.
    split; [set_solver|]. by intros [? ?].
  - intros k i. unfold index, stored, Redis.set_at. rewrite lookup_empty. cbn.
    split; [set_solver|]. intros (n & _ & H & _). by rewrite lookup_empty in H.
Qed.

Lemma registry_set st s : Redis.set_at st "nodes" = Some s → registry st = s.
Proof. unfold registry. by intros ->. Qed.

Lemma index_set st k s :
  Redis.set_at st ("keyword:" +:+ k) = Some s → index st k = s.
Proof. unfold index. by intros ->. Qed.

(** A create on a consistent store where the id is new leaves a consistent
    store. *)
Lemma add_pipeline_consistent node st :
  consistent st → st !! ("node:" +:+ id node) = None →
  consistent (Redis.run_all (add_pipeline node) st).2.
Proof.
  intros [[r Hr] Hi Hrec Hreg Hidx] Hfresh.
  destruct (add_pipeline_effect node st Hfresh) as (Hnode & Hnodes & Hkw).
  set (st' := (Redis.run_all (add_pipeline node) st).2) in *.
  assert (Hstored : ∀ n, stored st' n ↔ n = node ∨ (id n ≠ id node ∧ stored st n)).
  { intros n. unfold stored. rewrite Hnode.
    destruct (decide (id n = id node)) as [Heq|Hne].
    - split.
      + intros H%record_inj. by left.
      + intros [->|[? _]]; done.
    - split; [by right|]. intros [->|[_ ?]]; done. }
  assert (Hnew : ∀ n, stored st n → id n ≠ id node).
  { intros n Hn Heq. unfold stored in Hn. rewrite Heq, Hfresh in Hn. done. }
  split.
  - rewrite Hnodes, Hr. by eexists.
  - intros k. rewrite Hkw. destruct (Hi k) as [s ->]. by eexists.
  - intros i v. rewrite Hnode. case_decide as Hi'.
    + intros H. exists node. split; [congruence|done].
    + apply Hrec.
  - intros i. rewrite (registry_set st' ({[id node]} ∪ r)) by (by rewrite Hnodes, Hr).
    rewrite Hnode, elem_of_union, elem_of_singleton.
    rewrite <- (registry_set st r Hr), Hreg.
    case_decide as Hi'; [split; eauto|]. split; [by intros [?|?]|by right].
  - intros k i. destruct (Hi k) as [s Hs].
    rewrite (index_set st' k (if decide (k ∈ keywords node)
                              then {[id node]} ∪ s else s))
      by (by rewrite Hkw, Hs).
    pose proof (Hidx k i) as Hold. rewrite (index_set st k s Hs) in Hold.
    split.
    + intros Hin.
      assert (i ∈ s ∨ (i = id node ∧ k ∈ keywords node)) as [Hin'| [-> Hk]].
      { case_decide; [|by left]. set_solver. }
      * apply Hold in Hin' as (n & <- & Hn & Hk). exists n.
        split_and!; [done| |done]. apply Hstored. right. eauto.
      * exists node. split_and!; [done| |done]. apply Hstored. by left.
    + intros (n & <- & [->|[Hne Hn]]%Hstored & Hk).
      * rewrite decide_True by done. set_solver.
      * assert (id n ∈ s) by (apply Hold; eauto).
        case_decide; set_solver.
Qed.

(** A delete of a stored node, with the keywords of its record, leaves a
    consistent store, and the record is gone. *)
Lemma delete_pipeline_consistent node st :
  consistent st → stored st node →
  consistent (Redis.run_all (delete_pipeline (id node) (keywords node)) st).2.
Proof.
  intros [[r Hr] Hi Hrec Hreg Hidx] Hnode0.
  destruct (delete_pipeline_effect (id node) (keywords node) st)
    as (Hnode & Hnodes & Hkw).
  set (st' := (Redis.run_all _ st).2) in *.
  assert (Hstored : ∀ n, stored st' n ↔ id n ≠ id node ∧ stored st n).
  { intros n. unfold stored. rewrite Hnode. case_decide; naive_solver. }
  split.
  - rewrite Hnodes, Hr. by eexists.
  - intros k. rewrite Hkw. destruct (Hi k) as [s ->]. by eexists.
  - intros i v. rewrite Hnode. case_decide; [done|apply Hrec].
  - intros i. rewrite (registry_set st' (r ∖ {[id node]})) by (by rewrite Hnodes, Hr).
    rewrite Hnode, elem_of_difference, elem_of_singleton.
    rewrite <- (registry_set st r Hr), Hreg.
    case_decide; [|naive_solver]. split; [naive_solver|]. by intros [? ?].
  - intros k i. destruct (Hi k) as [s Hs].
    rewrite (index_set st' k (if decide (k ∈ keywords node)
                              then s ∖ {[id node]} else s))
      by (by rewrite Hkw, Hs).
    pose proof (Hidx k i) as Hold. rewrite (index_set st k s Hs) in Hold.
    split.
    + intros Hin. assert (i ∈ s) as Hin' by (case_decide; set_solver).
      apply Hold in Hin' as (n & <- & Hn & Hk). exists n.
      split_and!; [done| |done]. apply Hstored. split; [|done].
      intros Heq. assert (n = node) as -> by by apply (stored_unique st).
      rewrite decide_True in Hin by done. set_solver.
    + intros (n & <- & [Hne Hn]%Hstored & Hk).
      assert (id n ∈ s) by (apply Hold; eauto).
      case_decide; set_solver.
Qed.

Lemma edit_index_self (s : gset string) (i : string) (P Q : Prop)
    `{!Decision P, !Decision Q} :
  (i ∈ s ↔ Q) →
  i ∈ (if decide (P ∧ ¬ Q) then {[i]} ∪ s
       else if decide (Q ∧ ¬ P) then s ∖ {[i]} else s) ↔ P.
Proof.
  intros Hs. repeat case_decide.
  - set_solver.
  - rewrite elem_of_difference, elem_of_singleton. tauto.
  - rewrite Hs. destruct (decide P), (decide Q); tauto.
Qed.

Lemma edit_index_other (s : gset string) (i j : string) (P Q : Prop)
    `{!Decision P, !Decision Q} :
  j ≠ i →
  j ∈ (if decide (P ∧ ¬ Q) then {[i]} ∪ s
       else if decide (Q ∧ ¬ P) then s ∖ {[i]} else s) ↔ j ∈ s.
Proof. intros Hj. repeat case_decide; set_solver. Qed.

(** An update of a stored node, diffed against the keywords of its record,
    leaves a consistent store that holds the updated node. *)
Lemma edit_pipeline_consistent node content' st :
  consistent st → stored st node →
  let st' :=
    (Redis.run_all (edit_pipeline (id node) content' (keywords node)) st).2 in
  consistent st' ∧ stored st' (updated node content').
Proof.
  intros [[r Hr] Hi Hrec Hreg Hidx] Hnode0 st'.
  destruct (edit_pipeline_effect (id node) content' (keywords node) st _ Hnode0)
    as (Hnode & Hnodes & Hkw).
  fold st' in Hnode, Hnodes, Hkw.
  assert (Hnode' : ∀ j, st' !! ("node:" +:+ j)
            = if decide (j = id node)
              then Some (Redis.Hash (storable (updated node content')))
              else st !! ("node:" +:+ j)).
  { intros j. rewrite Hnode. by rewrite written_over_storable. }
  clear Hnode. rename Hnode' into Hnode.
  assert (Hstored : ∀ n, stored st' n
            ↔ n = updated node content' ∨ (id n ≠ id node ∧ stored st n)).
  { intros n. unfold stored. rewrite Hnode.
    destruct (decide (id n = id node)) as [Heq|Hne].
    - split.
      + intros H%record_inj. by left.
      + intros [->|[? _]]; done.
    - split; [by right|]. intros [->|[_ ?]]; done. }
  split; [|apply Hstored; by left]. split.
  - rewrite Hnodes, Hr. by eexists.
  - intros k. rewrite Hkw. destruct (Hi k) as [s ->]. by eexists.
  - intros i v. rewrite Hnode. case_decide as Hi'.
    + intros H. exists (updated node content'). split; [congruence|done].
    + apply Hrec.
  - intros i. unfold registry. rewrite Hnodes. fold (registry st).
    rewrite Hreg, Hnode. case_decide as Hi'; [|done]. subst i.
    unfold stored in Hnode0. rewrite Hnode0. split; eauto.
  - intros k i. destruct (Hi k) as [s Hs].
    pose proof (Hidx k i) as Hold. rewrite (index_set st k s Hs) in Hold.
    pose proof (Hidx k (id node)) as Hself.
    rewrite (index_set st k s Hs) in Hself.
    assert (id node ∈ s ↔ k ∈ keywords node) as Hself'.
    { rewrite Hself. split.
      - intros (n & Hid & Hn & Hk).
        by assert (n = node) as -> by by apply (stored_unique st).
      - intros Hk. by exists node. }
    erewrite (index_set st' k) by (by rewrite Hkw, Hs).
    destruct (decide (i = id node)) as [->|Hne].
    + rewrite (edit_index_self s (id node) _ _ Hself'). split.
      * intros Hk. exists (updated node content').
        split_and!; [done|apply Hstored; by left|done].
      * intros (n & Hid & [->|[Hne Hn]]%Hstored & Hk); [done|].
        by destruct Hne.
    + rewrite (edit_index_other s (id node) i _ _ Hne), Hold. split.
      * intros (n & <- & Hn & Hk). exists n.
        split_and!; [done| |done]. apply Hstored. by right.
      * intros (n & <- & [->|[_ Hn]]%Hstored & Hk); [done|]. by exists n.
Qed.

End Consistency.

(** ** The actions when the backend answers *)

Lemma sort_members getTime (x : NodeObject) l : x ∈ sort getTime l ↔ x ∈ l.
Proof. apply (sort_elem EmptyString). Qed.

Section Runs.

Local Set Default Proof Using "Type".

Variable uuid : string → bool.
Variable not_a_string : string.
Variable getTime : string → option Z.

Implicit Types (w : World) (st : gmap string Redis.Value)
  (node : KnowledgeNode) (formData : list (string * string)).

Lemma head_nil_let_through w :
  faults w = [] → ∀ n, head (faults w) ≠ Some (Some n).
Proof. by intros ->. Qed.

(** A create with a valid content sends its batch and succeeds. *)
Lemma addNodeAction_runs nodeId now prevState formData content w :
  FormData_get "content" formData = Some content →
  3 ≤ String.length content →
  faults w = [] →
  addNodeAction not_a_string nodeId now prevState formData w
  = ({| status := Status.success; message := "Node added!" |},
     {| store := (Redis.run_all (add_pipeline (new_node nodeId now content))
                    (store w)).2;
        sent := sent w ++ add_pipeline (new_node nodeId now content);
        faults := [] |}).
Proof.
  intros Hget Hlen Hfaults. unfold addNodeAction, addNodeSchema.
  rewrite Hget. destruct (Nat.leb_spec 3 (String.length content)); [|lia].
  unfold exec. rewrite round_trip_let_through by by apply head_nil_let_through.
  by rewrite Hfaults.
Qed.

Lemma hash_at_stored st node :
  stored st node → Redis.hash_at st ("node:" +:+ id node) = Some (storable node).
Proof. unfold stored, Redis.hash_at. by intros ->. Qed.

(** A delete of a stored node reads it, sends its batch and succeeds. *)
Lemma deleteNodeAction_runs formData node w :
  FormData_get "nodeId" formData = Some (id node) →
  uuid (id node) = true →
  stored (store w) node →
  faults w = [] →
  deleteNodeAction uuid formData w
  = Some ({| success := true; message' := "Node deleted." |},
          {| store := (Redis.run_all (delete_pipeline (id node) (keywords node))
                         (store w)).2;
             sent := (sent w ++ [Redis.HGETALL ("node:" +:+ id node)])
                     ++ delete_pipeline (id node) (keywords node);
             faults := [] |}).
Proof.
  intros Hget Hid Hnode Hfaults. unfold deleteNodeAction, deleteNodeSchema.
  rewrite Hget, Hid, call_HGETALL, Hfaults. cbn [head tail].
  rewrite (hash_at_stored _ _ Hnode).
  cbn [fmap option_fmap option_map reply_data].
  rewrite parseNode_storable_object. cbn [keywords_value object_of].
  rewrite as_strings_of_strings. cbn [mbind option_bind].
  unfold exec. rewrite round_trip_let_through by done. done.
Qed.

(** An update of a stored node reads it, sends its batch and succeeds. *)
Lemma editNodeAction_runs formData node content' w :
  FormData_get "nodeId" formData = Some (id node) →
  FormData_get "content" formData = Some content' →
  uuid (id node) = true →
  3 ≤ String.length content' →
  stored (store w) node →
  faults w = [] →
  editNodeAction uuid formData w
  = Some ({| success := true; message' := "Node updated." |},
          {| store := (Redis.run_all
                         (edit_pipeline (id node) content' (keywords node))
                         (store w)).2;
             sent := (sent w ++ [Redis.HGETALL ("node:" +:+ id node)])
                     ++ edit_pipeline (id node) content' (keywords node);
             faults := [] |}).
Proof.
  intros Hget Hcontent Hid Hlen Hnode Hfaults.
  unfold editNodeAction, editNodeSchema.
  rewrite Hget, Hcontent, Hid.
  destruct (Nat.leb_spec 3 (String.length content')); [|lia]. cbn [andb].
  rewrite call_HGETALL, Hfaults. cbn [head tail].
  rewrite (hash_at_stored _ _ Hnode).
  cbn [fmap option_fmap option_map reply_data].
  rewrite parseNode_storable_object. cbn [keywords_value object_of].
  rewrite as_strings_of_strings. cbn [mbind option_bind].
  unfold exec. rewrite round_trip_let_through by done. done.
Qed.

Lemma parse_results_elem st ids o :
  o ∈ parse_results getTime
        (map (λ i, match Redis.hash_at st ("node:" +:+ i) with
                   | Some h => Redis.Fields h
                   | None => Redis.Error
                   end) ids)
  ↔ ∃ i, i ∈ ids ∧ read_node st i = Some o.
Proof.
  unfold parse_results, read_node. rewrite sort_members, list_elem_of_omap. split.
  - intros (r & (i & -> & Hi)%list_elem_of_fmap & Ho). exists i. split; [done|].
    by destruct (Redis.hash_at st _).
  - intros (i & Hi & Ho).
    exists (match Redis.hash_at st ("node:" +:+ i) with
            | Some h => Redis.Fields h
            | None => Redis.Error
            end).
    split; [|by destruct (Redis.hash_at st _)].
    apply list_elem_of_fmap. by exists i.
Qed.

(** [getAllNodes] when the backend answers: the records of the registered
    ids, parsed and sorted. *)
Lemma getAllNodes_let_through w r :
  faults w = [] → Redis.set_at (store w) "nodes" = Some r →
  (getAllNodes getTime w).1
  = parse_results getTime
      (map (λ i, match Redis.hash_at (store w) ("node:" +:+ i) with
                 | Some h => Redis.Fields h
                 | None => Redis.Error
                 end) (elements r)).
Proof.
  intros Hfaults Hr. unfold getAllNodes.
  rewrite call_let_through by by apply head_nil_let_through.
  cbn [Redis.run]. rewrite Hr. cbn [fst snd reply_members].
  destruct (elements r) as [|i0 ids]; [done|].
  unfold exec. rewrite round_trip_let_through by (cbn; by rewrite Hfaults).
  cbn [fst snd store].
  change (Redis.HGETALL ("node:" +:+ i0) :: map ?f ids) with (map f (i0 :: ids)).
  by rewrite (run_all_HGETALL (λ i, "node:" +:+ i)).
Qed.

End Runs.

(** ** Queries without a term *)

Section Blank.

Local Set Default Proof Using "Type".

Implicit Types (s : string) (p : ascii → bool).

Lemma sall_rev_app_eq p a b :
  JS.sall p (String.rev_app a b) = JS.sall p a && JS.sall p b.
Proof.
  revert b. induction a as [|c a IH]; intros b; [done|].
  cbn [String.rev_app JS.sall]. rewrite IH. cbn [JS.sall].
  by destruct (p c), (JS.sall p a), (JS.sall p b).
Qed.

Lemma trimStart_empty s :
  JS.trimStart s = EmptyString → JS.sall JS.is_space s = true.
Proof.
  induction s as [|c r IH]; [done|]. cbn [JS.trimStart JS.sall].
  destruct (JS.is_space c); [apply IH|done].
Qed.

Lemma rev_app_empty a b : String.rev_app a b = EmptyString → a = EmptyString.
Proof.
  intros H. apply (f_equal String.length) in H. rewrite length_rev_app in H.
  destruct a; [done|]. simpl in H. lia.
Qed.

Lemma sall_trimStart s :
  JS.sall JS.is_space (JS.trimStart s) = true → JS.sall JS.is_space s = true.
Proof.
  induction s as [|c r IH]; [done|]. cbn [JS.trimStart].
  destruct (JS.is_space c) eqn:Hc; [|done]. cbn [JS.sall]. by rewrite Hc.
Qed.

(** A text that trims to nothing is white space. *)
Lemma trim_empty s : JS.trim s = EmptyString → JS.sall JS.is_space s = true.
Proof.
  unfold JS.trim, String.rev. intros H%rev_app_empty%trimStart_empty.
  rewrite sall_rev_app_eq, andb_true_r in H. by apply sall_trimStart.
Qed.

Lemma is_space_lower c : JS.is_space (JS.lower c) = JS.is_space c.
Proof. by destruct c as [[] [] [] [] [] [] [] []]. Qed.

Lemma sall_space_toLowerCase s :
  JS.sall JS.is_space (JS.toLowerCase s) = JS.sall JS.is_space s.
Proof.
  induction s as [|c r IH]; [done|]. cbn [JS.toLowerCase JS.smap JS.sall].
  fold (JS.toLowerCase r). by rewrite is_space_lower, IH.
Qed.

Lemma split_ws_blank s :
  JS.sall JS.is_space s = true →
  Forall (λ piece, piece = EmptyString) (JS.split_ws s).
Proof.
  induction s as [|c r IH]; [by repeat constructor|].
  cbn [JS.sall JS.split_ws]. intros [Hc Hr]%andb_true_iff. rewrite Hc.
  specialize (IH Hr). destruct r as [|c' r']; [by repeat constructor|].
  cbn [JS.sall] in Hr. apply andb_true_iff in Hr as [-> _]. done.
Qed.

Lemma filter_nil_Forall {A} (p : A → bool) l :
  Forall (λ x, p x = false) l → List.filter p l = [].
Proof. induction 1 as [|x l Hx _ IH]; [done|]. cbn. by rewrite Hx. Qed.

(** A query of white space has no term. *)
Lemma searchTerms_blank query :
  JS.sall JS.is_space query = true → searchTerms query = [].
Proof.
  intros H. unfold searchTerms. rewrite filter_nil_Forall; [done|].
  rewrite <- sall_space_toLowerCase in H.
  eapply Forall_impl; [by apply split_ws_blank|]. by intros piece ->.
Qed.

Lemma searchTerms_trim_empty query :
  JS.trim query = EmptyString → searchTerms query = [].
Proof. intros H. by apply searchTerms_blank, trim_empty. Qed.

End Blank.

(** ** What the reads return on a consistent store *)

Section Reads.

Local Set Default Proof Using "Type".

Variable getTime : string → option Z.

Implicit Types (w : World) (st : gmap string Redis.Value)
  (node : KnowledgeNode) (o : NodeObject).

Lemma read_node_stored st node :
  stored st node → read_node st (id node) = Some (object_of node).
Proof.
  intros H. unfold read_node. rewrite (hash_at_stored _ _ H).
  apply parseNode_storable_object.
Qed.

Lemma read_node_consistent st i o :
  consistent st → read_node st i = Some o →
  ∃ node, id node = i ∧ stored st node ∧ o = object_of node.
Proof.
  intros Hst. unfold read_node, Redis.hash_at.
  destruct (st !! ("node:" +:+ i)) as [v|] eqn:Hv; [|by rewrite parseNode_empty].
  destruct (record_is_node st Hst i v Hv) as (node & -> & <-).
  rewrite parseNode_storable_object. intros [= <-]. by exists node.
Qed.

(** [getAllNodes] on a consistent store returns the stored nodes, each of
    them and nothing else. *)
Lemma getAllNodes_consistent w o :
  consistent (store w) → faults w = [] →
  o ∈ (getAllNodes getTime w).1
  ↔ ∃ node, stored (store w) node ∧ o = object_of node.
Proof.
  intros Hst Hfaults. destruct (registry_is_set _ Hst) as [r Hr].
  rewrite (getAllNodes_let_through getTime w r Hfaults Hr), parse_results_elem.
  split.
  - intros (i & _ & Ho). destruct (read_node_consistent _ _ _ Hst Ho)
      as (node & _ & ? & ?). eauto.
  - intros (node & Hnode & ->). exists (id node).
    split; [|by apply read_node_stored].
    apply elem_of_elements. rewrite <- (registry_set _ _ Hr).
    apply (registry_records _ Hst). unfold stored in Hnode. by rewrite Hnode.
Qed.

Lemma mapM_set_at_index st (terms : list string) :
  consistent st →
  mapM (Redis.set_at st) (map (λ term, "keyword:" +:+ term) terms)
  = Some (map (index st) terms).
Proof.
  intros Hst. induction terms as [|t terms IH]; [done|].
  cbn [map mapM]. rewrite IH. destruct (index_is_set _ Hst t) as [s Hs].
  by rewrite (index_set _ _ _ Hs), Hs.
Qed.

(** [searchNodes] when the backend answers on a consistent store. *)
Lemma searchNodes_let_through w query :
  consistent (store w) → faults w = [] →
  (searchNodes getTime query w).1
  = parse_results getTime
      (map (λ i, match Redis.hash_at (store w) ("node:" +:+ i) with
                 | Some h => Redis.Fields h
                 | None => Redis.Error
                 end)
         (elements (⋃ map (index (store w)) (searchTerms query)))).
Proof.
  intros Hst Hfaults. unfold searchNodes.
  destruct (JS.trim query) as [|c t] eqn:Htrim.
  { by rewrite searchTerms_trim_empty. }
  destruct (searchTerms query) as [|t0 terms] eqn:Hterms; [done|].
  rewrite call_let_through by by apply head_nil_let_through.
  cbn [Redis.run map].
  change (("keyword:" +:+ t0) :: map ?f terms) with (map f (t0 :: terms)).
  rewrite (mapM_set_at_index _ _ Hst). cbn [fst snd reply_members].
  destruct (elements _) as [|i0 ids]; [done|].
  unfold exec. rewrite round_trip_let_through by (cbn; by rewrite Hfaults).
  cbn [fst snd store].
  change (Redis.HGETALL ("node:" +:+ i0) :: map ?f ids) with (map f (i0 :: ids)).
  by rewrite (run_all_HGETALL (λ i, "node:" +:+ i)).
Qed.

(** [searchNodes] on a consistent store returns the stored nodes that have
    one of the terms of the query among their keywords, each of them and
    nothing else. *)
Lemma searchNodes_consistent w query o :
  consistent (store w) → faults w = [] →
  o ∈ (searchNodes getTime query w).1
  ↔ ∃ node, stored (store w) node ∧ o = object_of node
            ∧ ∃ term, term ∈ searchTerms query ∧ term ∈ keywords node.
Proof.
  intros Hst Hfaults.
  rewrite (searchNodes_let_through w query Hst Hfaults), parse_results_elem.
  setoid_rewrite elem_of_elements. setoid_rewrite elem_of_union_list.
  split.
  - intros (i & (s & (t & -> & Ht)%list_elem_of_fmap & Hi) & Ho).
    apply (index_records _ Hst) in Hi as (node & <- & Hnode & Hk).
    exists node. split_and!; [done| |eauto].
    rewrite (read_node_stored _ _ Hnode) in Ho. congruence.
  - intros (node & Hnode & -> & t & Ht & Hk). exists (id node).
    split; [|by apply read_node_stored].
    exists (index (store w) t). split; [by apply list_elem_of_fmap_2|].
    apply (index_records _ Hst). eauto.
Qed.

End Reads.

(** ** The order of the results *)

Section Sorting.

Local Set Default Proof Using "Type".

Variable getTime : string → option Z.

Implicit Types (a b o : NodeObject) (l : list NodeObject).

Lemma sort_insert_Permutation a l : sort_insert getTime a l ≡ₚ a :: l.
Proof.
  induction l as [|b l IH]; [done|]. cbn [sort_insert].
  destruct (0 <? newest_first getTime a b)%Z; [|done].
  rewrite IH. apply Permutation_swap.
Qed.

Lemma sort_Permutation l : sort getTime l ≡ₚ l.
Proof.
  induction l as [|a l IH]; [done|]. unfold sort. cbn [foldr].
  fold (sort getTime l). by rewrite sort_insert_Permutation, IH.
Qed.

Lemma not_older_trans a b o :
  not_older getTime a b → not_older getTime b o → not_older getTime a o.
Proof.
  intros (ta & tb & Ha & Hb & Hab) (tb' & to & Hb' & Ho & Hbo).
  exists ta, to. split_and!; [done..|]. rewrite Hb in Hb'. simplify_eq. lia.
Qed.

Lemma sort_insert_sorted a l :
  is_Some (time_of getTime a) →
  Forall (λ o, is_Some (time_of getTime o)) l →
  StronglySorted (not_older getTime) l →
  StronglySorted (not_older getTime) (sort_insert getTime a l).
Proof.
  intros [ta Ha]. induction l as [|b l IH]; intros Hl Hsorted.
  { repeat constructor. }
  apply Forall_cons in Hl as [[tb Hb] Hl].
  apply StronglySorted_inv in Hsorted as [Hsorted Hbl].
  cbn [sort_insert]. unfold newest_first. rewrite Hb, Ha.
  destruct (Z.ltb_spec 0 (tb - ta)) as [Hlt|Hge].
  - constructor; [by apply IH|].
    rewrite sort_insert_Permutation. constructor; [|done].
    exists tb, ta. split_and!; [done..|lia].
  - assert (not_older getTime a b) as Hab.
    { exists ta, tb. split_and!; [done..|lia]. }
    constructor; [by constructor|]. constructor; [done|].
    eapply Forall_impl; [exact Hbl|]. intros o. by apply not_older_trans.
Qed.

(** With valid dates the sort puts the newest first. *)
Lemma sort_sorted l :
  Forall (λ o, is_Some (time_of getTime o)) l →
  StronglySorted (not_older getTime) (sort getTime l).
Proof.
  induction 1 as [|a l Ha Hl IH]; [constructor|]. unfold sort. cbn [foldr].
  fold (sort getTime l). apply sort_insert_sorted; [done| |done].
  by rewrite sort_Permutation.
Qed.

Lemma getAllNodes_sort w : ∃ l, (getAllNodes getTime w).1 = sort getTime l.
Proof.
  unfold getAllNodes. destruct (call _ w) as [[reply|] w1]; [|by exists []].
  destruct (reply_members reply) as [|i0 ids]; [by exists []|].
  destruct (exec _ w1) as [[results|] w2]; [|by exists []].
  unfold parse_results. eauto.
Qed.

Lemma searchNodes_sort query w :
  ∃ l, (searchNodes getTime query w).1 = sort getTime l.
Proof.
  unfold searchNodes. destruct (JS.trim query); [by exists []|].
  destruct (searchTerms query) as [|t0 terms]; [by exists []|].
  destruct (call _ w) as [[reply|] w1]; [|by exists []].
  destruct (reply_members reply) as [|i0 ids]; [by exists []|].
  destruct (exec _ w1) as [[results|] w2]; [|by exists []].
  unfold parse_results. eauto.
Qed.

Lemma sorted_of_sort l' :
  (∃ l, l' = sort getTime l) →
  Forall (λ o, is_Some (time_of getTime o)) l' →
  StronglySorted (not_older getTime) l'.
Proof.
  intros [l ->] H. apply sort_sorted. by rewrite <- (sort_Permutation l).
Qed.

End Sorting.

(** ** The reads leave the store as it is *)

Section ReadOnly.

Local Set Default Proof Using "Type".

Variable getTime : string → option Z.

Implicit Types (w : World) (cs : list Redis.Command).

Lemma run_all_reads cs st :
  Forall (λ c, target c = None) cs → (Redis.run_all cs st).2 = st.
Proof.
  intros H. apply map_eq. intros key. rewrite run_all_lookup.
  apply foldl_effect_at_other. eapply Forall_impl; [exact H|].
  by intros c ->.
Qed.

Lemma round_trip_reads cs w :
  Forall (λ c, target c = None) cs → store (round_trip cs w).2 = store w.
Proof.
  intros H. unfold round_trip.
  pose proof (run_all_reads cs (store w) H) as Hall.
  destruct (head (faults w)) as [[n|]|].
  - cbn [snd store]. apply run_all_reads. by apply Forall_take.
  - destruct (Redis.run_all cs (store w)). exact Hall.
  - destruct (Redis.run_all cs (store w)). exact Hall.
Qed.

Lemma call_reads c w : target c = None → store (call c w).2 = store w.
Proof.
  intros H. unfold call.
  assert (Forall (λ c, target c = None) [c]) as Hc by by constructor.
  pose proof (round_trip_reads [c] w Hc) as Hrt.
  destruct (round_trip [c] w) as [[[|r [|r' rs]]|] w']; exact Hrt.
Qed.

Lemma HGETALL_reads (ids : list string) :
  Forall (λ c, target c = None) (map (λ i, Redis.HGETALL ("node:" +:+ i)) ids).
Proof. apply Forall_fmap, Forall_true. done. Qed.

Lemma getAllNodes_store w : store (getAllNodes getTime w).2 = store w.
Proof.
  unfold getAllNodes.
  pose proof (call_reads (Redis.SMEMBERS "nodes") w eq_refl) as H1.
  destruct (call _ w) as [[reply|] w1]; [|done].
  destruct (reply_members reply) as [|i0 ids]; [done|].
  pose proof (round_trip_reads _ w1 (HGETALL_reads (i0 :: ids))) as H2.
  unfold exec. cbn [snd] in H1.
  destruct (round_trip _ w1) as [[results|] w2]; cbn [snd] in *; congruence.
Qed.

Lemma searchNodes_store query w : store (searchNodes getTime query w).2 = store w.
Proof.
  unfold searchNodes. destruct (JS.trim query); [done|].
  destruct (searchTerms query) as [|t0 terms]; [done|].
  pose proof (call_reads
    (Redis.SUNION (map (λ term, "keyword:" +:+ term) (t0 :: terms))) w eq_refl)
    as H1.
  destruct (call _ w) as [[reply|] w1]; [|done].
  destruct (reply_members reply) as [|i0 ids]; [done|].
  pose proof (round_trip_reads _ w1 (HGETALL_reads (i0 :: ids))) as H2.
  unfold exec. cbn [snd] in H1.
  destruct (round_trip _ w1) as [[results|] w2]; cbn [snd] in *; congruence.
Qed.

End ReadOnly.

(** ** A delete undoes a create *)

Section Undo.

Local Set Default Proof Using "Type".

Implicit Types (st : gmap string Redis.Value) (v : option Redis.Value)
  (key member : string).

Lemma effect_SADD_twice key key' member v :
  effect (Redis.SADD key member) (effect (Redis.SADD key' member) v)
  = effect (Redis.SADD key' member) v.
Proof.
  destruct v as [[h|s]|]; cbn [effect]; [done| |]; do 2 f_equal; set_solver.
Qed.

Lemma effect_SREM_twice key key' member v :
  effect (Redis.SREM key member) (effect (Redis.SREM key' member) v)
  = effect (Redis.SREM key' member) v.
Proof.
  destruct v as [[h|s]|]; cbn [effect]; [done| |done].
  destruct (decide (member ∈ s)) as [Hin|Hout].
  - destruct (decide (s ∖ {[member]} = ∅)); [done|]. cbn [effect].
    rewrite decide_False; [done|set_solver].
  - cbn [effect]. by rewrite decide_False.
Qed.

Lemma foldl_SADD {A} (f : A → string) member (l : list A) key : ∀ v,
  foldl (effect_at key) v (map (λ a, Redis.SADD (f a) member) l)
  = if decide (key ∈ map f l) then effect (Redis.SADD key member) v else v.
Proof.
  induction l as [|a l IH]; intros v; [done|]. cbn [map foldl]. rewrite IH.
  destruct (decide (f a = key)) as [<-|Hne].
  - rewrite effect_at_target by done. rewrite effect_SADD_twice.
    rewrite (decide_True (P := f a ∈ f a :: _)) by by left.
    by case_decide.
  - rewrite effect_at_other by (cbn [target]; congruence).
    apply decide_ext. rewrite elem_of_cons. naive_solver.
Qed.

Lemma foldl_SREM {A} (f : A → string) member (l : list A) key : ∀ v,
  foldl (effect_at key) v (map (λ a, Redis.SREM (f a) member) l)
  = if decide (key ∈ map f l) then effect (Redis.SREM key member) v else v.
Proof.
  induction l as [|a l IH]; intros v; [done|]. cbn [map foldl]. rewrite IH.
  destruct (decide (f a = key)) as [<-|Hne].
  - rewrite effect_at_target by done. rewrite effect_SREM_twice.
    rewrite (decide_True (P := f a ∈ f a :: _)) by by left.
    by case_decide.
  - rewrite effect_at_other by (cbn [target]; congruence).
    apply decide_ext. rewrite elem_of_cons. naive_solver.
Qed.

(** A member that was not there is added and removed without a trace, as
    long as no key holds an empty set. *)
Lemma effect_SREM_SADD key member v :
  v ≠ Some (Redis.Members ∅) →
  (∀ s, v = Some (Redis.Members s) → member ∉ s) →
  effect (Redis.SREM key member) (effect (Redis.SADD key member) v) = v.
Proof.
  intros Hne Hout. destruct v as [[h|s]|]; cbn [effect]; [done| |].
  - rewrite decide_True by set_solver.
    specialize (Hout s eq_refl).
    assert (({[member]} ∪ s) ∖ {[member]} = s) as -> by set_solver.
    rewrite decide_False; [done|]. intros ->. by destruct Hne.
  - rewrite decide_True by set_solver. rewrite decide_True; [done|set_solver].
Qed.

Lemma delete_add_pipeline node st :
  consistent st → no_empty_set st →
  st !! ("node:" +:+ id node) = None →
  (Redis.run_all (delete_pipeline (id node) (keywords node))
     (Redis.run_all (add_pipeline node) st).2).2 = st.
Proof.
  intros Hst Hempty Hfresh. apply map_eq. intros key.
  rewrite !run_all_lookup. unfold add_pipeline, delete_pipeline.
  rewrite !foldl_app. cbn [foldl].
  rewrite (foldl_SADD (λ keyword, "keyword:" +:+ keyword)).
  rewrite (foldl_SREM (λ keyword, "keyword:" +:+ keyword)).
  assert (∀ s, st !! "nodes" = Some (Redis.Members s) → id node ∉ s) as Hreg.
  { intros s Hs Hin. assert (id node ∈ registry st) as Hin'.
    { unfold registry, Redis.set_at. by rewrite Hs. }
    apply (registry_records _ Hst) in Hin'. rewrite Hfresh in Hin'.
    by destruct Hin'. }
  assert (∀ k s, st !! ("keyword:" +:+ k) = Some (Redis.Members s) →
                 id node ∉ s) as Hidx.
  { intros k s Hs Hin. assert (id node ∈ index st k) as Hin'.
    { unfold index, Redis.set_at. by rewrite Hs. }
    apply (index_records _ Hst) in Hin' as (node' & Hid & Hnode & _).
    unfold stored in Hnode. rewrite Hid, Hfresh in Hnode. done. }
  destruct (decide (key = "node:" +:+ id node)) as [->|Hnode].
  { rewrite (effect_at_target _ _ (Redis.DEL _)) by done. by rewrite Hfresh. }
  rewrite (effect_at_other _ _ (Redis.DEL _)) by (cbn [target]; congruence).
  rewrite (effect_at_other _ _ (Redis.HSET _ _)) by (cbn [target]; congruence).
  destruct (decide (key = "nodes")) as [->|Hnodes].
  { rewrite !decide_False
      by (intros (k & H & _)%list_elem_of_fmap; by apply nodes_not_keyword in H).
    rewrite !effect_at_target by done.
    apply effect_SREM_SADD; [apply Hempty|apply Hreg]. }
  rewrite !(effect_at_other _ _ (Redis.SADD "nodes" _))
    by (cbn [target]; congruence).
  rewrite !(effect_at_other _ _ (Redis.SREM "nodes" _))
    by (cbn [target]; congruence).
  destruct (decide (key ∈ _)) as [(k & -> & Hk)%list_elem_of_fmap|Hkey]; [|done].
  apply effect_SREM_SADD; [apply Hempty|apply Hidx].
Qed.

End Undo.

(** ** Saving a node as it is *)

Section Resave.

Local Set Default Proof Using "Type".

Lemma no_elements {A} (l : list A) : (∀ x, x ∉ l) → l = [].
Proof. destruct l as [|a l]; [done|]. intros H. destruct (H a). by left. Qed.

Lemma keywordDiff_same ks : keywordDiff ks ks = ([], []).
Proof.
  pose proof (keywordDiff_elem ks ks) as H.
  destruct (keywordDiff ks ks) as [toAdd toRemove]. cbn [fst snd] in H.
  f_equal; apply no_elements; intros k Hk; apply H in Hk; tauto.
Qed.

Lemma updated_same node :
  keywords node = extractKeywords (content node) →
  updated node (content node) = node.
Proof. intros H. destruct node. unfold updated. cbn in *. by rewrite <- H. Qed.

Lemma edit_pipeline_same node st :
  stored st node →
  keywords node = extractKeywords (content node) →
  (Redis.run_all (edit_pipeline (id node) (content node) (keywords node))
     st).2 = st.
Proof.
  intros Hnode Hks. unfold edit_pipeline. rewrite <- Hks, keywordDiff_same.
  cbn [map app Redis.run_all Redis.run].
  rewrite decide_False by (apply insert_non_empty).
  unfold stored in Hnode. rewrite Hnode. cbn [snd].
  rewrite Set_of_NoDup_id
    by (rewrite Hks; apply extractKeywords_set_of_first_ten).
  rewrite Hks at 1. rewrite written_over_storable, updated_same by done.
  by apply insert_id.
Qed.

End Resave.

(** ** The optimistic list *)

Section OptimisticFacts.

Local Set Default Proof Using "Type".

Lemma object_of_id node : own (object_of node) !! "id" = Some (id node).
Proof. done. Qed.

Lemma reducer_delete_elem (l : list NodeObject) nodeId o :
  o ∈ Optimistic.reducer l (Optimistic.delete nodeId)
  ↔ o ∈ l ∧ own o !! "id" ≠ Some nodeId.
Proof.
  cbn [Optimistic.reducer]. rewrite list_elem_of_In, filter_In, <- list_elem_of_In.
  by rewrite bool_decide_eq_true.
Qed.

Lemma stored_after_delete node node' st :
  stored (Redis.run_all (delete_pipeline (id node) (keywords node)) st).2 node'
  ↔ stored st node' ∧ id node' ≠ id node.
Proof.
  destruct (delete_pipeline_effect (id node) (keywords node) st) as (H & _).
  unfold stored. rewrite H. case_decide; naive_solver.
Qed.

End OptimisticFacts.

(** ** Each node once *)

Section Once.

Local Set Default Proof Using "Type".

Variable getTime : string → option Z.

Lemma NoDup_omap_inj {A B} (f : A → option B) (l : list A) :
  (∀ x y z, f x = Some z → f y = Some z → x = y) →
  NoDup l → NoDup (omap f l).
Proof.
  intros Hinj. induction 1 as [|x l Hx Hl IH]; [constructor|].
  cbn. destruct (f x) as [z|] eqn:Hz; [|exact IH].
  constructor; [|exact IH]. intros (y & Hy & Hfy)%list_elem_of_omap.
  by rewrite (Hinj _ _ _ Hz Hfy) in Hx.
Qed.

Lemma omap_read_node st (ids : list string) :
  omap (λ r, match r with
             | Redis.Error => None
             | data => parseNode (reply_data data)
             end)
    (map (λ i, match Redis.hash_at st ("node:" +:+ i) with
               | Some h => Redis.Fields h
               | None => Redis.Error
               end) ids)
  = omap (read_node st) ids.
Proof.
  induction ids as [|i ids IH]; [done|]. cbn. cbn in IH. rewrite IH.
  unfold read_node. by destruct (Redis.hash_at st ("node:" +:+ i)).
Qed.

Lemma parse_results_NoDup st (ids : list string) :
  consistent st → NoDup ids →
  NoDup (parse_results getTime
           (map (λ i, match Redis.hash_at st ("node:" +:+ i) with
                      | Some h => Redis.Fields h
                      | None => Redis.Error
                      end) ids)).
Proof.
  intros Hst Hids. unfold parse_results.
  rewrite sort_Permutation, omap_read_node.
  apply NoDup_omap_inj; [|done]. intros i j o Hi Hj.
  apply (read_node_consistent _ _ _ Hst) in Hi as (node & <- & _ & ->).
  apply (read_node_consistent _ _ _ Hst) in Hj as (node' & <- & _ & Ho).
  apply (f_equal (λ o, own o !! "id")) in Ho. rewrite !object_of_id in Ho.
  congruence.
Qed.

End Once.

(** ** Keywords and terms in normal form *)

Section NormalForm.

Local Set Default Proof Using "Type".

Implicit Types (s : string).

Lemma sall_sfilter_self p s : JS.sall p (JS.sfilter p s) = true.
Proof.
  induction s as [|c r IH]; [done|]. cbn [JS.sfilter].
  destruct (p c) eqn:Hc; [|done]. cbn [JS.sall]. by rewrite Hc.
Qed.

Lemma toLowerCase_twice s : JS.toLowerCase (JS.toLowerCase s) = JS.toLowerCase s.
Proof. apply toLowerCase_fixed, toLowerCase_lower_case. Qed.

End NormalForm.

(** ** The store after each action *)

Section After.

Local Set Default Proof Using "Type".

Implicit Types (st : gmap string Redis.Value) (node : KnowledgeNode).

Lemma object_of_inj node node' : object_of node = object_of node' → node = node'.
Proof.
  intros H. apply (inj Some). by rewrite <- !as_node_object_of, H.
Qed.

Lemma stored_id st node node' :
  stored st node → stored st node' → id node = id node' → node = node'.
Proof.
  unfold stored. intros H H' Hid. rewrite Hid, H' in H. by apply record_inj.
Qed.

Lemma stored_after_add node node' st :
  st !! ("node:" +:+ id node) = None →
  stored (Redis.run_all (add_pipeline node) st).2 node'
  ↔ node' = node ∨ stored st node'.
Proof.
  intros Hfresh. destruct (add_pipeline_effect node st Hfresh) as (H & _).
  unfold stored. rewrite H. destruct (decide (id node' = id node)) as [Hid|Hid].
  - split.
    + intros Heq. left. symmetry. by apply record_inj.
    + intros [->|Hst]; [done|]. rewrite Hid, Hfresh in Hst. done.
  - split; [by right|]. intros [->|Hst]; done.
Qed.

Lemma stored_after_edit node content' node' st :
  stored st node →
  stored (Redis.run_all (edit_pipeline (id node) content' (keywords node))
            st).2 node'
  ↔ node' = updated node content' ∨ (stored st node' ∧ id node' ≠ id node).
Proof.
  intros Hnode.
  destruct (edit_pipeline_effect (id node) content' (keywords node) st _ Hnode)
    as (H & _).
  unfold stored. rewrite H. destruct (decide (id node' = id node)) as [Hid|Hid].
  - rewrite written_over_storable. split.
    + intros Heq. left. symmetry. by apply record_inj.
    + intros [->|[_ ?]]; done.
  - split; [by right|]. intros [->|[Hst _]]; [|done]. by destruct Hid.
Qed.

End After.

(** ** The demonstration worlds are consistent *)

Lemma demo_world_store :
  store demo_world = (Redis.run_all (add_pipeline demo_node) ∅).2.
Proof. reflexivity. Qed.

Lemma demo_world_consistent : consistent (store demo_world).
Proof.
  rewrite demo_world_store. apply add_pipeline_consistent; [|done].
  apply consistent_empty.
Qed.

Lemma demo_node_stored : stored (store demo_world) demo_node.
Proof. reflexivity. Qed.

Lemma demo_pair_consistent : consistent (store demo_pair).
Proof.
  change (store demo_pair)
    with (Redis.run_all (add_pipeline (new_node second_id "200" "and then more"))
            (store demo_world)).2.
  apply add_pipeline_consistent; [|reflexivity].
  apply demo_world_consistent.
Qed.

(** No command leaves an empty set behind. *)
Lemma effect_no_empty_set c v :
  v ≠ Some (Redis.Members ∅) → effect c v ≠ Some (Redis.Members ∅).
Proof.
  intros Hv. destruct c as [k f|k|k|k m|k m|k|ks]; cbn [effect]; try done.
  - case_decide; [done|]. by destruct v as [[h|s]|].
  - destruct v as [[h|s]|]; [done| |]; intros [= H]; set_solver.
  - destruct v as [[h|s]|]; [done| |done].
    repeat case_decide; [done| |done]. congruence.
Qed.

Lemma run_all_no_empty_set cs st :
  no_empty_set st → no_empty_set (Redis.run_all cs st).2.
Proof.
  intros Hst key. rewrite run_all_lookup. specialize (Hst key).
  revert Hst. generalize (st !! key). induction cs as [|c cs IH]; [done|].
  intros v Hv. cbn [foldl]. apply IH. unfold effect_at.
  case_decide; [by apply effect_no_empty_set|done].
Qed.

Lemma demo_world_no_empty_set : no_empty_set (store demo_world).
Proof.
  rewrite demo_world_store. apply run_all_no_empty_set.
  intros key. by rewrite lookup_empty.
Qed.

(** ** The worlds that the actions reach *)

Section Reach.

Local Set Default Proof Using "Type".

Variable uuid : string → bool.
Variable not_a_string : string.
Variable getTime : string → option Z.

Implicit Types (w : World) (formData : list (string * string))
  (node : KnowledgeNode).

(** A create is stopped at validation or sends its batch. *)
Lemma addNodeAction_cases nodeId now prevState formData w :
  faults w = [] →
  (addNodeAction not_a_string nodeId now prevState formData w).2 = w
  ∨ ∃ content,
      (addNodeAction not_a_string nodeId now prevState formData w).2
      = {| store := (Redis.run_all (add_pipeline (new_node nodeId now content))
                       (store w)).2;
           sent := sent w ++ add_pipeline (new_node nodeId now content);
           faults := [] |}.
Proof.
  intros Hfaults.
  destruct (FormData_get "content" formData) as [content|] eqn:Hget.
  - destruct (Nat.leb_spec 3 (String.length content)) as [Hlen|Hlen].
    + right. exists content. by erewrite addNodeAction_runs.
    + left. unfold addNodeAction, addNodeSchema. rewrite Hget.
      by destruct (Nat.leb_spec 3 (String.length content)); [lia|].
  - left. unfold addNodeAction, addNodeSchema. by rewrite Hget.
Qed.

Lemma record_cases w i :
  consistent (store w) →
  store w !! ("node:" +:+ i) = None
  ∨ ∃ node, id node = i ∧ stored (store w) node.
Proof.
  intros Hst. destruct (store w !! ("node:" +:+ i)) as [v|] eqn:Hv; [|by left].
  right. destruct (record_is_node _ Hst i v Hv) as (node & -> & <-).
  by exists node.
Qed.

(** On a consistent store a delete returns: it is stopped at validation,
    finds no record, or sends its batch for the node of the id. *)
Lemma deleteNodeAction_cases formData w :
  consistent (store w) → faults w = [] →
  ∃ r w', deleteNodeAction uuid formData w = Some (r, w')
          ∧ faults w' = []
          ∧ (store w' = store w
             ∨ ∃ node, stored (store w) node
                 ∧ store w'
                   = (Redis.run_all (delete_pipeline (id node) (keywords node))
                        (store w)).2).
Proof.
  intros Hst Hfaults.
  destruct (FormData_get "nodeId" formData) as [i|] eqn:Hget;
    [destruct (uuid i) eqn:Hid|].
  - destruct (record_cases w i Hst) as [Hnone|(node & <- & Hnode)].
    + unfold deleteNodeAction, deleteNodeSchema.
      rewrite Hget, Hid, call_HGETALL, Hfaults. unfold Redis.hash_at.
      rewrite Hnone. cbn [head fmap option_fmap option_map reply_data].
      rewrite parseNode_empty. eexists _, _. split; [done|]. by split; [|left].
    + rewrite (deleteNodeAction_runs uuid formData node w Hget Hid Hnode Hfaults).
      eexists _, _. split; [done|]. split; [done|]. right. by exists node.
  - unfold deleteNodeAction, deleteNodeSchema. rewrite Hget, Hid.
    eexists _, _. split; [done|]. by split; [|left].
  - unfold deleteNodeAction, deleteNodeSchema. rewrite Hget.
    eexists _, _. split; [done|]. by split; [|left].
Qed.

(** The same for an update. *)
Lemma editNodeAction_cases formData w :
  consistent (store w) → faults w = [] →
  ∃ r w', editNodeAction uuid formData w = Some (r, w')
          ∧ faults w' = []
          ∧ (store w' = store w
             ∨ ∃ node content', stored (store w) node
                 ∧ store w'
                   = (Redis.run_all
                        (edit_pipeline (id node) content' (keywords node))
                        (store w)).2).
Proof.
  intros Hst Hfaults.
  assert (Hinvalid :
    editNodeSchema uuid (FormData_get "nodeId" formData)
      (FormData_get "content" formData) = None →
    ∃ r w', editNodeAction uuid formData w = Some (r, w')
            ∧ faults w' = []
            ∧ (store w' = store w
               ∨ ∃ node content', stored (store w) node
                   ∧ store w'
                     = (Redis.run_all
                          (edit_pipeline (id node) content' (keywords node))
                          (store w)).2)).
  { intros H. unfold editNodeAction. rewrite H.
    eexists _, _. split; [done|]. by split; [|left]. }
  destruct (FormData_get "nodeId" formData) as [i|] eqn:Hget;
    [|by apply Hinvalid].
  destruct (FormData_get "content" formData) as [content'|] eqn:Hcontent;
    [|by apply Hinvalid].
  destruct (uuid i) eqn:Hid;
    [|apply Hinvalid; unfold editNodeSchema; by rewrite Hid].
  destruct (Nat.leb_spec 3 (String.length content')) as [Hlen|Hlen];
    [|apply Hinvalid; unfold editNodeSchema; rewrite Hid;
      by destruct (Nat.leb_spec 3 (String.length content')); [lia|]].
  clear Hinvalid.
  destruct (record_cases w i Hst) as [Hnone|(node & <- & Hnode)].
  - unfold editNodeAction, editNodeSchema. rewrite Hget, Hcontent, Hid.
    destruct (Nat.leb_spec 3 (String.length content')); [|lia]. cbn [andb].
    rewrite call_HGETALL, Hfaults. unfold Redis.hash_at.
    rewrite Hnone. cbn [head fmap option_fmap option_map reply_data].
    rewrite parseNode_empty. eexists _, _. split; [done|]. by split; [|left].
  - rewrite (editNodeAction_runs uuid formData node content' w
               Hget Hcontent Hid Hlen Hnode Hfaults).
    eexists _, _. split; [done|]. split; [done|]. right. by exists node, content'.
Qed.

Lemma round_trip_faults_nil cs w : faults w = [] → faults (round_trip cs w).2 = [].
Proof. intros H. by rewrite round_trip_faults, H. Qed.

Lemma call_faults_nil c w : faults w = [] → faults (call c w).2 = [].
Proof. intros H. by rewrite call_faults, H. Qed.

Lemma getAllNodes_faults w : faults w = [] → faults (getAllNodes getTime w).2 = [].
Proof.
  intros H. unfold getAllNodes.
  pose proof (call_faults_nil (Redis.SMEMBERS "nodes") w H) as H1.
  destruct (call _ w) as [[reply|] w1]; [|done].
  destruct (reply_members reply) as [|i0 ids]; [done|].
  pose proof (round_trip_faults_nil
    (map (λ i, Redis.HGETALL ("node:" +:+ i)) (i0 :: ids)) w1 H1) as H2.
  unfold exec. by destruct (round_trip _ w1) as [[results|] w2].
Qed.

Lemma searchNodes_faults query w :
  faults w = [] → faults (searchNodes getTime query w).2 = [].
Proof.
  intros H. unfold searchNodes. destruct (JS.trim query); [done|].
  destruct (searchTerms query) as [|t0 terms]; [done|].
  pose proof (call_faults_nil
    (Redis.SUNION (map (λ term, "keyword:" +:+ term) (t0 :: terms))) w H) as H1.
  destruct (call _ w) as [[reply|] w1]; [|done].
  destruct (reply_members reply) as [|i0 ids]; [done|].
  pose proof (round_trip_faults_nil
    (map (λ i, Redis.HGETALL ("node:" +:+ i)) (i0 :: ids)) w1 H1) as H2.
  unfold exec. by destruct (round_trip _ w1) as [[results|] w2].
Qed.

Lemma invariant_store w w' :
  store w' = store w → faults w' = [] → invariant w → invariant w'.
Proof. intros Hstore Hfaults [? ? ? ?]. split; by rewrite ?Hstore. Qed.

Lemma invariant_empty : invariant empty_world.
Proof.
  split; [apply consistent_empty| | |done].
  - intros key. cbn [store empty_world]. by rewrite lookup_empty.
  - intros node. unfold stored. cbn [store empty_world]. by rewrite lookup_empty.
Qed.

Lemma reachable_invariant_all w :
  reachable uuid not_a_string getTime w → invariant w.
Proof.
  induction 1 as [|w nodeId now prevState formData _ IH Hfresh
                  |w formData r w' _ IH Hrun
                  |w formData r w' _ IH Hrun
                  |w _ IH|w query _ IH].
  - apply invariant_empty.
  - destruct (addNodeAction_cases nodeId now prevState formData w
                (inv_faults _ IH)) as [-> | [content ->]]; [done|].
    destruct IH as [Hst Hempty Hks Hfaults]. split; cbn [store faults].
    + by apply add_pipeline_consistent.
    + by apply run_all_no_empty_set.
    + intros node [-> | Hnode]%stored_after_add; [done|by apply Hks|done].
    + done.
  - destruct (deleteNodeAction_cases formData w (inv_consistent _ IH)
                (inv_faults _ IH))
      as (r' & w'' & Hrun' & Hfaults' & Hstore).
    rewrite Hrun in Hrun'. injection Hrun' as <- <-.
    destruct Hstore as [Hstore | (node & Hnode & Hstore)].
    { by eapply invariant_store. }
    destruct IH as [Hst Hempty Hks Hfaults]. split; rewrite ?Hstore.
    + by apply delete_pipeline_consistent.
    + by apply run_all_no_empty_set.
    + intros node' [Hnode' _]%stored_after_delete. by apply Hks.
    + done.
  - destruct (editNodeAction_cases formData w (inv_consistent _ IH)
                (inv_faults _ IH))
      as (r' & w'' & Hrun' & Hfaults' & Hstore).
    rewrite Hrun in Hrun'. injection Hrun' as <- <-.
    destruct Hstore as [Hstore | (node & content' & Hnode & Hstore)].
    { by eapply invariant_store. }
    destruct IH as [Hst Hempty Hks Hfaults]. split; rewrite ?Hstore.
    + by apply edit_pipeline_consistent.
    + by apply run_all_no_empty_set.
    + intros node' [-> | [Hnode' _]]%stored_after_edit; [done|by apply Hks|done].
    + done.
  - eapply invariant_store; [apply getAllNodes_store| |done].
    apply getAllNodes_faults, IH.
  - eapply invariant_store; [apply searchNodes_store| |done].
    apply searchNodes_faults, IH.
Qed.

End Reach.

(** ** The keys that the writes touch *)

Section Frame.

Local Set Default Proof Using "Type".

Variable uuid : string → bool.
Variable not_a_string : string.

Implicit Types (w : World) (formData : list (string * string))
  (cs : list Redis.Command) (key : string).








End Frame.

(** ** Further properties of the tokenizers *)

(** X1: every keyword that [extractKeywords] returns is in lower case and
    holds neither white space nor one of the characters [.,!?]. *)
Theorem extractKeywords_normal_form content :
  Forall (λ k, JS.sall JS.lower_case k = true
               ∧ JS.sall (λ c, negb (JS.is_space c)) k = true
               ∧ JS.sall (λ c, negb (JS.is_punct c)) k = true)
    (extractKeywords content).
Proof.
  apply Forall_forall. intros k Hk.
  destruct (extractKeywords_term content k Hk) as [Hspace Hlower].
  split_and!; [done..|].
  unfold extractKeywords in Hk. rewrite Set_of_elem in Hk.
  apply (subseteq_take 10), list_elem_of_fmap in Hk as (word & -> & _).
  apply sall_sfilter_self.
Qed.

(** X2: [extractKeywords] returns at most ten keywords, and neither it nor
    the term list of [searchNodes] holds a token twice. *)
Theorem tokens_distinct_at_most_ten text :
  NoDup (extractKeywords text)
  ∧ length (extractKeywords text) ≤ 10
  ∧ NoDup (searchTerms text).
Proof.
  destruct (extractKeywords_set_of_first_ten text) as (Hnodup & Hlen & _).
  split_and!; [done..|]. apply Set_of_NoDup.
Qed.

(** X3: both tokenizers see a text only through its lower-case form: a text
    and its lower-casing have the same keywords and the same terms. *)
Theorem tokenizers_ignore_case text :
  extractKeywords (JS.toLowerCase text) = extractKeywords text
  ∧ searchTerms (JS.toLowerCase text) = searchTerms text.
Proof.
  unfold extractKeywords, searchTerms. by rewrite toLowerCase_twice.
Qed.

(** ** Further properties of the actions *)

Section Further.

Local Set Default Proof Using "Type".

Variable uuid : string → bool.
Variable not_a_string : string.
Variable getTime : string → option Z.

Implicit Types (w : World) (formData : list (string * string))
  (node : KnowledgeNode) (o : NodeObject).

(** X4: a query whose words all have at most two characters (a blank query
    among them) makes [searchNodes] return the empty list without a command
    sent. *)
Theorem searchNodes_without_terms query w :
  Forall (λ piece, String.length piece ≤ 2)
    (JS.split_ws (JS.toLowerCase query)) →
  searchNodes getTime query w = ([], w).
Proof.
  intros Hshort. assert (searchTerms query = []) as Hterms.
  { unfold searchTerms. rewrite filter_nil_Forall; [done|].
    eapply Forall_impl; [exact Hshort|]. intros piece Hlen. cbn beta in *.
    destruct (Nat.ltb_spec 2 (String.length piece)); [lia|done]. }
  unfold searchNodes. rewrite Hterms. by destruct (JS.trim query).
Qed.

(** X5: on a consistent store and with the backend answering, [searchNodes]
    returns the stored nodes that have one of the terms of the query among
    their keywords: each of them, once, and nothing else. *)
Theorem searchNodes_any_term query w :
  consistent (store w) → faults w = [] →
  NoDup (searchNodes getTime query w).1
  ∧ ∀ o, o ∈ (searchNodes getTime query w).1
         ↔ ∃ node, stored (store w) node ∧ o = object_of node
                   ∧ ∃ term, term ∈ searchTerms query ∧ term ∈ keywords node.
Proof.
  intros Hst Hfaults. split.
  - rewrite (searchNodes_let_through getTime w query Hst Hfaults).
    apply parse_results_NoDup; [done|]. apply NoDup_elements.
  - intros o. by apply searchNodes_consistent.
Qed.

(** X6: on a consistent store and with the backend answering, [getAllNodes]
    returns the stored nodes: each of them, once, and nothing else. *)
Theorem getAllNodes_stored_nodes w :
  consistent (store w) → faults w = [] →
  NoDup (getAllNodes getTime w).1
  ∧ ∀ o, o ∈ (getAllNodes getTime w).1
         ↔ ∃ node, stored (store w) node ∧ o = object_of node.
Proof.
  intros Hst Hfaults. split.
  - destruct (registry_is_set _ Hst) as [r Hr].
    rewrite (getAllNodes_let_through getTime w r Hfaults Hr).
    apply parse_results_NoDup; [done|]. apply NoDup_elements.
  - intros o. by apply getAllNodes_consistent.
Qed.

(** X7: when the dates of the returned nodes are valid, [getAllNodes] and
    [searchNodes] return them newest first, whatever the store and the fate
    of the round trips. *)
Theorem reads_newest_first query w :
  Forall (λ o, is_Some (time_of getTime o)) (getAllNodes getTime w).1 →
  Forall (λ o, is_Some (time_of getTime o)) (searchNodes getTime query w).1 →
  StronglySorted (not_older getTime) (getAllNodes getTime w).1
  ∧ StronglySorted (not_older getTime) (searchNodes getTime query w).1.
Proof.
  intros Hall Hsearch. split.
  - by apply sorted_of_sort; [apply getAllNodes_sort|].
  - by apply sorted_of_sort; [apply searchNodes_sort|].
Qed.

(** X8: [getAllNodes] and [searchNodes] leave the store as it was, also
    when a round trip is rejected part of the way. *)
Theorem reads_keep_store query w :
  store (getAllNodes getTime w).2 = store w
  ∧ store (searchNodes getTime query w).2 = store w.
Proof. split; [apply getAllNodes_store|apply searchNodes_store]. Qed.

(** X9: a content of less than three characters stops [addNodeAction] at
    validation: the error of the schema is returned and the world is as it
    was, with no command sent. *)
Theorem addNodeAction_short_content nodeId now prevState formData content w :
  FormData_get "content" formData = Some content →
  String.length content < 3 →
  addNodeAction not_a_string nodeId now prevState formData w
  = ({| status := Status.error;
        message := "Content must be at least 3 characters." |}, w).
Proof.
  intros Hget Hlen. unfold addNodeAction, addNodeSchema. rewrite Hget.
  by destruct (Nat.leb_spec 3 (String.length content)); [lia|].
Qed.

(** X10: a create that goes through on a consistent store where the id is
    new reports success and leaves a consistent store, which holds the new
    node and the nodes it held before, and no other. *)
Theorem addNodeAction_keeps_consistency
    nodeId now prevState formData content w :
  FormData_get "content" formData = Some content →
  3 ≤ String.length content →
  faults w = [] →
  consistent (store w) →
  store w !! ("node:" +:+ nodeId) = None →
  let created := addNodeAction not_a_string nodeId now prevState formData w in
  created.1 = {| status := Status.success; message := "Node added!" |}
  ∧ consistent (store created.2)
  ∧ ∀ node, stored (store created.2) node
            ↔ node = new_node nodeId now content ∨ stored (store w) node.
Proof.
  intros Hget Hlen Hfaults Hst Hfresh created. subst created.
  rewrite (addNodeAction_runs not_a_string nodeId now prevState formData
             content w Hget Hlen Hfaults).
  cbn [fst snd store]. split_and!; [done| |].
  - by apply add_pipeline_consistent.
  - intros node. by apply stored_after_add.
Qed.

(** X11: after a create that goes through on a consistent store where the
    id is new, [getAllNodes] returns the nodes of the list
    that the reducer of the page builds for the update [add]: the new node
    and the nodes listed before. *)
Theorem getAllNodes_after_create nodeId now prevState formData content w o :
  FormData_get "content" formData = Some content →
  3 ≤ String.length content →
  faults w = [] →
  consistent (store w) →
  store w !! ("node:" +:+ nodeId) = None →
  let created := addNodeAction not_a_string nodeId now prevState formData w in
  o ∈ (getAllNodes getTime created.2).1
  ↔ o ∈ Optimistic.reducer (getAllNodes getTime w).1
          (Optimistic.add (object_of (new_node nodeId now content))).
Proof.
  intros Hget Hlen Hfaults Hst Hfresh created. subst created.
  rewrite (addNodeAction_runs not_a_string nodeId now prevState formData
             content w Hget Hlen Hfaults).
  cbn [snd Optimistic.reducer]. rewrite elem_of_cons.
  rewrite !getAllNodes_consistent;
    [|done|done|by apply add_pipeline_consistent|done].
  cbn [store]. split.
  - intros (node & Hnode & ->).
    apply (stored_after_add (new_node nodeId now content) node (store w) Hfresh)
      in Hnode as [->|Hnode]; [by left|].
    right. by exists node.
  - intros [->|(node & Hnode & ->)].
    + eexists. split; [|done]. apply stored_after_add; [done|by left].
    + exists node. split; [|done]. apply stored_after_add; [done|by right].
Qed.

(** X12: a delete of a stored node that goes through on a consistent store
    reports success and leaves a consistent store, which holds the other
    nodes and no record, registry entry or index entry of the deleted
    one. *)
Theorem deleteNodeAction_removes_node formData node w :
  FormData_get "nodeId" formData = Some (id node) →
  uuid (id node) = true →
  faults w = [] →
  consistent (store w) →
  stored (store w) node →
  ∃ w', deleteNodeAction uuid formData w
        = Some ({| success := true; message' := "Node deleted." |}, w')
        ∧ consistent (store w')
        ∧ store w' !! ("node:" +:+ id node) = None
        ∧ (id node ∉ registry (store w'))
        ∧ (∀ keyword, id node ∉ index (store w') keyword)
        ∧ ∀ node', stored (store w') node'
                   ↔ stored (store w) node' ∧ id node' ≠ id node.
Proof.
  intros Hget Hid Hfaults Hst Hnode.
  rewrite (deleteNodeAction_runs uuid formData node w Hget Hid Hnode Hfaults).
  eexists. split; [done|]. cbn [store].
  pose proof (delete_pipeline_consistent node (store w) Hst Hnode) as Hst'.
  destruct (delete_pipeline_effect (id node) (keywords node) (store w))
    as (Hrec & _).
  set (st' := (Redis.run_all _ (store w)).2) in *.
  assert (st' !! ("node:" +:+ id node) = None) as Hgone.
  { rewrite Hrec. by rewrite decide_True. }
  split_and!; [done|done| | |].
  - intros Hin%(registry_records _ Hst'). rewrite Hgone in Hin.
    by destruct Hin.
  - intros keyword (node' & Hid' & Hnode' & _)%(index_records _ Hst').
    unfold stored in Hnode'. rewrite Hid', Hgone in Hnode'. done.
  - intros node'. apply stored_after_delete.
Qed.

(** X13: after a delete of a stored node that goes through on a consistent
    store, [getAllNodes] returns the nodes of the list
    that the reducer of the page built for the update [delete] before the
    action ran. *)
Theorem optimistic_delete_agrees formData node w o :
  FormData_get "nodeId" formData = Some (id node) →
  uuid (id node) = true →
  faults w = [] →
  consistent (store w) →
  stored (store w) node →
  ∃ w', deleteNodeAction uuid formData w
        = Some ({| success := true; message' := "Node deleted." |}, w')
        ∧ (o ∈ (getAllNodes getTime w').1
           ↔ o ∈ Optimistic.reducer (getAllNodes getTime w).1
                   (Optimistic.delete (id node))).
Proof.
  intros Hget Hid Hfaults Hst Hnode.
  rewrite (deleteNodeAction_runs uuid formData node w Hget Hid Hnode Hfaults).
  eexists. split; [done|].
  rewrite reducer_delete_elem.
  rewrite !getAllNodes_consistent;
    [|done|done|by apply delete_pipeline_consistent|done].
  cbn [store]. split.
  - intros (node' & [Hnode' Hne]%stored_after_delete & ->).
    split; [by exists node'|]. rewrite object_of_id. congruence.
  - intros [(node' & Hnode' & ->) Hne]. exists node'. split; [|done].
    apply stored_after_delete. split; [done|].
    rewrite object_of_id in Hne. congruence.
Qed.

(** X14: a delete undoes a create: when both go through, on a consistent
    store without an empty set where the id was new, the store is again
    what it was before the create. *)
Theorem delete_undoes_create
    nodeId now prevState formData formData' content w :
  FormData_get "content" formData = Some content →
  3 ≤ String.length content →
  FormData_get "nodeId" formData' = Some nodeId →
  uuid nodeId = true →
  faults w = [] →
  consistent (store w) →
  no_empty_set (store w) →
  store w !! ("node:" +:+ nodeId) = None →
  ∃ w', deleteNodeAction uuid formData'
          (addNodeAction not_a_string nodeId now prevState formData w).2
        = Some ({| success := true; message' := "Node deleted." |}, w')
        ∧ store w' = store w.
Proof.
  intros Hget Hlen Hget' Hid Hfaults Hst Hempty Hfresh.
  rewrite (addNodeAction_runs not_a_string nodeId now prevState formData
             content w Hget Hlen Hfaults).
  cbn [snd]. set (node := new_node nodeId now content).
  rewrite (deleteNodeAction_runs uuid formData' node); [|done..| |done].
  - eexists. split; [done|]. cbn [store]. by apply delete_add_pipeline.
  - cbn [store]. by apply stored_after_add; [|left].
Qed.

(** X15: an update of a stored node that goes through on a consistent
    store reports success and leaves a consistent store, which holds the
    node with its new content and the keywords of that content, with its
    id, type and date as before, and the other nodes as they were. *)
Theorem editNodeAction_updates_node formData node content' w :
  FormData_get "nodeId" formData = Some (id node) →
  FormData_get "content" formData = Some content' →
  uuid (id node) = true →
  3 ≤ String.length content' →
  faults w = [] →
  consistent (store w) →
  stored (store w) node →
  ∃ w', editNodeAction uuid formData w
        = Some ({| success := true; message' := "Node updated." |}, w')
        ∧ consistent (store w')
        ∧ ∀ node', stored (store w') node'
                   ↔ node' = updated node content'
                     ∨ (stored (store w) node' ∧ id node' ≠ id node).
Proof.
  intros Hget Hcontent Hid Hlen Hfaults Hst Hnode.
  rewrite (editNodeAction_runs uuid formData node content' w
             Hget Hcontent Hid Hlen Hnode Hfaults).
  eexists. split; [done|]. cbn [store]. split.
  - by apply edit_pipeline_consistent.
  - intros node'. by apply stored_after_edit.
Qed.

(** X16: an update that gives a node the content it has, when its keywords
    are those of that content, changes nothing in the store. *)
Theorem editNodeAction_same_content formData node w :
  FormData_get "nodeId" formData = Some (id node) →
  FormData_get "content" formData = Some (content node) →
  uuid (id node) = true →
  3 ≤ String.length (content node) →
  faults w = [] →
  stored (store w) node →
  keywords node = extractKeywords (content node) →
  ∃ w', editNodeAction uuid formData w
        = Some ({| success := true; message' := "Node updated." |}, w')
        ∧ store w' = store w.
Proof.
  intros Hget Hcontent Hid Hlen Hfaults Hnode Hks.
  rewrite (editNodeAction_runs uuid formData node (content node) w
             Hget Hcontent Hid Hlen Hnode Hfaults).
  eexists. split; [done|]. cbn [store]. by apply edit_pipeline_same.
Qed.

(** X17: when the record of a valid id is missing or does not parse,
    [editNodeAction] fails, the read is the only command sent and the store
    is as it was; when the read came through, the failure is
    "Node not found.". *)
Theorem editNodeAction_not_found formData w nodeId content' :
  FormData_get "nodeId" formData = Some nodeId →
  FormData_get "content" formData = Some content' →
  uuid nodeId = true →
  3 ≤ String.length content' →
  (store w !! ("node:" +:+ nodeId) = None
   ∨ ∃ fields, store w !! ("node:" +:+ nodeId) = Some (Redis.Hash fields)
               ∧ parseNode (Some fields) = None) →
  ∃ r, editNodeAction uuid formData w
       = Some (r, {| store := store w;
                     sent := sent w ++ [Redis.HGETALL ("node:" +:+ nodeId)];
                     faults := tail (faults w) |})
       ∧ success r = false
       ∧ ((∀ n, head (faults w) ≠ Some (Some n)) →
          message' r = "Node not found.").
Proof.
  intros Hget Hcontent Hid Hlen Hrecord. unfold editNodeAction, editNodeSchema.
  rewrite Hget, Hcontent, Hid.
  destruct (Nat.leb_spec 3 (String.length content')); [|lia].
  cbn [andb]. rewrite call_HGETALL.
  assert (∃ fields, Redis.hash_at (store w) ("node:" +:+ nodeId) = Some fields
                    ∧ parseNode (Some fields) = None) as (fields & -> & Hparse).
  { unfold Redis.hash_at. destruct Hrecord as [-> | (fields & -> & Hparse)];
      [|by eauto]. exists ∅. split; [done|apply parseNode_empty]. }
  destruct (head (faults w)) as [[n|]|] eqn:Hfault;
    cbn [fmap option_fmap option_map reply_data].
  - eexists. split_and!; [done..|]. intros Hn. by destruct (Hn n).
  - rewrite Hparse. eexists. split_and!; done.
  - rewrite Hparse. eexists. split_and!; done.
Qed.

(** X18: after an update of a stored node that goes through on a
    consistent store, a search returns the node exactly when one
    of the terms of the query is a keyword of the new content: the keywords
    it lost no longer lead to it. *)
Theorem updated_node_found_by_new_keywords formData node content' w query :
  FormData_get "nodeId" formData = Some (id node) →
  FormData_get "content" formData = Some content' →
  uuid (id node) = true →
  3 ≤ String.length content' →
  faults w = [] →
  consistent (store w) →
  stored (store w) node →
  ∃ w', editNodeAction uuid formData w
        = Some ({| success := true; message' := "Node updated." |}, w')
        ∧ (object_of (updated node content') ∈ (searchNodes getTime query w').1
           ↔ ∃ term, term ∈ searchTerms query
                     ∧ term ∈ extractKeywords content').
Proof.
  intros Hget Hcontent Hid Hlen Hfaults Hst Hnode.
  rewrite (editNodeAction_runs uuid formData node content' w
             Hget Hcontent Hid Hlen Hnode Hfaults).
  eexists. split; [done|].
  destruct (edit_pipeline_consistent node content' (store w) Hst Hnode)
    as [Hst' Hnode'].
  rewrite searchNodes_consistent; [|done..]. cbn [store]. split.
  - intros (node' & _ & <-%object_of_inj & Hterm). done.
  - intros Hterm. exists (updated node content'). done.
Qed.


End Further.

(** X20: a record without a [keywords] field, or with an empty one, parses
    to a node with no keywords; its other fields are kept. *)
Theorem parseNode_default_keywords (fields : gmap string string) :
  fields ≠ ∅ →
  fields !! "keywords" = None ∨ fields !! "keywords" = Some EmptyString →
  parseNode (Some fields)
  = Some {| own := delete "keywords" fields;
            keywords_value := JSON.of_strings [] |}.
Proof.
  intros Hne Hk. unfold parseNode.
  rewrite decide_False by by rewrite map_size_empty_iff.
  by destruct Hk as [-> | ->].
Qed.

Lemma demo_pair_reachable : reachable hex_uuid "Required" digits_time demo_pair.
Proof.
  apply (reach_add _ _ _ demo_world second_id "200" idle_state
           (content_form "and then more")); [|reflexivity].
  apply (reach_add _ _ _ empty_world demo_id "100" idle_state
           (content_form "ok. then")); [|reflexivity].
  apply reach_empty.
Qed.

Section Invariant.

Local Set Default Proof Using "Type".

Variable uuid : string → bool.
Variable not_a_string : string.
Variable getTime : string → option Z.

Implicit Types (w : World) (formData : list (string * string))
  (node : KnowledgeNode) (o : NodeObject).

(** X21: after a create that goes through on a consistent store where the
    id is new, a search returns the new node exactly when one of the terms
    of the query is one of its keywords. *)
Theorem created_node_found_by_its_keywords
    nodeId now prevState formData content w query :
  FormData_get "content" formData = Some content →
  3 ≤ String.length content →
  faults w = [] →
  consistent (store w) →
  store w !! ("node:" +:+ nodeId) = None →
  let created := addNodeAction not_a_string nodeId now prevState formData w in
  object_of (new_node nodeId now content)
    ∈ (searchNodes getTime query created.2).1
  ↔ ∃ term, term ∈ searchTerms query ∧ term ∈ extractKeywords content.
Proof.
  intros Hget Hlen Hfaults Hst Hfresh created. subst created.
  rewrite (addNodeAction_runs not_a_string nodeId now prevState formData
             content w Hget Hlen Hfaults).
  cbn [snd]. rewrite searchNodes_consistent;
    [|by apply add_pipeline_consistent|done].
  cbn [store]. split.
  - intros (node' & _ & <-%object_of_inj & Hterm). done.
  - intros Hterm. exists (new_node nodeId now content).
    split_and!; [|done..]. apply stored_after_add; [done|by left].
Qed.

(** X22: every world that the actions reach from the empty store, with the
    backend answering and new ids for the creates, has a consistent store
    without an empty set, in which the keywords of every node are those of
    its content. *)
Theorem reachable_worlds_invariant w :
  reachable uuid not_a_string getTime w →
  consistent (store w)
  ∧ no_empty_set (store w)
  ∧ faults w = []
  ∧ ∀ node, stored (store w) node →
            keywords node = extractKeywords (content node).
Proof.
  intros [Hst Hempty Hks Hfaults]%reachable_invariant_all. done.
Qed.

(** X23: in every world that the actions reach from the empty store,
    [deleteNodeAction] and [editNodeAction] return a
    result for every form: the keywords of a record always parse to an array
    of strings. *)
Theorem writes_return_on_reachable_worlds w formData :
  reachable uuid not_a_string getTime w →
  is_Some (deleteNodeAction uuid formData w)
  ∧ is_Some (editNodeAction uuid formData w).
Proof.
  intros [Hst _ _ Hfaults]%reachable_invariant_all. split.
  - destruct (deleteNodeAction_cases uuid formData w Hst Hfaults)
      as (r & w' & -> & _). done.
  - destruct (editNodeAction_cases uuid formData w Hst Hfaults)
      as (r & w' & -> & _). done.
Qed.

(** X24: in every world that the actions reach from the empty store, every
    object that [getAllNodes] and [searchNodes]
    return is a [KnowledgeNode], as the cast in [parseNode] claims, and its
    keywords are those of its content. *)
Theorem reads_return_nodes_on_reachable_worlds w query :
  reachable uuid not_a_string getTime w →
  Forall (λ o, ∃ node, as_node o = Some node
                       ∧ keywords node = extractKeywords (content node))
    ((getAllNodes getTime w).1 ++ (searchNodes getTime query w).1).
Proof.
  intros [Hst _ Hks Hfaults]%reachable_invariant_all.
  apply Forall_app. split; apply Forall_forall; intros o.
  - intros (node & Hnode & ->)%getAllNodes_consistent; [|done..].
    exists node. split; [apply as_node_object_of|by apply Hks].
  - intros (node & Hnode & -> & _)%searchNodes_consistent; [|done..].
    exists node. split; [apply as_node_object_of|by apply Hks].
Qed.


End Invariant.

(** ** The further properties on the demonstration worlds *)

Lemma searchNodes_without_terms_witness :
  searchNodes digits_time "a BC  d" demo_world = ([], demo_world).
Proof.
  apply (searchNodes_without_terms digits_time "a BC  d" demo_world).
  vm_compute. repeat constructor.
Defined.

Lemma searchNodes_any_term_witness :
  NoDup (searchNodes digits_time "More THEN" demo_pair).1
  ∧ ∀ o, o ∈ (searchNodes digits_time "More THEN" demo_pair).1
         ↔ ∃ node, stored (store demo_pair) node ∧ o = object_of node
                   ∧ ∃ term, term ∈ searchTerms "More THEN"
                             ∧ term ∈ keywords node.
Proof.
  apply (searchNodes_any_term digits_time "More THEN" demo_pair
           demo_pair_consistent eq_refl).
Defined.

Lemma getAllNodes_stored_nodes_witness :
  NoDup (getAllNodes digits_time demo_pair).1
  ∧ ∀ o, o ∈ (getAllNodes digits_time demo_pair).1
         ↔ ∃ node, stored (store demo_pair) node ∧ o = object_of node.
Proof.
  apply (getAllNodes_stored_nodes digits_time demo_pair
           demo_pair_consistent eq_refl).
Defined.

Lemma reads_newest_first_witness :
  StronglySorted (not_older digits_time) (getAllNodes digits_time demo_pair).1
  ∧ StronglySorted (not_older digits_time)
      (searchNodes digits_time "then" demo_pair).1.
Proof.
  apply (reads_newest_first digits_time "then" demo_pair).
  - refine (bool_decide_unpack _ _). vm_compute. exact I.
  - refine (bool_decide_unpack _ _). vm_compute. exact I.
Defined.

Lemma addNodeAction_short_content_witness :
  addNodeAction "Required" demo_id "100" idle_state (content_form "ab")
    demo_world
  = ({| status := Status.error;
        message := "Content must be at least 3 characters." |}, demo_world).
Proof.
  apply (addNodeAction_short_content "Required" demo_id "100" idle_state
           (content_form "ab") "ab" demo_world eq_refl).
  simpl. lia.
Defined.

Lemma addNodeAction_keeps_consistency_witness :
  let created :=
    addNodeAction "Required" second_id "200" idle_state
      (content_form "and then more") demo_world in
  created.1 = {| status := Status.success; message := "Node added!" |}
  ∧ consistent (store created.2)
  ∧ ∀ node, stored (store created.2) node
            ↔ node = new_node second_id "200" "and then more"
              ∨ stored (store demo_world) node.
Proof.
  apply (addNodeAction_keeps_consistency "Required" second_id "200" idle_state
           (content_form "and then more") "and then more" demo_world eq_refl).
  - simpl. lia.
  - reflexivity.
  - apply demo_world_consistent.
  - reflexivity.
Defined.

Lemma getAllNodes_after_create_witness :
  let created :=
    addNodeAction "Required" second_id "200" idle_state
      (content_form "and then more") demo_world in
  object_of demo_node ∈ (getAllNodes digits_time created.2).1
  ↔ object_of demo_node
    ∈ Optimistic.reducer (getAllNodes digits_time demo_world).1
        (Optimistic.add (object_of (new_node second_id "200" "and then more"))).
Proof.
  apply (getAllNodes_after_create "Required" digits_time second_id "200"
           idle_state (content_form "and then more") "and then more"
           demo_world (object_of demo_node) eq_refl).
  - simpl. lia.
  - reflexivity.
  - apply demo_world_consistent.
  - reflexivity.
Defined.

Lemma deleteNodeAction_removes_node_witness :
  ∃ w', deleteNodeAction hex_uuid (delete_form demo_id) demo_pair
        = Some ({| success := true; message' := "Node deleted." |}, w')
        ∧ consistent (store w')
        ∧ store w' !! ("node:" +:+ demo_id) = None
        ∧ (demo_id ∉ registry (store w'))
        ∧ (∀ keyword, demo_id ∉ index (store w') keyword)
        ∧ ∀ node', stored (store w') node'
                   ↔ stored (store demo_pair) node' ∧ id node' ≠ demo_id.
Proof.
  apply (deleteNodeAction_removes_node hex_uuid (delete_form demo_id)
           demo_node demo_pair eq_refl eq_refl eq_refl demo_pair_consistent).
  reflexivity.
Defined.

Lemma optimistic_delete_agrees_witness :
  ∃ w', deleteNodeAction hex_uuid (delete_form demo_id) demo_pair
        = Some ({| success := true; message' := "Node deleted." |}, w')
        ∧ (object_of demo_node ∈ (getAllNodes digits_time w').1
           ↔ object_of demo_node
             ∈ Optimistic.reducer (getAllNodes digits_time demo_pair).1
                 (Optimistic.delete demo_id)).
Proof.
  apply (optimistic_delete_agrees hex_uuid digits_time (delete_form demo_id)
           demo_node demo_pair (object_of demo_node)
           eq_refl eq_refl eq_refl demo_pair_consistent).
  reflexivity.
Defined.

Lemma delete_undoes_create_witness :
  ∃ w', deleteNodeAction hex_uuid (delete_form second_id)
          (addNodeAction "Required" second_id "200" idle_state
             (content_form "and then more") demo_world).2
        = Some ({| success := true; message' := "Node deleted." |}, w')
        ∧ store w' = store demo_world.
Proof.
  apply (delete_undoes_create hex_uuid "Required" second_id "200" idle_state
           (content_form "and then more") (delete_form second_id)
           "and then more" demo_world eq_refl).
  - simpl. lia.
  - reflexivity.
  - reflexivity.
  - reflexivity.
  - apply demo_world_consistent.
  - apply demo_world_no_empty_set.
  - reflexivity.
Defined.

Lemma editNodeAction_updates_node_witness :
  ∃ w', editNodeAction hex_uuid
          (edit_form demo_id "https://rocq-prover.org then more") demo_pair
        = Some ({| success := true; message' := "Node updated." |}, w')
        ∧ consistent (store w')
        ∧ ∀ node', stored (store w') node'
                   ↔ node' = updated demo_node "https://rocq-prover.org then more"
                     ∨ (stored (store demo_pair) node' ∧ id node' ≠ demo_id).
Proof.
  apply (editNodeAction_updates_node hex_uuid
           (edit_form demo_id "https://rocq-prover.org then more")
           demo_node "https://rocq-prover.org then more" demo_pair
           eq_refl eq_refl eq_refl).
  - simpl. lia.
  - reflexivity.
  - apply demo_pair_consistent.
  - reflexivity.
Defined.

Lemma editNodeAction_same_content_witness :
  ∃ w', editNodeAction hex_uuid (edit_form demo_id "ok. then") demo_world
        = Some ({| success := true; message' := "Node updated." |}, w')
        ∧ store w' = store demo_world.
Proof.
  apply (editNodeAction_same_content hex_uuid (edit_form demo_id "ok. then")
           demo_node demo_world eq_refl eq_refl eq_refl).
  - simpl. lia.
  - reflexivity.
  - reflexivity.
  - reflexivity.
Defined.

Lemma editNodeAction_not_found_witness :
  ∃ r, editNodeAction hex_uuid (edit_form second_id "and then more") demo_world
       = Some (r, {| store := store demo_world;
                     sent := sent demo_world
                             ++ [Redis.HGETALL ("node:" +:+ second_id)];
                     faults := tail (faults demo_world) |})
       ∧ success r = false
       ∧ ((∀ n, head (faults demo_world) ≠ Some (Some n)) →
          message' r = "Node not found.").
Proof.
  apply (editNodeAction_not_found hex_uuid
           (edit_form second_id "and then more") demo_world second_id
           "and then more" eq_refl eq_refl eq_refl).
  - simpl. lia.
  - left. reflexivity.
Defined.

Lemma updated_node_found_by_new_keywords_witness :
  ∃ w', editNodeAction hex_uuid
          (edit_form demo_id "https://rocq-prover.org then more") demo_pair
        = Some ({| success := true; message' := "Node updated." |}, w')
        ∧ (object_of (updated demo_node "https://rocq-prover.org then more")
             ∈ (searchNodes digits_time "more" w').1
           ↔ ∃ term, term ∈ searchTerms "more"
                     ∧ term ∈ extractKeywords "https://rocq-prover.org then more").
Proof.
  apply (updated_node_found_by_new_keywords hex_uuid digits_time
           (edit_form demo_id "https://rocq-prover.org then more")
           demo_node "https://rocq-prover.org then more" demo_pair "more"
           eq_refl eq_refl eq_refl).
  - simpl. lia.
  - reflexivity.
  - apply demo_pair_consistent.
  - reflexivity.
Defined.


Lemma parseNode_default_keywords_witness :
  parseNode (Some {[ "id" := demo_id; "content" := "ok. then" ]})
  = Some {| own := delete "keywords" {[ "id" := demo_id; "content" := "ok. then" ]};
            keywords_value := JSON.of_strings [] |}.
Proof.
  apply (parseNode_default_keywords {[ "id" := demo_id; "content" := "ok. then" ]}).
  - vm_compute. discriminate.
  - left. reflexivity.
Defined.

Lemma created_node_found_by_its_keywords_witness :
  let created :=
    addNodeAction "Required" second_id "200" idle_state
      (content_form "and then more") demo_world in
  object_of (new_node second_id "200" "and then more")
    ∈ (searchNodes digits_time "MORE or less" created.2).1
  ↔ ∃ term, term ∈ searchTerms "MORE or less"
            ∧ term ∈ extractKeywords "and then more".
Proof.
  apply (created_node_found_by_its_keywords "Required" digits_time second_id
           "200" idle_state (content_form "and then more") "and then more"
           demo_world "MORE or less" eq_refl).
  - simpl. lia.
  - reflexivity.
  - apply demo_world_consistent.
  - reflexivity.
Defined.

Lemma reachable_worlds_invariant_witness :
  consistent (store demo_pair)
  ∧ no_empty_set (store demo_pair)
  ∧ faults demo_pair = []
  ∧ ∀ node, stored (store demo_pair) node →
            keywords node = extractKeywords (content node).
Proof.
  apply (reachable_worlds_invariant hex_uuid "Required" digits_time demo_pair).
  apply demo_pair_reachable.
Defined.

Lemma writes_return_on_reachable_worlds_witness :
  is_Some (deleteNodeAction hex_uuid (delete_form demo_id) demo_pair)
  ∧ is_Some (editNodeAction hex_uuid (delete_form demo_id) demo_pair).
Proof.
  apply (writes_return_on_reachable_worlds hex_uuid "Required" digits_time
           demo_pair (delete_form demo_id)).
  apply demo_pair_reachable.
Defined.

Lemma reads_return_nodes_on_reachable_worlds_witness :
  Forall (λ o, ∃ node, as_node o = Some node
                       ∧ keywords node = extractKeywords (content node))
    ((getAllNodes digits_time demo_pair).1
     ++ (searchNodes digits_time "then" demo_pair).1).
Proof.
  apply (reads_return_nodes_on_reachable_worlds hex_uuid "Required" digits_time
           demo_pair "then").
  apply demo_pair_reachable.
Defined.

